(** * YT Subscriptions Cleaner: the fetch pipeline of [youtubeApi.js] and [limiter.js]

    A shallow embedding of the background worker's fetch logic:
    - [fetchJsonWithRetry]: exponential backoff on 403/429;
    - [isFresh], [daysAgo]: cache freshness and age computation;
    - [fetchLastUploadDates]: cache partition, batched [channels.list],
      concurrency-limited [playlistItems.list], result aggregation;
    - [createLimiter]: the concurrency limiter.

    Conventions.  JavaScript numbers that hold integers (HTTP status codes,
    epoch milliseconds, delays, ages in days) are [Z]; they stay below 2^53
    in magnitude, where the arithmetic of the code is exact.  An ISO-8601
    date string is
    represented by the instant it denotes, in epoch milliseconds: such a
    string is never empty, hence always truthy, and [new Date(s).getTime()]
    is the instant itself.  [null] and [undefined] are [None].

    Objects.  The contents of [chrome.storage.local] are a [gmap] over
    [string] keys.  [results] and [playlistIdMap] are object literals, which
    inherit from [Object.prototype]: [k in o] also holds for the names in
    [JsObject.inherited], and an assignment to [o["__proto__"]] sets the
    prototype of [o] instead of creating a property.  [results] is the
    [gmap] of its own properties, in which the key "__proto__" holds the
    object that was made its prototype, if any ([ownProperties] leaves it
    out); [playlistIdMap] is a [PlaylistIdMap].

    Asynchrony.  Steps 1 and 2 of [fetchLastUploadDates] await one thing at
    a time, so they are a function of the clock, the cache and the
    responses of the network in the order of the requests.  Step 3 runs
    tasks concurrently: it is a transition system whose transitions are the
    turns of the event loop, each the completion of what one task awaits,
    run until that task awaits again; the response, and the time elapsed,
    come with the event.  [chrome.storage.local.get] and [set] are taken to
    succeed. *)

From Stdlib Require Import ZArith Lia Ascii.
From stdpp Require Import gmap strings list fin_maps pretty.

Open Scope Z_scope.

(* ===================================================================== *)
(** ** JavaScript string helpers *)
(* ===================================================================== *)

Module JsString.

(** [c.toLowerCase()] on one code unit; only A-Z can map to the letters
    of the needle searched for below, so the ASCII table suffices. *)
Definition lowerChar (c : ascii) : ascii :=
  let n := nat_of_ascii c in
  if ((65 <=? n) && (n <=? 90))%nat then ascii_of_nat (n + 32) else c.

Fixpoint toLowerCase (s : string) : string :=
  match s with
  | EmptyString => EmptyString
  | String c s' => String (lowerChar c) (toLowerCase s')
  end.

Fixpoint startsWith (needle s : string) : bool :=
  match needle, s with
  | EmptyString, _ => true
  | String a n', String b s' => if decide (a = b) then startsWith n' s' else false
  | String _ _, EmptyString => false
  end.

(** [s.includes(needle)] *)
Fixpoint includes (needle s : string) : bool :=
  startsWith needle s ||
  match s with
  | EmptyString => false
  | String _ s' => includes needle s'
  end.

(** JavaScript truthiness of a string-or-nullish value. *)
Definition truthy (v : option string) : bool :=
  match v with
  | Some s => negb (String.eqb s "")
  | None => false
  end.

(** Declarative reading of [includes]: the needle occurs somewhere. *)
Definition occursIn (needle s : string) : Prop :=
  ∃ pre post : string, s = pre +:+ needle +:+ post.

End JsString.

(* ===================================================================== *)
(** ** Object literals used as dictionaries *)
(* ===================================================================== *)

Module JsObject.

(** The names of the properties of [Object.prototype].  An object literal
    inherits them: [k in {}] holds for each of these names. *)
Definition inherited : list string :=
  [ "constructor"; "__defineGetter__"; "__defineSetter__"; "hasOwnProperty";
    "__lookupGetter__"; "__lookupSetter__"; "isPrototypeOf"; "propertyIsEnumerable";
    "toString"; "valueOf"; "__proto__"; "toLocaleString" ].

End JsObject.

(** A string that is not the name of a property of [Object.prototype];
    channel ids, which start with "UC", are of this kind. *)
Definition ordinary (k : string) : Prop := k ∉ JsObject.inherited.

#[global] Instance ordinary_dec k : Decision (ordinary k).
Proof. unfold ordinary. apply _. Defined.

(* ===================================================================== *)
(** ** Data model *)
(* ===================================================================== *)

(** status values: "ok" | "no_uploads" | "api_error" | "quota_exceeded" *)
Inductive Status := ok | no_uploads | api_error | quota_exceeded.

#[global] Instance Status_eq_dec : EqDecision Status.
Proof. solve_decision. Defined.

(** The fields of a response item that the code reads, plus [publishedAt],
    the field the comment at the extraction site names as fallback. *)
Record Item := {
  item_id : string;                          (* item.id *)
  relatedPlaylists_uploads : option string;  (* item.contentDetails?.relatedPlaylists?.uploads *)
  videoPublishedAt : option Z;               (* item.contentDetails?.videoPublishedAt *)
  publishedAt : option Z;                    (* publishedAt *)
}.

(** A parsed JSON body: [data.items] and [body?.error?.message]. *)
Record Body := {
  items : option (list Item);
  error_message : option string;
}.

(** What reading the body gives: a parsed object, or an exception with its
    message ([r.json()] rejects, or the body is JSON [null]). *)
Inductive BodyRead :=
  | Parsed (b : Body)
  | Unreadable (msg : string).

(** What [await fetch(url)] gives: a response, or a rejection. *)
Inductive Response :=
  | Http (status : Z) (body : BodyRead)
  | NetworkError (msg : string).

(** [r.ok]: the status is in the range 200-299. *)
Definition r_ok (status : Z) : bool := (200 <=? status) && (status <=? 299).

(** The [Error] thrown by [fetchJsonWithRetry], with the two properties it
    sets; exceptions of other origin have neither. *)
Record JsError := {
  message : string;
  err_status : option Z;
  isQuota : bool;
}.

Inductive Outcome :=
  | Returned (data : option Body)   (* [None]: the function returned [undefined] *)
  | Thrown (e : JsError).

(** [const status = e.isQuota ? "quota_exceeded" : "api_error";] *)
Definition classify (e : JsError) : Status :=
  if isQuota e then quota_exceeded else api_error.

(* ===================================================================== *)
(** ** fetchJsonWithRetry *)
(* ===================================================================== *)

Module Retry.

Definition maxRetries : nat := 3.       (* default argument, used by every caller *)
Definition initialDelay : Z := 1000.    (* let delay = 1000 *)

Definition isRateLimit (status : Z) : bool := (status =? 403) || (status =? 429).

(** [body?.error?.message], with [body = await r.json().catch(() => ({}))] *)
Definition apiMessage (body : BodyRead) : option string :=
  match body with
  | Parsed b => error_message b
  | Unreadable _ => None
  end.

(** The error built at the end of the loop body. *)
Definition httpError (status : Z) (body : BodyRead) : JsError :=
  let apiMsg := apiMessage body in
  {| message := if JsString.truthy apiMsg            (* apiMsg || `HTTP_${r.status}` *)
                then default "" apiMsg
                else "HTTP_" +:+ pretty status;
     err_status := Some status;
     isQuota := (status =? 403) &&
                match apiMsg with
                | Some m => JsString.includes "quota" (JsString.toLowerCase m)
                | None => false
                end |}.

(** One pass through the loop body once [fetch] has settled. *)
Inductive Attempt :=
  | Settle (o : Outcome)
  | Backoff.                            (* sleep(delay); delay *= 2; continue *)

Definition afterFetch (maxRetries attempt : nat) (r : Response) : Attempt :=
  match r with
  | NetworkError msg =>
      Settle (Thrown {| message := msg; err_status := None; isQuota := false |})
  | Http status body =>
      if r_ok status then
        match body with
        | Parsed b => Settle (Returned (Some b))
        | Unreadable msg =>
            Settle (Thrown {| message := msg; err_status := None; isQuota := false |})
        end
      else if isRateLimit status && (attempt <? maxRetries)%nat then Backoff
      else Settle (Thrown (httpError status body))
  end.

(** The outcome of one call, the delays slept and the number of requests. *)
Record Run := {
  outcome : Outcome;
  sleeps : list Z;
  requests : nat;
}.

(** [for (let attempt = 0; attempt <= maxRetries; attempt++)]; [fuel]
    counts the iterations left, [net n] is the response to the [n]-th
    request made on the network. *)
Fixpoint loop (net : nat → Response) (maxRetries fuel attempt : nat) (delay : Z)
    (n : nat) (slept : list Z) (sent : nat) : Run :=
  match fuel with
  | O => {| outcome := Returned None; sleeps := slept; requests := sent |}
  | S fuel' =>
      match afterFetch maxRetries attempt (net n) with
      | Settle o => {| outcome := o; sleeps := slept; requests := S sent |}
      | Backoff =>
          loop net maxRetries fuel' (S attempt) (delay * 2) (S n)
               (slept ++ [delay]) (S sent)
      end
  end.

Definition fetchJsonWithRetry (net : nat → Response) (n : nat) : Run :=
  loop net maxRetries (S maxRetries) 0 initialDelay n [] 0.

(** A 403 or a 429. *)
Definition rateLimited (r : Response) : Prop :=
  ∃ st body, r = Http st body ∧ (st = 403 ∨ st = 429).

(** The response that settled the call. *)
Definition lastResponse (net : nat → Response) (n : nat) (run : Run) : Response :=
  net (n + length (sleeps run))%nat.

End Retry.

(* ===================================================================== *)
(** ** createLimiter *)
(* ===================================================================== *)

(** The limiter's own variables are [active] and [queue].  The promises it
    hands out are the entries of [jobs], indexed in submission order: a
    queue entry is the index of its job, standing for [{fn, resolve,
    reject}].  [P] is what a started job is doing, [V] and [E] are what it
    resolves or rejects with. *)
Module Limiter.
Section Jobs.
Context {P V E : Type}.

Inductive Job :=
  | Waiting                 (* in [queue], [fn] not called yet *)
  | Running (p : P)         (* [fn()] called, its promise pending *)
  | Resolved (v : V)
  | Rejected (e : E).

Record State := {
  concurrency : Z;
  active : Z;
  queue : list nat;
  jobs : list Job;
}.

Definition createLimiter (concurrency : Z) : State :=
  {| concurrency := concurrency; active := 0; queue := []; jobs := [] |}.

(** [next()]: returns the job it started, if any; [start] is the state
    of a job right after [fn()] has been called. *)
Definition next (start : P) (s : State) : State * option nat :=
  match queue s with
  | [] => (s, None)
  | i :: rest =>
      if concurrency s <=? active s then (s, None)
      else ({| concurrency := concurrency s;
               active := active s + 1;
               queue := rest;
               jobs := <[i := Running start]> (jobs s) |}, Some i)
  end.

(** [limit(fn)]: [queue.push({fn, resolve, reject}); next();] *)
Definition limit (start : P) (s : State) : State * option nat :=
  next start {| concurrency := concurrency s;
                active := active s;
                queue := queue s ++ [length (jobs s)];
                jobs := jobs s ++ [Waiting] |}.

Inductive Settlement := Fulfil (v : V) | Reject (e : E).

Definition settled (o : Settlement) : Job :=
  match o with Fulfil v => Resolved v | Reject e => Rejected e end.

(** The promise of the running job [i] settles with [o]:
    [.then(resolve).catch(reject).finally(() => { active--; next(); })] *)
Definition settle (start : P) (i : nat) (o : Settlement) (s : State)
    : option (State * option nat) :=
  match jobs s !! i with
  | Some (Running _) =>
      Some (next start {| concurrency := concurrency s;
                          active := active s - 1;
                          queue := queue s;
                          jobs := <[i := settled o]> (jobs s) |})
  | _ => None
  end.

(** The running job [i] moves on to its next suspension point. *)
Definition advance (i : nat) (p : P) (s : State) : State :=
  {| concurrency := concurrency s;
     active := active s;
     queue := queue s;
     jobs := <[i := Running p]> (jobs s) |}.

Definition isRunning (j : Job) : bool :=
  match j with Running _ => true | _ => false end.

Definition isWaiting (j : Job) : bool :=
  match j with Waiting => true | _ => false end.

Definition isSettled (j : Job) : bool :=
  match j with Resolved _ | Rejected _ => true | _ => false end.

(** Number of jobs in flight. *)
Definition inFlight (s : State) : nat :=
  sum_list_with (λ j, if isRunning j then 1%nat else 0%nat) (jobs s).

(** The jobs started so far are the first [k] submitted. *)
Definition startedPrefix (s : State) (k : nat) : Prop :=
  (k ≤ length (jobs s))%nat ∧
  ∀ i j, jobs s !! i = Some j → (isWaiting j = true ↔ (k ≤ i)%nat).

(** The limiter's variables agree with the promises it handed out. *)
Definition consistent (s : State) : Prop :=
  active s = Z.of_nat (inFlight s) ∧
  (active s ≤ concurrency s ∨ active s = 0) ∧
  ∃ k, startedPrefix s k ∧ queue s = seq k (length (jobs s) - k).

(** ... and no job waits while there is room. *)
Definition wf (s : State) : Prop :=
  consistent s ∧ (queue s ≠ [] → concurrency s ≤ active s).

(** What a client can do with a limiter. *)
Inductive Op :=
  | Submit
  | Finish (i : nat) (o : Settlement)
  | Step (i : nat) (p : P).

Definition apply (start : P) (s : State) (op : Op) : option State :=
  match op with
  | Submit => Some (limit start s).1
  | Finish i o => fst <$> settle start i o s
  | Step i p =>
      match jobs s !! i with
      | Some (Running _) => Some (advance i p s)
      | _ => None
      end
  end.

Fixpoint run (start : P) (s : State) (ops : list Op) : option State :=
  match ops with
  | [] => Some s
  | op :: ops' =>
      match apply start s op with
      | Some s' => run start s' ops'
      | None => None
      end
  end.

End Jobs.
Arguments Job : clear implicits.
Arguments State : clear implicits.
Arguments Settlement : clear implicits.
Arguments Op : clear implicits.
End Limiter.

(* ===================================================================== *)
(** ** Settings, cache entries, results *)
(* ===================================================================== *)

Record Settings := {
  apiKey : string;
  cacheTtlHours : Z;
  concurrency : Z;
  thresholdDays : Z;
}.

(** const DEFAULTS *)
Definition DEFAULTS (key : string) : Settings :=
  {| apiKey := key; cacheTtlHours := 24; concurrency := 6; thresholdDays := 365 |}.

(** The value stored under [cache.<channelId>]. *)
Record CacheEntry := {
  uploadsPlaylistId : option string;
  lastUploadAt : option Z;
  lastCheckedAt : Z;
}.

Definition cacheKey (channelId : string) : string := "cache." +:+ channelId.

(** The three shapes of object assigned to [results[channelId]]. *)
Inductive ResultEntry :=
  | Dated (lastUploadAt : option Z) (daysAgo : option Z) (thresholdDays : Z) (status : Status)
      (* { lastUploadAt, daysAgo, thresholdDays, status } *)
  | NoPlaylist (thresholdDays : Z)
      (* { status: "no_uploads", daysAgo: null, thresholdDays } *)
  | Failed (status : Status) (error : string) (thresholdDays : Z).
      (* { status, error: e.message, thresholdDays } *)

Definition statusOf (r : ResultEntry) : Status :=
  match r with
  | Dated _ _ _ st => st
  | NoPlaylist _ => no_uploads
  | Failed st _ _ => st
  end.

(** The names of the properties of each shape. *)
Definition fieldsOf (r : ResultEntry) : list string :=
  match r with
  | Dated _ _ _ _ => ["lastUploadAt"; "daysAgo"; "thresholdDays"; "status"]
  | NoPlaylist _ => ["status"; "daysAgo"; "thresholdDays"]
  | Failed _ _ _ => ["status"; "error"; "thresholdDays"]
  end.

(** The names [results] inherits: those of [Object.prototype] and, once
    [results["__proto__"] = {...}] has made an entry the prototype of
    [results], the names of the properties of that entry. *)
Definition inheritedBy (results : gmap string ResultEntry) : list string :=
  match results !! "__proto__" with
  | Some r => fieldsOf r ++ JsObject.inherited
  | None => JsObject.inherited
  end.

(** [channelId in results] *)
Definition inResults (channelId : string) (results : gmap string ResultEntry) : Prop :=
  channelId ∈ dom results ∨ channelId ∈ inheritedBy results.

#[global] Instance inResults_dec channelId results : Decision (inResults channelId results).
Proof. unfold inResults. apply _. Defined.

(** The own properties of [results], as [Object.keys] and [Object.values]
    see them and as a message carries them. *)
Definition ownProperties (results : gmap string ResultEntry) : gmap string ResultEntry :=
  delete "__proto__" results.

Definition isFresh (now : Z) (cached : option CacheEntry) (cacheTtlHours : Z) : bool :=
  match cached with
  | None => false
  | Some c =>
      if lastCheckedAt c =? 0 then false                 (* !cached?.lastCheckedAt *)
      else
        let ttlMs := cacheTtlHours * 60 * 60 * 1000 in
        now - lastCheckedAt c <? ttlMs
  end.

Definition daysAgo (now : Z) (isoDate : option Z) : option Z :=
  match isoDate with
  | None => None
  | Some t => Some ((now - t) `div` (1000 * 60 * 60 * 24))
  end.

(** [lastUploadAt ? "ok" : "no_uploads"] *)
Definition uploadStatus (lastUploadAt : option Z) : Status :=
  match lastUploadAt with Some _ => ok | None => no_uploads end.

(* ===================================================================== *)
(** ** fetchLastUploadDates, step 1: load cache *)
(* ===================================================================== *)

Record ToFetch := {
  channelId : string;
  cachedPlaylistId : option string;
}.

(** The body of [for (const channelId of channelIds)]. *)
Definition loadOne (now : Z) (cached : gmap string CacheEntry) (settings : Settings)
    (bypassCache : bool) (acc : gmap string ResultEntry * list ToFetch) (channelId : string)
    : gmap string ResultEntry * list ToFetch :=
  let entry := cached !! cacheKey channelId in
  if negb bypassCache && isFresh now entry (cacheTtlHours settings) then
    let last := entry ≫= lastUploadAt in
    (<[channelId := Dated last (daysAgo now last) (thresholdDays settings)
                       (uploadStatus last)]> acc.1,
     acc.2)
  else
    (acc.1,
     acc.2 ++ [{| channelId := channelId;
                  cachedPlaylistId := entry ≫= uploadsPlaylistId |}]).

Definition loadCache (now : Z) (cached : gmap string CacheEntry) (settings : Settings)
    (bypassCache : bool) (channelIds : list string)
    : gmap string ResultEntry * list ToFetch :=
  foldl (loadOne now cached settings bypassCache) (∅, []) channelIds.

(* ===================================================================== *)
(** ** Effects observed on the outside *)
(* ===================================================================== *)

Inductive Request :=
  | Channels (batch : list string)                  (* channels?id=batch.join(",") *)
  | PlaylistItems (channelId playlistId : string).  (* playlistItems?playlistId=...,
                                                       requested for channelId *)

Inductive Effect :=
  | Fetch (req : Request)
  | Sleep (ms : Z)
  | CacheSet (channelId : string) (entry : CacheEntry)
  | DetailDone (channelId : string) (o : Outcome).

(* ===================================================================== *)
(** ** Step 2: batch channels.list *)
(* ===================================================================== *)

(** [playlistIdMap]: its own properties, each a string or [null], and
    whether its prototype has been set to [null]. *)
Record PlaylistIdMap := {
  pm_own : gmap string (option string);
  pm_bare : bool;
}.

(** [const playlistIdMap = {}] *)
#[global] Instance PlaylistIdMap_empty : Empty PlaylistIdMap :=
  {| pm_own := ∅; pm_bare := false |}.

(** [playlistIdMap[k] = v].  While the object inherits from
    [Object.prototype], an assignment to "__proto__" goes to the setter
    it inherits: [null] becomes the prototype, a string is ignored, and no
    property is created. *)
Definition setPlaylistId (k : string) (v : option string) (m : PlaylistIdMap)
    : PlaylistIdMap :=
  if decide (k = "__proto__" ∧ pm_bare m = false) then
    match v with
    | None => {| pm_own := pm_own m; pm_bare := true |}
    | Some _ => m
    end
  else {| pm_own := <[k := v]> (pm_own m); pm_bare := pm_bare m |}.

(** [cid in playlistIdMap] *)
Definition inPlaylistIdMap (cid : string) (m : PlaylistIdMap) : Prop :=
  cid ∈ dom (pm_own m) ∨ (pm_bare m = false ∧ cid ∈ JsObject.inherited).

#[global] Instance inPlaylistIdMap_dec cid m : Decision (inPlaylistIdMap cid m).
Proof. unfold inPlaylistIdMap. apply _. Defined.

(** The variables of steps 1 and 2; [sent] counts the requests made so far,
    the next one is answered by [net sent]. *)
Record Front := {
  f_results : gmap string ResultEntry;
  f_playlistIdMap : PlaylistIdMap;
  f_log : list Effect;
  f_sent : nat;
}.

(** The requests and sleeps of one call of [fetchJsonWithRetry], in order. *)
Fixpoint callLog (req : Request) (sleeps : list Z) : list Effect :=
  match sleeps with
  | [] => []
  | d :: rest => Sleep d :: Fetch req :: callLog req rest
  end.

Definition markFailed (status : Status) (error : string) (thresholdDays : Z)
    (results : gmap string ResultEntry) (batch : list string) : gmap string ResultEntry :=
  foldl (λ r cid, <[cid := Failed status error thresholdDays]> r) results batch.

(** [for (const item of data.items ?? [])] *)
Definition recordItems (m : PlaylistIdMap) (its : list Item) : PlaylistIdMap :=
  foldl (λ m item, setPlaylistId (item_id item) (relatedPlaylists_uploads item) m) m its.

(** [for (const cid of batch) if (!(cid in playlistIdMap)) playlistIdMap[cid] = null;] *)
Definition fillMissing (m : PlaylistIdMap) (batch : list string) : PlaylistIdMap :=
  foldl (λ m cid, if decide (inPlaylistIdMap cid m) then m else setPlaylistId cid None m)
        m batch.

(** [undefined.items] *)
Definition undefinedData : JsError :=
  {| message := "Cannot read properties of undefined (reading 'items')";
     err_status := None; isQuota := false |}.

(** The [try]/[catch] of one batch. *)
Definition resolveBatch (net : nat → Response) (thresholdDays : Z) (batch : list string)
    (f : Front) : Front :=
  let run := Retry.fetchJsonWithRetry net (f_sent f) in
  let log := f_log f ++ match Retry.requests run with
                        | O => []
                        | S _ => Fetch (Channels batch) ::
                                 callLog (Channels batch) (Retry.sleeps run)
                        end in
  let sent := (f_sent f + Retry.requests run)%nat in
  let failed e :=
    {| f_results := markFailed (classify e) (message e) thresholdDays (f_results f) batch;
       f_playlistIdMap := f_playlistIdMap f;
       f_log := log; f_sent := sent |} in
  match Retry.outcome run with
  | Returned (Some data) =>
      {| f_results := f_results f;
         f_playlistIdMap :=
           fillMissing (recordItems (f_playlistIdMap f) (default [] (items data))) batch;
         f_log := log; f_sent := sent |}
  | Returned None => failed undefinedData
  | Thrown e => failed e
  end.

(** [for (let i = 0; i < needPlaylistId.length; i += 50)]; at most
    [length needPlaylistId] iterations. *)
Fixpoint batchLoop (net : nat → Response) (thresholdDays : Z) (needPlaylistId : list string)
    (fuel i : nat) (f : Front) : Front :=
  match fuel with
  | O => f
  | S fuel' =>
      if (i <? length needPlaylistId)%nat then
        let batch := take 50 (drop i needPlaylistId) in      (* slice(i, i + 50) *)
        batchLoop net thresholdDays needPlaylistId fuel' (i + 50)
                  (resolveBatch net thresholdDays batch f)
      else f
  end.

Definition needPlaylistId (toFetch : list ToFetch) : list string :=
  channelId <$> filter (λ c, JsString.truthy (cachedPlaylistId c) = false) toFetch.

Definition resolvePlaylistIds (net : nat → Response) (thresholdDays : Z)
    (toFetch : list ToFetch) (results : gmap string ResultEntry) : Front :=
  let need := needPlaylistId toFetch in
  batchLoop net thresholdDays need (length need) 0
            {| f_results := results; f_playlistIdMap := ∅; f_log := []; f_sent := 0 |}.

(* ===================================================================== *)
(** ** Step 3: playlistItems through the limiter *)
(* ===================================================================== *)

(** Where a started task is suspended. *)
Inductive Progress :=
  | Fetching (attempt : nat) (delay : Z)   (* await fetch(url) *)
  | Sleeping (attempt : nat) (delay : Z)   (* await sleep(delay) *)
  | Storing.                               (* await chrome.storage.local.set(...) *)

(** What the closure passed to [limit] captures. *)
Record Task := {
  task_channelId : string;
  task_uploadsPlaylistId : string;
}.

Definition Pool := Limiter.State Progress unit string.

(** The state of a scan once the synchronous part of step 3 has run. *)
Record Scan := {
  threshold : Z;
  results : gmap string ResultEntry;
  storage : gmap string CacheEntry;
  tasks : list Task;
  pool : Pool;
  log : list Effect;
  clock : Z;
}.

Definition setResults (r : gmap string ResultEntry) (s : Scan) : Scan :=
  {| threshold := threshold s; results := r; storage := storage s; tasks := tasks s;
     pool := pool s; log := log s; clock := clock s |}.

Definition setStorage (c : gmap string CacheEntry) (s : Scan) : Scan :=
  {| threshold := threshold s; results := results s; storage := c; tasks := tasks s;
     pool := pool s; log := log s; clock := clock s |}.

Definition setPool (p : Pool) (s : Scan) : Scan :=
  {| threshold := threshold s; results := results s; storage := storage s; tasks := tasks s;
     pool := p; log := log s; clock := clock s |}.

Definition addLog (e : list Effect) (s : Scan) : Scan :=
  {| threshold := threshold s; results := results s; storage := storage s; tasks := tasks s;
     pool := pool s; log := log s ++ e; clock := clock s |}.

Definition addTask (t : Task) (s : Scan) : Scan :=
  {| threshold := threshold s; results := results s; storage := storage s;
     tasks := tasks s ++ [t]; pool := pool s; log := log s; clock := clock s |}.

Definition setClock (now : Z) (s : Scan) : Scan :=
  {| threshold := threshold s; results := results s; storage := storage s; tasks := tasks s;
     pool := pool s; log := log s; clock := now |}.

(** A task the limiter starts runs up to its first [await fetch(url)]. *)
Definition started : Progress := Fetching 0 Retry.initialDelay.

Definition taskRequest (t : Task) : Request :=
  PlaylistItems (task_channelId t) (task_uploadsPlaylistId t).

(** The request issued by the task the limiter has just started, if any. *)
Definition launch (j : option nat) (s : Scan) : Scan :=
  match j ≫= (λ j, tasks s !! j) with
  | Some t => addLog [Fetch (taskRequest t)] s
  | None => s
  end.

(** [limit(async () => { ... })] *)
Definition submit (t : Task) (s : Scan) : Scan :=
  let s := addTask t s in
  let (p, j) := Limiter.limit started (pool s) in
  launch j (setPool p s).

(** [cachedPlaylistId ?? playlistIdMap[channelId]].  The callback reads
    [playlistIdMap[channelId]] after the test [channelId in results] has
    failed: [channelId] is then no name of [Object.prototype], and the
    property read is an own property, or [undefined]. *)
Definition pickPlaylistId (playlistIdMap : PlaylistIdMap) (c : ToFetch) : option string :=
  match cachedPlaylistId c with
  | Some p => Some p
  | None => default None (pm_own playlistIdMap !! channelId c)
  end.

(** The callback of [toFetch.map]. *)
Definition spawn (playlistIdMap : PlaylistIdMap) (s : Scan) (c : ToFetch) : Scan :=
  if decide (inResults (channelId c) (results s)) then s
  else
    let uploadsPlaylistId := pickPlaylistId playlistIdMap c in
    if JsString.truthy uploadsPlaylistId then
      submit {| task_channelId := channelId c;
                task_uploadsPlaylistId := default "" uploadsPlaylistId |} s
    else setResults (<[channelId c := NoPlaylist (threshold s)]> (results s)) s.

(** The call of [fetchLastUploadDates] up to [await Promise.all(promises)]:
    steps 1 and 2 and the synchronous [toFetch.map].  The cache snapshot is
    [storage]; [now] is the clock during step 1; the batch requests of step
    2, made one after the other, are answered by [net 0], [net 1], ...  The
    tasks then run in the turns of [step]; once [returned] holds the call
    resolves with [results]. *)
Definition fetchLastUploadDates (now : Z) (net : nat → Response)
    (storage : gmap string CacheEntry) (channelIds : list string) (settings : Settings)
    (bypassCache : bool) : Scan :=
  let (results, toFetch) := loadCache now storage settings bypassCache channelIds in
  match toFetch with
  | [] =>                                   (* if (toFetch.length === 0) return results; *)
      {| threshold := thresholdDays settings; results := results; storage := storage;
         tasks := []; pool := Limiter.createLimiter (concurrency settings);
         log := []; clock := now |}
  | _ =>
      let f := resolvePlaylistIds net (thresholdDays settings) toFetch results in
      foldl (spawn (f_playlistIdMap f))
            {| threshold := thresholdDays settings; results := f_results f;
               storage := storage; tasks := [];
               pool := Limiter.createLimiter (concurrency settings);
               log := f_log f; clock := now |}
            toFetch
  end.

(** What completes, for which task, and how long after the previous event. *)
Inductive Completion :=
  | GotResponse (r : Response)
  | TimerFired
  | StorageDone.

Record Event := {
  ev_task : nat;
  ev_elapsed : nat;
  ev_completion : Completion;
}.

(** The task's promise settles; the limiter's [finally] callback runs. *)
Definition finish (i : nat) (s : Scan) : option Scan :=
  match Limiter.settle started i (Limiter.Fulfil tt) (pool s) with
  | Some (p, j) => Some (launch j (setPool p s))
  | None => None
  end.

(** [item?.contentDetails?.videoPublishedAt ?? null], with
    [item = data.items?.[0]] *)
Definition extractLastUpload (data : Body) : option Z :=
  let item := head (default [] (items data)) in
  item ≫= videoPublishedAt.

(** How far a resumed task gets before it awaits again. *)
Inductive Verdict :=
  | Suspend (p : Progress) (eff : Effect)   (* it reaches another await *)
  | Fetched (data : Body)                   (* [fetchJsonWithRetry] returned [data] *)
  | Caught (o : Outcome) (e : JsError)      (* [catch (e)], [o] is how the call ended *)
  | Finished.                               (* the async function returns *)

(** The control flow of the task, with [fetchJsonWithRetry] inlined. *)
Definition resume (t : Task) (p : Progress) (c : Completion) : option Verdict :=
  match p, c with
  | Fetching attempt delay, GotResponse r =>
      match Retry.afterFetch Retry.maxRetries attempt r with
      | Retry.Backoff => Some (Suspend (Sleeping attempt delay) (Sleep delay))
      | Retry.Settle (Returned (Some data)) => Some (Fetched data)
      | Retry.Settle (Returned None) => Some (Caught (Returned None) undefinedData)
      | Retry.Settle (Thrown e) => Some (Caught (Thrown e) e)
      end
  | Sleeping attempt delay, TimerFired =>
      if (S attempt <=? Retry.maxRetries)%nat then
        Some (Suspend (Fetching (S attempt) (delay * 2)) (Fetch (taskRequest t)))
      else Some (Caught (Returned None) undefinedData)
  | Storing, StorageDone => Some Finished
  | _, _ => None
  end.

(** The [catch] of the task. *)
Definition taskFailed (i : nat) (t : Task) (e : JsError) (s : Scan) : option Scan :=
  finish i (setResults (<[task_channelId t :=
                            Failed (classify e) (message e) (threshold s)]> (results s)) s).

(** The task's code between [await fetchJsonWithRetry(url)] and
    [await chrome.storage.local.set(...)]; the write to storage takes
    effect in the order of the calls. *)
Definition taskFetched (i : nat) (t : Task) (data : Body) (s : Scan) : Scan :=
  let lastUploadAt := extractLastUpload data in
  let days := daysAgo (clock s) lastUploadAt in
  let entry := {| uploadsPlaylistId := Some (task_uploadsPlaylistId t);
                  lastUploadAt := lastUploadAt;
                  lastCheckedAt := clock s |} in
  setPool (Limiter.advance i Storing (pool s))
    (addLog [CacheSet (task_channelId t) entry]
      (setStorage (<[cacheKey (task_channelId t) := entry]> (storage s))
        (setResults (<[task_channelId t :=
                         Dated lastUploadAt days (threshold s) (uploadStatus lastUploadAt)]>
                       (results s)) s))).

Definition applyVerdict (i : nat) (t : Task) (v : Verdict) (s : Scan) : option Scan :=
  match v with
  | Suspend p eff => Some (setPool (Limiter.advance i p (pool s)) (addLog [eff] s))
  | Fetched data =>
      Some (taskFetched i t data
              (addLog [DetailDone (task_channelId t) (Returned (Some data))] s))
  | Caught o e => taskFailed i t e (addLog [DetailDone (task_channelId t) o] s)
  | Finished => finish i s
  end.

(** One turn of the event loop: the await of task [ev_task] completes and
    the task runs to its next await, or to its end. *)
Definition step (s : Scan) (ev : Event) : option Scan :=
  let i := ev_task ev in
  match tasks s !! i, Limiter.jobs (pool s) !! i with
  | Some t, Some (Limiter.Running p) =>
      match resume t p (ev_completion ev) with
      | Some v => applyVerdict i t v (setClock (clock s + Z.of_nat (ev_elapsed ev)) s)
      | None => None
      end
  | _, _ => None
  end.

Fixpoint exec (s : Scan) (evs : list Event) : option Scan :=
  match evs with
  | [] => Some s
  | ev :: evs' =>
      match step s ev with
      | Some s' => exec s' evs'
      | None => None
      end
  end.

(** [await Promise.all(promises)] is over: every task has settled. *)
Definition returned (s : Scan) : bool :=
  forallb Limiter.isSettled (Limiter.jobs (pool s)).

(** Tasks in flight: started by the limiter and not yet settled. *)
Definition detailsInFlight (s : Scan) : nat := Limiter.inFlight (pool s).

(** The last outcome of a detail fetch for [c] recorded in a log. *)
Definition detailOutcome (c : string) (eff : Effect) : option Outcome :=
  match eff with
  | DetailDone c' o => if decide (c' = c) then Some o else None
  | _ => None
  end.

Definition lastDetail (c : string) (l : list Effect) : option Outcome :=
  last (omap (detailOutcome c) l).

(** The channels that have a task. *)
Definition channels (s : Scan) : list string := task_channelId <$> tasks s.

(** A network request made for channel [c]. *)
Definition requestFor (c : string) (eff : Effect) : Prop :=
  match eff with
  | Fetch (Channels batch) => c ∈ batch
  | Fetch (PlaylistItems c' _) => c' = c
  | _ => False
  end.

Definition isRequest (eff : Effect) : Prop :=
  match eff with Fetch _ => True | _ => False end.

(* ===================================================================== *)
(** ** Invariants of a running scan *)
(* ===================================================================== *)

Definition JobState := option (Limiter.Job Progress unit string).

(** The task has not assigned [results[channelId]] yet. *)
Definition pendingWrite (j : JobState) : Prop :=
  match j with
  | Some Limiter.Waiting
  | Some (Limiter.Running (Fetching _ _))
  | Some (Limiter.Running (Sleeping _ _)) => True
  | _ => False
  end.

(** What the tasks of [s0] may do. *)
Definition taskEffect (s0 : Scan) (eff : Effect) : Prop :=
  match eff with
  | Fetch (Channels _) => False
  | Fetch (PlaylistItems c _) | CacheSet c _ | DetailDone c _ => c ∈ channels s0
  | Sleep _ => True
  end.

(** What [results] and the cache hold for [c], given how the last detail
    fetch for [c] since [s0] ended, if there was one. *)
Definition settledAs (s0 s : Scan) (c : string) (o : option Outcome) : Prop :=
  match o with
  | None => results s !! c = results s0 !! c
  | Some (Returned (Some data)) =>
      let last := extractLastUpload data in
      ∃ t pl, clock s0 ≤ t ≤ clock s ∧
        results s !! c = Some (Dated last (daysAgo t last) (threshold s0) (uploadStatus last)) ∧
        storage s !! cacheKey c =
          Some {| uploadsPlaylistId := Some pl; lastUploadAt := last; lastCheckedAt := t |}
  | Some (Returned None) =>
      results s !! c =
        Some (Failed (classify undefinedData) (message undefinedData) (threshold s0))
  | Some (Thrown e) =>
      results s !! c = Some (Failed (classify e) (message e) (threshold s0))
  end.

(** The effects since [s0] and what they left behind. *)
Definition accounted (s0 s : Scan) (extra : list Effect) : Prop :=
  log s = log s0 ++ extra ∧
  Forall (taskEffect s0) extra ∧
  (∀ c entry, CacheSet c entry ∈ extra →
     ∃ data, DetailDone c (Returned (Some data)) ∈ extra) ∧
  (∀ k, storage s !! k = storage s0 !! k ∨
        ∃ c data, k = cacheKey c ∧ DetailDone c (Returned (Some data)) ∈ extra) ∧
  (∀ c, settledAs s0 s c (lastDetail c extra)).

(** [s] is a state of the scan that left its synchronous part in [s0]. *)
Record Inv (s0 s : Scan) : Prop := {
  inv_tasks : tasks s = tasks s0;
  inv_threshold : threshold s = threshold s0;
  inv_clock : clock s0 ≤ clock s;
  inv_pool : Limiter.wf (pool s);
  inv_conc : Limiter.concurrency (pool s) = Limiter.concurrency (pool s0);
  inv_len : length (Limiter.jobs (pool s)) = length (tasks s);
  inv_cover : ∀ i t, tasks s !! i = Some t →
      pendingWrite (Limiter.jobs (pool s) !! i) ∨ task_channelId t ∈ dom (results s);
  inv_log : ∃ extra, accounted s0 s extra;
}.

(** Turns of the event loop still possible, at most. *)
Definition jobWeight (j : Limiter.Job Progress unit string) : nat :=
  match j with
  | Limiter.Waiting => 10
  | Limiter.Running (Fetching attempt _) => 2 * (3 - attempt) + 3
  | Limiter.Running (Sleeping attempt _) => 2 * (3 - attempt) + 2
  | Limiter.Running Storing => 1
  | _ => 0
  end.

Definition weight (s : Scan) : nat := sum_list_with jobWeight (Limiter.jobs (pool s)).

(* ===================================================================== *)
(** ** Vocabulary for the synchronous part *)
(* ===================================================================== *)

(** Step 1 answers [channelId] from the cache. *)
Definition cacheHit (now : Z) (cached : gmap string CacheEntry) (settings : Settings)
    (bypassCache : bool) (channelId : string) : bool :=
  negb bypassCache && isFresh now (cached !! cacheKey channelId) (cacheTtlHours settings).

(** The result built from the cache entry of [channelId]. *)
Definition fromCache (now : Z) (cached : gmap string CacheEntry) (settings : Settings)
    (channelId : string) : ResultEntry :=
  let last := cached !! cacheKey channelId ≫= lastUploadAt in
  Dated last (daysAgo now last) (thresholdDays settings) (uploadStatus last).

(** The [toFetch] entry of a channel that is not answered from the cache. *)
Definition missOf (cached : gmap string CacheEntry) (channelId : string) : ToFetch :=
  {| channelId := channelId;
     cachedPlaylistId := cached !! cacheKey channelId ≫= uploadsPlaylistId |}.

Definition isError (st : Status) : Prop := st = api_error ∨ st = quota_exceeded.

(** Effects that write nothing. *)
Definition quiet (eff : Effect) : Prop :=
  match eff with Fetch _ | Sleep _ => True | _ => False end.

(** What step 2 may do, with [need] the channels it resolves. *)
Definition batchEffect (need : list string) (eff : Effect) : Prop :=
  match eff with
  | Fetch (Channels batch) => batch ⊆ need
  | Sleep _ => True
  | _ => False
  end.

(** What step 2 leaves in [results], starting from [r0]. *)
Definition batchMarked (r0 : gmap string ResultEntry) (need : list string) (thr : Z)
    (f : Front) : Prop :=
  (∀ c, f_results f !! c = r0 !! c ∨
        (c ∈ need ∧ ∃ st msg, f_results f !! c = Some (Failed st msg thr) ∧ isError st)) ∧
  Forall (batchEffect need) (f_log f).

(** The pool right after [toFetch.map]: tasks are waiting or at their
    first request. *)
Record Sync (s : Scan) : Prop := {
  sync_pool : Limiter.wf (pool s);
  sync_len : length (Limiter.jobs (pool s)) = length (tasks s);
  sync_jobs : ∀ i job, Limiter.jobs (pool s) !! i = Some job →
      job = Limiter.Waiting ∨ job = Limiter.Running started;
}.

(** [s'] is [s] after some calls of the callback of [toFetch.map] on
    channels among [ids]. *)
Record Spawned (ids : list string) (s s' : Scan) : Prop := {
  sp_threshold : threshold s' = threshold s;
  sp_storage : storage s' = storage s;
  sp_clock : clock s' = clock s;
  sp_conc : Limiter.concurrency (pool s') = Limiter.concurrency (pool s);
  sp_tasks : ∃ new, tasks s' = tasks s ++ new ∧
      Forall (λ t, task_channelId t ∈ ids ∧ task_channelId t ∉ dom (results s)) new;
  sp_results : ∀ c, results s' !! c = results s !! c ∨
      (results s !! c = None ∧ c ∈ ids ∧ results s' !! c = Some (NoPlaylist (threshold s)));
  sp_log : ∃ l, log s' = log s ++ l ∧
      Forall (λ eff, ∃ t, t ∈ tasks s' ∧ eff = Fetch (taskRequest t)) l;
}.

(** The scan when [toFetch.map] begins, [f] being what steps 1 and 2 left. *)
Definition beforeSpawn (now : Z) (storage : gmap string CacheEntry) (settings : Settings)
    (f : Front) : Scan :=
  {| threshold := thresholdDays settings; results := f_results f; storage := storage;
     tasks := []; pool := Limiter.createLimiter (concurrency settings);
     log := f_log f; clock := now |}.

(** [c] has its result, or a task that will assign it. *)
Definition covered (s : Scan) (c : string) : Prop :=
  c ∈ dom (results s) ∨ c ∈ channels s.

(* ===================================================================== *)
(** ** A small world to run scans in *)
(* ===================================================================== *)

Definition channelItem (cid : string) (uploads : option string) : Item :=
  {| item_id := cid; relatedPlaylists_uploads := uploads;
     videoPublishedAt := None; publishedAt := None |}.

Definition videoItem (published : option Z) : Item :=
  {| item_id := "video"; relatedPlaylists_uploads := None;
     videoPublishedAt := published; publishedAt := None |}.

Definition okWith (its : list Item) : Response :=
  Http 200 (Parsed {| items := Some its; error_message := None |}).

(** Three rate-limit responses, then a success. *)
Definition rateLimitedThrice (n : nat) : Response :=
  match n with
  | 0%nat => Http 429 (Unreadable "")
  | 1%nat => Http 403 (Parsed {| items := None; error_message := Some "rateLimitExceeded" |})
  | 2%nat => Http 429 (Unreadable "")
  | _ => Http 200 (Parsed {| items := Some []; error_message := None |})
  end.

(** The daily quota is used up. *)
Definition quotaExhausted (n : nat) : Response :=
  Http 403 (Parsed {| items := None;
                      error_message := Some "You have exceeded your Quota." |}).

(** [channels.list] knows channel "a" only. *)
Definition demoNet (n : nat) : Response := okWith [channelItem "a" (Some "UUa")].

(** Channels "a" and "b", nothing cached, default settings. *)
Definition demoScan : Scan :=
  fetchLastUploadDates 1000 demoNet ∅ ["a"; "b"] (DEFAULTS "key") false.

(** The detail fetch for "a" succeeds, then its cache write completes. *)
Definition demoEvents : list Event :=
  [ {| ev_task := 0; ev_elapsed := 5;
       ev_completion := GotResponse (okWith [videoItem (Some 400)]) |};
    {| ev_task := 0; ev_elapsed := 1; ev_completion := StorageDone |} ].

(** The detail fetch for "a" fails with a server error. *)
Definition demoFailure : list Event :=
  [ {| ev_task := 0; ev_elapsed := 5;
       ev_completion := GotResponse (Http 500 (Unreadable "")) |} ].

Definition endOf (s : Scan) (evs : list Event) : Scan := default s (exec s evs).

(** Channel "a" was checked 10000 seconds ago. *)
Definition demoCache : gmap string CacheEntry :=
  {[ cacheKey "a" := {| uploadsPlaylistId := Some "UUa";
                          lastUploadAt := Some 1699000000000;
                          lastCheckedAt := 1699990000000 |} ]}.

Definition cachedScan : Scan :=
  fetchLastUploadDates 1700000000000 demoNet demoCache ["a"; "b"] (DEFAULTS "key") false.

(** Three submissions to a limiter of capacity 1; the first job rejects. *)
Definition demoOps : list (Limiter.Op nat unit string) :=
  [Limiter.Submit; Limiter.Submit; Limiter.Submit;
   Limiter.Finish 0 (Limiter.Reject "boom")].

Definition demoLimiter : Limiter.State nat unit string :=
  default (Limiter.createLimiter 1) (Limiter.run 0%nat (Limiter.createLimiter 1) demoOps).

(** A first scan of channel "b", which [channels.list] does not know, and a
    second one right after it on the storage the first one left. *)
Definition firstScan : Scan := fetchLastUploadDates 1000 demoNet ∅ ["b"] (DEFAULTS "key") false.
Definition secondScan : Scan :=
  fetchLastUploadDates 1001 demoNet (storage firstScan) ["b"] (DEFAULTS "key") false.

(** A first scan of channel "a", whose last upload is almost a day old when
    the detail fetch returns, and a second scan a second and a half later,
    when it is more than a day old. *)
Definition agingFirst : Scan :=
  fetchLastUploadDates 1699086399000 demoNet ∅ ["a"] (DEFAULTS "key") false.

Definition agingEvents : list Event :=
  [ {| ev_task := 0; ev_elapsed := 5;
       ev_completion := GotResponse (okWith [videoItem (Some 1699000000000)]) |};
    {| ev_task := 0; ev_elapsed := 1; ev_completion := StorageDone |} ].

Definition agingSecond : Scan :=
  fetchLastUploadDates 1699086400500 demoNet (storage (endOf agingFirst agingEvents)) ["a"]
            (DEFAULTS "key") false.

(** Channel "a" submitted twice: each occurrence gets a task; the detail
    fetch of the first succeeds and its cache write completes, then the
    detail fetch of the second fails with a server error. *)
Definition twiceScan : Scan :=
  fetchLastUploadDates 1000 demoNet ∅ ["a"; "a"] (DEFAULTS "key") false.

Definition twiceEvents : list Event :=
  [ {| ev_task := 0; ev_elapsed := 5;
       ev_completion := GotResponse (okWith [videoItem (Some 400)]) |};
    {| ev_task := 0; ev_elapsed := 1; ev_completion := StorageDone |};
    {| ev_task := 1; ev_elapsed := 2;
       ev_completion := GotResponse (Http 500 (Unreadable "")) |} ].

(** A scan of the single identifier "constructor", the name of a property
    that every object literal inherits. *)
Definition inheritedScan : Scan :=
  fetchLastUploadDates 1000 demoNet ∅ ["constructor"] (DEFAULTS "key") false.

(** A second scan of "a" and "b" after [demoScan] has run [demoEvents]. *)
Definition repeatScan : Scan :=
  fetchLastUploadDates 2000 demoNet (storage (endOf demoScan demoEvents)) ["a"; "b"]
            (DEFAULTS "key") false.

(** The [k]-th batch of step 2, the requests made before it, and the call
    made for it. *)
Definition chunk (need : list string) (k : nat) : list string :=
  take 50 (drop (50 * k) need).

Fixpoint sentBefore (net : nat → Response) (k : nat) : nat :=
  match k with
  | O => O
  | S k' => (sentBefore net k' +
             Retry.requests (Retry.fetchJsonWithRetry net (sentBefore net k')))%nat
  end.

Definition batchRun (net : nat → Response) (k : nat) : Retry.Run :=
  Retry.fetchJsonWithRetry net (sentBefore net k).

Definition batchFails (net : nat → Response) (k : nat) : Prop :=
  ∃ e, Retry.outcome (batchRun net k) = Thrown e.

(** The variables of step 2 before its loop, when step 1 found no hit. *)
Definition emptyFront : Front :=
  {| f_results := ∅; f_playlistIdMap := ∅; f_log := []; f_sent := 0 |}.

(** 120 channels; [channels.list] fails with a server error for the second
    batch. *)
Definition manyIds : list string := (λ n : nat, "UC" +:+ pretty n) <$> seq 0 120.

Definition secondBatchDown (n : nat) : Response :=
  match n with
  | 1%nat => Http 500 (Unreadable "")
  | _ => okWith []
  end.

Abbreviation manyScan :=
  (fetchLastUploadDates 1000 secondBatchDown ∅ manyIds (DEFAULTS "key") false).

(** A detail response whose only item has [publishedAt] but no
    [videoPublishedAt]. *)
Definition fallbackOnly : Body :=
  {| items := Some [{| item_id := "video"; relatedPlaylists_uploads := None;
                       videoPublishedAt := None;
                       publishedAt := Some 1699000000000 |}];
     error_message := None |}.

Definition fallbackEvents : list Event :=
  [ {| ev_task := 0; ev_elapsed := 5;
       ev_completion := GotResponse (Http 200 (Parsed fallbackOnly)) |};
    {| ev_task := 0; ev_elapsed := 1; ev_completion := StorageDone |} ].

(** The delay of a task agrees with its attempt: 1000ms doubled once per
    retry, at most three retries. *)
Definition paced (p : Progress) : Prop :=
  match p with
  | Fetching attempt delay => (attempt ≤ 3)%nat ∧ delay = 1000 * 2 ^ Z.of_nat attempt
  | Sleeping attempt delay => (attempt < 3)%nat ∧ delay = 1000 * 2 ^ Z.of_nat attempt
  | Storing => True
  end.

Definition pacedSleep (eff : Effect) : Prop :=
  match eff with
  | Sleep d => d = 1000 ∨ d = 2000 ∨ d = 4000
  | _ => True
  end.

Definition Paced (s : Scan) : Prop :=
  (∀ i p, Limiter.jobs (pool s) !! i = Some (Limiter.Running p) → paced p) ∧
  Forall pacedSleep (log s).


(* ===================================================================== *)
(** ** Reading a result entry *)
(* ===================================================================== *)

(** [r.daysAgo], [r.lastUploadAt], [r.thresholdDays] and [r.error]; a
    property the object does not have reads as [undefined]. *)
Definition daysAgoOf (r : ResultEntry) : option Z :=
  match r with
  | Dated _ days _ _ => days
  | NoPlaylist _ => None
  | Failed _ _ _ => None
  end.

Definition lastUploadOf (r : ResultEntry) : option Z :=
  match r with
  | Dated last _ _ _ => last
  | _ => None
  end.

Definition thresholdOf (r : ResultEntry) : Z :=
  match r with
  | Dated _ _ thr _ => thr
  | NoPlaylist thr => thr
  | Failed _ _ thr => thr
  end.

Definition errorOf (r : ResultEntry) : option string :=
  match r with
  | Failed _ msg _ => Some msg
  | _ => None
  end.

(** An entry as a scan with threshold [thr] writes it between the
    instants [lo] and [hi]. *)
Definition shaped (thr lo hi : Z) (r : ResultEntry) : Prop :=
  match r with
  | Dated last days thr' status =>
      thr' = thr ∧ status = uploadStatus last ∧ ∃ t, lo ≤ t ≤ hi ∧ days = daysAgo t last
  | NoPlaylist thr' => thr' = thr
  | Failed status _ thr' => thr' = thr ∧ isError status
  end.

(* ===================================================================== *)
(** ** The batches of step 2 *)
(* ===================================================================== *)

(** The slices [needPlaylistId.slice(i, i + 50)] for [i = 0, 50, ...]
    below [needPlaylistId.length]. *)
Definition batchCount (need : list string) : nat := ((length need + 49) `div` 50)%nat.

Definition batches (need : list string) : list (list string) :=
  chunk need <$> seq 0 (batchCount need).

(* ===================================================================== *)
(** ** Counting requests *)
(* ===================================================================== *)

Definition isBatchRequest (eff : Effect) : bool :=
  match eff with Fetch (Channels _) => true | _ => false end.

Definition isDetailRequest (eff : Effect) : bool :=
  match eff with Fetch (PlaylistItems _ _) => true | _ => false end.

Definition countEffects (f : Effect → bool) (l : list Effect) : nat :=
  sum_list_with (λ eff, if f eff then 1%nat else 0%nat) l.

(** The requests a task has made at most, by where it stands. *)
Definition requestsSpent (j : Limiter.Job Progress unit string) : nat :=
  match j with
  | Limiter.Waiting => 0
  | Limiter.Running (Fetching attempt _) => S attempt `min` 4
  | Limiter.Running (Sleeping attempt _) => S attempt `min` 4
  | _ => 4
  end.

(** Every detail request in the log is the request of one of the tasks. *)
Definition requestsOfTasks (s : Scan) : Prop :=
  Forall (λ eff, match eff with
                 | Fetch (PlaylistItems c p) => ∃ t, t ∈ tasks s ∧ eff = Fetch (taskRequest t)
                 | _ => True
                 end) (log s).

(** A task the limiter has started has made its first request. *)
Definition startedLogged (s : Scan) : Prop :=
  ∀ i t job, tasks s !! i = Some t → Limiter.jobs (pool s) !! i = Some job →
    job ≠ Limiter.Waiting → Fetch (taskRequest t) ∈ log s.

(** The requests made so far are within what the tasks may have spent. *)
Definition withinBudget (s : Scan) : Prop :=
  (countEffects isDetailRequest (log s)
   ≤ sum_list_with requestsSpent (Limiter.jobs (pool s)))%nat.

(** Where each task comes from: an entry of [toFetch] with a playlist id. *)
Definition taskOrigin (M : PlaylistIdMap) (toFetch : list ToFetch)
    (t : Task) : Prop :=
  ∃ x, x ∈ toFetch ∧ channelId x = task_channelId t ∧
       pickPlaylistId M x = Some (task_uploadsPlaylistId t) ∧
       task_uploadsPlaylistId t ≠ "".

(* ===================================================================== *)
(** ** The content script's list of identifiers *)
(* ===================================================================== *)

(** [new Set(channelIds)], as the list of its elements in insertion
    order: adding an element the set has leaves it as it is. *)
Definition setAdd (acc : list string) (x : string) : list string :=
  if decide (x ∈ acc) then acc else acc ++ [x].

(** [[...new Set(channelIds)]] *)
Definition uniqueIds (channelIds : list string) : list string :=
  foldl setAdd [] channelIds.

(** The three together: the bookkeeping of the requests of step 3. *)
Record Ledger (s : Scan) : Prop := {
  led_requests : requestsOfTasks s;
  led_started : startedLogged s;
  led_budget : withinBudget s;
}.

(** A scan of "a" and "b" that bypasses the cache of [demoCache], and the
    detail fetch for "a" failing for good after a rate-limit response. *)
Definition bypassScan : Scan :=
  fetchLastUploadDates 1700000000000 demoNet demoCache ["a"; "b"] (DEFAULTS "key") true.

Definition bypassEvents : list Event :=
  [ {| ev_task := 0; ev_elapsed := 5;
       ev_completion := GotResponse (Http 429 (Unreadable "")) |};
    {| ev_task := 0; ev_elapsed := 1000; ev_completion := TimerFired |};
    {| ev_task := 0; ev_elapsed := 7;
       ev_completion := GotResponse (Http 404 (Unreadable "")) |} ].

(** Default settings, except for the concurrency. *)
Definition withConcurrency (n : Z) : Settings :=
  {| apiKey := "key"; cacheTtlHours := 24; concurrency := n; thresholdDays := 365 |}.

(** Three channels with cached playlist ids, scanned with room for one
    detail fetch at a time, and with no room at all. *)
Definition handleCache : gmap string CacheEntry :=
  {[ cacheKey "a" := {| uploadsPlaylistId := Some "UUa"; lastUploadAt := None;
                         lastCheckedAt := 1 |};
     cacheKey "b" := {| uploadsPlaylistId := Some "UUb"; lastUploadAt := None;
                         lastCheckedAt := 1 |};
     cacheKey "c" := {| uploadsPlaylistId := Some "UUc"; lastUploadAt := None;
                         lastCheckedAt := 1 |} ]}.

Definition narrowScan : Scan :=
  fetchLastUploadDates 1700000000000 demoNet handleCache ["a"; "b"; "c"]
    (withConcurrency 1) false.

Definition starvedScan : Scan :=
  fetchLastUploadDates 1700000000000 demoNet handleCache ["a"; "b"; "c"]
    (withConcurrency 0) false.

Definition submitThree : list (Limiter.Op nat unit string) :=
  [Limiter.Submit; Limiter.Submit; Limiter.Submit].

Definition starvedLimiter : Limiter.State nat unit string :=
  default (Limiter.createLimiter 0) (Limiter.run 0%nat (Limiter.createLimiter 0) submitThree).

Definition narrowLimiter : Limiter.State nat unit string :=
  default (Limiter.createLimiter 1) (Limiter.run 0%nat (Limiter.createLimiter 1) submitThree).

(* ===================================================================== *)
(** ** One detail fetch per task *)
(* ===================================================================== *)

(** The outcome of a detail fetch for [c]. *)
Definition isDetailOf (c : string) (eff : Effect) : bool :=
  match eff with
  | DetailDone c' _ => bool_decide (c' = c)
  | _ => false
  end.

(** The task is past its [await fetchJsonWithRetry(url)]. *)
Definition hasOutcome (j : Limiter.Job Progress unit string) : bool :=
  match j with
  | Limiter.Waiting
  | Limiter.Running (Fetching _ _)
  | Limiter.Running (Sleeping _ _) => false
  | _ => true
  end.

(** Each task has logged the outcome of its detail fetch once it is past
    it, and not before. *)
Definition Once (s : Scan) : Prop :=
  ∀ i t job, tasks s !! i = Some t → Limiter.jobs (pool s) !! i = Some job →
    countEffects (isDetailOf (task_channelId t)) (log s) = if hasOutcome job then 1%nat else 0%nat.

(** The cards of a page show "a", "b" and "a" again; the detail fetch for
    "a" fails. *)
Definition distinctScan : Scan :=
  fetchLastUploadDates 1000 demoNet ∅ (uniqueIds ["a"; "b"; "a"]) (DEFAULTS "key") false.

(** Every successful detail fetch so far has left a cache entry with a
    playlist id that is not empty. *)
Definition Resolved (s : Scan) : Prop :=
  ∀ c data, DetailDone c (Returned (Some data)) ∈ log s →
    ∃ e pl, storage s !! cacheKey c = Some e ∧ uploadsPlaylistId e = Some pl ∧ pl ≠ "".

(** A later scan of "a" and "b" on what [demoScan] left, two days on and
    bypassing the cache. *)
Definition laterScan : Scan :=
  fetchLastUploadDates 172800000 demoNet (storage (endOf demoScan demoEvents)) ["a"; "b"]
    (DEFAULTS "key") true.


(* ===================================================================== *)
(** ** Channel cards: [channel_id_injector.js] and [dom.js] *)
(* ===================================================================== *)

(** [card.data], as far as the injector reads it: [data.channelId] and
    [data.navigationEndpoint?.browseEndpoint?.browseId]. *)
Record CardData := {
  data_channelId : option string;
  data_browseId : option string;
}.

(** What the scripts read of a [ytd-channel-renderer] element: the
    attribute [data-ytsc-channel-id], the [href] of each [a[href]] below
    it in document order and, in the page's world only, [card.data]. *)
Record Card := {
  card_stamp : option string;
  card_hrefs : list string;
  card_data : option CardData;
}.

(** The callback of the [forEach] in [stampChannelIds]: the card
    afterwards, and whether it was stamped. *)
Definition stampCard (card : Card) : Card * bool :=
  match card_data card with
  | None => (card, false)                                   (* if (!data) return; *)
  | Some data =>
      let id := if JsString.truthy (data_channelId data)    (* data.channelId || ...browseId *)
                then data_channelId data else data_browseId data in
      match id with
      | Some i =>
          if JsString.truthy id && JsString.startsWith "UC" i then
            ({| card_stamp := Some i; card_hrefs := card_hrefs card;
                card_data := card_data card |}, true)
          else (card, false)
      | None => (card, false)
      end
  end.

(** [stampChannelIds]: the cards afterwards, and whether "ytsc:ids-ready"
    is dispatched. *)
Definition stampChannelIds (cards : list Card) : list Card * bool :=
  let stamped := stampCard <$> cards in
  (stamped.*1, (0 <? length (filter (λ r, r.2 = true) stamped))%nat).

(** [[\w-]] *)
Definition isWordChar (c : ascii) : bool :=
  let n := nat_of_ascii c in
  (((48 <=? n) && (n <=? 57)) || ((65 <=? n) && (n <=? 90)) ||
   ((97 <=? n) && (n <=? 122)) || (n =? 95) || (n =? 45))%nat.

(** The longest prefix matched by [[\w-]*]. *)
Fixpoint wordPrefix (s : string) : string :=
  match s with
  | String c s' => if isWordChar c then String c (wordPrefix s') else EmptyString
  | EmptyString => EmptyString
  end.

Fixpoint allWord (s : string) : bool :=
  match s with
  | String c s' => isWordChar c && allWord s'
  | EmptyString => true
  end.

Fixpoint stripPrefix (p s : string) : option string :=
  match p, s with
  | EmptyString, _ => Some s
  | String a p', String b s' => if decide (a = b) then stripPrefix p' s' else None
  | String _ _, EmptyString => None
  end.

(** [/\/channel\/(UC[\w-]+)/] matched at the start of [s]: the group. *)
Definition channelAt (s : string) : option string :=
  match stripPrefix "/channel/UC" s with
  | Some rest =>
      let w := wordPrefix rest in
      if String.eqb w "" then None else Some ("UC" +:+ w)
  | None => None
  end.

(** [href.match(/\/channel\/(UC[\w-]+)/)], then [m[1]]: the leftmost
    match. *)
Fixpoint channelInHref (href : string) : option string :=
  match channelAt href with
  | Some id => Some id
  | None =>
      match href with
      | String _ rest => channelInHref rest
      | EmptyString => None
      end
  end.

(** The [for] loop over [card.querySelectorAll("a[href]")]. *)
Fixpoint firstChannelLink (hrefs : list string) : option string :=
  match hrefs with
  | [] => None
  | href :: rest =>
      match channelInHref href with
      | Some id => Some id                                  (* if (m) return m[1]; *)
      | None => firstChannelLink rest
      end
  end.

Definition ytscExtractChannelId (card : Card) : option string :=
  match card_stamp card with
  | Some id =>
      if JsString.startsWith "UC" id then Some id           (* id?.startsWith("UC") *)
      else firstChannelLink (card_hrefs card)
  | None => firstChannelLink (card_hrefs card)
  end.

(* ===================================================================== *)
(** ** Badges: [render.js] and [dom.js] *)
(* ===================================================================== *)

(** [Number.MAX_SAFE_INTEGER]: the whole numbers up to it are numbers of
    JavaScript, and for them [Math.floor(days / 30)],
    [Math.floor(days / 365)] and [days % 365] are the quotients and the
    remainder of integer division. *)
Definition MAX_SAFE_INTEGER : Z := 2 ^ 53 - 1.

(** [days] is a whole number of magnitude at most [MAX_SAFE_INTEGER], as
    [daysAgo] gives. *)
Definition ytscFormatDaysAgo (days : Z) : string :=
  if days =? 0 then "Last upload: today"
  else if days =? 1 then "Last upload: yesterday"
  else if days <? 30 then "Last upload: " +:+ pretty days +:+ " days ago"
  else if days <? 365 then
    let months := days `div` 30 in                          (* Math.floor(days / 30) *)
    "Last upload: " +:+ pretty months +:+ " month" +:+
      (if months =? 1 then "" else "s") +:+ " ago"
  else
    let years := days `div` 365 in
    let remMonths := (days `mod` 365) `div` 30 in
    if 0 <? remMonths then
      "Last upload: " +:+ pretty years +:+ "y " +:+ pretty remMonths +:+ "mo ago"
    else
      "Last upload: " +:+ pretty years +:+ " year" +:+
        (if years =? 1 then "" else "s") +:+ " ago".

(** The strings of [status]. *)
Definition statusName (st : Status) : string :=
  match st with
  | ok => "ok"
  | no_uploads => "no_uploads"
  | api_error => "api_error"
  | quota_exceeded => "quota_exceeded"
  end.

(** The [info] objects handed to [ytscAttachBadge]: [{ status, daysAgo,
    thresholdDays, error? }]. *)
Record Info := {
  info_status : string;
  info_daysAgo : option Z;
  info_thresholdDays : option Z;
  info_error : option string;
}.

(** A result entry as [info]. *)
Definition infoOf (r : ResultEntry) : Info :=
  {| info_status := statusName (statusOf r);
     info_daysAgo := daysAgoOf r;
     info_thresholdDays := Some (thresholdOf r);
     info_error := errorOf r |}.

Definition loadingInfo : Info :=              (* { status: "loading" } *)
  {| info_status := "loading"; info_daysAgo := None; info_thresholdDays := None;
     info_error := None |}.

(** The badge element built: the class added to "ytsc-badge", its text (a
    string literal stands for its UTF-8 bytes), its title if one is set,
    and whether it gets the click handler that asks for a retry. *)
Record Badge := {
  badge_class : string;
  badge_text : string;
  badge_title : option string;
  badge_retry : bool;
}.

(** [a > b] where [b] may be [undefined] *)
Definition exceeds (a : Z) (b : option Z) : bool :=
  match b with
  | Some b => b <? a
  | None => false
  end.

Definition ytscAttachBadge (info : Info) : Badge :=
  let status := info_status info in
  if String.eqb status "loading" then
    {| badge_class := "ytsc-badge--loading"; badge_text := "Checking…";
       badge_title := None; badge_retry := false |}
  else if String.eqb status "api_error" then
    {| badge_class := "ytsc-badge--error"; badge_text := "API error – click to retry";
       badge_title := Some (if JsString.truthy (info_error info)      (* info.error || "" *)
                            then default "" (info_error info) else "");
       badge_retry := true |}
  else if String.eqb status "quota_exceeded" then
    {| badge_class := "ytsc-badge--error"; badge_text := "Quota exceeded – try tomorrow";
       badge_title := None; badge_retry := false |}
  else if String.eqb status "no_uploads" then
    {| badge_class := "ytsc-badge--warning"; badge_text := "No uploads found";
       badge_title := None; badge_retry := false |}
  else if String.eqb status "unsupported" then
    {| badge_class := "ytsc-badge--unsupported"; badge_text := "Handle-only (V2)";
       badge_title := Some "Channel ID resolution for @handle URLs coming in V2";
       badge_retry := false |}
  else
    match String.eqb status "ok", info_daysAgo info with
    | true, Some days =>                       (* status === "ok" && daysAgo != null *)
        let inactive := exceeds days (info_thresholdDays info) in
        {| badge_class := if inactive then "ytsc-badge--inactive" else "ytsc-badge--active";
           badge_text := ytscFormatDaysAgo days;
           badge_title := if inactive then Some "Inactive beyond threshold" else None;
           badge_retry := false |}
    | _, _ =>
        {| badge_class := "ytsc-badge--warning"; badge_text := "Unknown";
           badge_title := None; badge_retry := false |}
    end.

(* ===================================================================== *)
(** ** The summaries: [service_worker.js] and [content_script.js] *)
(* ===================================================================== *)

(** [r.daysAgo != null && r.daysAgo > r.thresholdDays] *)
Definition isInactive (r : ResultEntry) : bool :=
  match daysAgoOf r with
  | Some days => thresholdOf r <? days
  | None => false
  end.

(** [lastScanSummary] *)
Record ScanSummary := {
  sum_time : Z;
  sum_total : nat;
  sum_inactive : nat;
}.

(** The summary the service worker stores after [fetchLastUploadDates]
    has returned [result]. *)
Definition scanSummary (now : Z) (result : gmap string ResultEntry) : ScanSummary :=
  let own := map_to_list (ownProperties result) in
  {| sum_time := now;
     sum_total := length own.*1;                                       (* Object.keys(result) *)
     sum_inactive := length (filter (λ r, isInactive r = true) own.*2) (* Object.values(result) *)
  |}.

(** A plain object whose keys are not array indices, as its entries in
    insertion order; [o[k] = v]. *)
Definition objSet {A} (o : list (string * A)) (k : string) (v : A) : list (string * A) :=
  if decide (k ∈ o.*1) then (λ kv, if decide (kv.1 = k) then (k, v) else kv) <$> o
  else o ++ [(k, v)].

(** The variables [channelIds], [cardById] and [unstampedCards] of the
    content script's [scan]; a card is named by its place in [cards]. *)
Record Collected := {
  col_channelIds : list string;
  col_cardById : list (string * nat);
  col_unstamped : list nat;
}.

(** The body of [for (const card of cards)]. *)
Definition collectCard (acc : Collected) (card : nat * Card) : Collected :=
  if JsString.truthy (ytscExtractChannelId card.2) then        (* if (channelId) *)
    let channelId := default "" (ytscExtractChannelId card.2) in
    {| col_channelIds := col_channelIds acc ++ [channelId];
       col_cardById := objSet (col_cardById acc) channelId card.1;
       col_unstamped := col_unstamped acc |}
  else
    {| col_channelIds := col_channelIds acc;
       col_cardById := col_cardById acc;
       col_unstamped := col_unstamped acc ++ [card.1] |}.

Definition collect (cards : list Card) : Collected :=
  foldl collectCard {| col_channelIds := []; col_cardById := []; col_unstamped := [] |}
        (imap pair cards).

(** What rendering the results does: the badge attached to each card, the
    cards that get the "Consider Unsubscribing" button, and the count. *)
Record Rendered := {
  r_badges : list (nat * Badge);
  r_buttons : list nat;
  r_inactive : nat;
}.

(** The body of [for (const [channelId, card] of Object.entries(cardById))]. *)
Definition renderOne (result : gmap string ResultEntry) (acc : Rendered)
    (entry : string * nat) : Rendered :=
  match result !! entry.1 with
  | None => acc                                                 (* if (!info) continue; *)
  | Some info =>
      let badges := r_badges acc ++ [(entry.2, ytscAttachBadge (infoOf info))] in
      if isInactive info then
        {| r_badges := badges; r_buttons := r_buttons acc ++ [entry.2];
           r_inactive := S (r_inactive acc) |}
      else
        {| r_badges := badges; r_buttons := r_buttons acc; r_inactive := r_inactive acc |}
  end.

Definition render (cardById : list (string * nat)) (result : gmap string ResultEntry)
    : Rendered :=
  foldl (renderOne result) {| r_badges := []; r_buttons := []; r_inactive := 0 |} cardById.

(** Whether the entry of [k] in [result] counts as inactive. *)
Definition inactiveAt (result : gmap string ResultEntry) (k : string) : bool :=
  match result !! k with
  | Some r => isInactive r
  | None => false
  end.

(** [STATE.summary] after a scan of [cards] answered with [result]. *)
Definition contentSummary (cards : list Card) (result : gmap string ResultEntry)
    : nat * nat :=
  let c := collect cards in
  (length (uniqueIds (col_channelIds c)), r_inactive (render (col_cardById c) result)).

(** Three cards: one stamped by the injector, one with a channel link
    only, one with a handle link only; and a fourth showing the first
    channel again. *)
Definition demoCards : list Card :=
  [ {| card_stamp := Some "UCaaa"; card_hrefs := ["/@first"]; card_data := None |};
    {| card_stamp := None; card_hrefs := ["/@second"; "/channel/UCbbb/videos"];
       card_data := None |};
    {| card_stamp := None; card_hrefs := ["/@third"]; card_data := None |};
    {| card_stamp := Some "UCaaa"; card_hrefs := []; card_data := None |} ].

(** [channels.list] knows both channels; "UCaaa" last uploaded long ago. *)
Definition cardsNet (n : nat) : Response :=
  okWith [channelItem "UCaaa" (Some "UUaaa"); channelItem "UCbbb" (Some "UUbbb")].

Definition cardsScan : Scan :=
  fetchLastUploadDates 1700000000000 cardsNet ∅
    (uniqueIds (col_channelIds (collect demoCards))) (DEFAULTS "key") false.

Definition cardsEvents : list Event :=
  [ {| ev_task := 0; ev_elapsed := 5;
       ev_completion := GotResponse (okWith [videoItem (Some 1600000000000)]) |};
    {| ev_task := 1; ev_elapsed := 5;
       ev_completion := GotResponse (okWith [videoItem (Some 1699990000000)]) |};
    {| ev_task := 0; ev_elapsed := 1; ev_completion := StorageDone |};
    {| ev_task := 1; ev_elapsed := 1; ev_completion := StorageDone |} ].

(** A card as the page's world sees it before stamping. *)
Definition pageCard : Card :=
  {| card_stamp := None; card_hrefs := ["/@someone"];
     card_data := Some {| data_channelId := None; data_browseId := Some "UCxyz" |} |}.

(* ===================================================================== *)
(** ** [chrome.storage.local], the settings and the message handlers *)
(* ===================================================================== *)

(** A JavaScript number, as far as comparing it with whole numbers goes:
    a whole number, a number strictly between [lo] and [lo + 1], an
    infinity, or NaN. *)
Inductive JsNumber :=
  | NaN
  | Whole (z : Z)
  | Between (lo : Z)
  | PosInfinity
  | NegInfinity.

(** Truthiness: 0 and NaN are falsy. *)
Definition truthyNumber (n : JsNumber) : bool :=
  match n with
  | NaN => false
  | Whole z => negb (z =? 0)
  | _ => true
  end.

(** [n || d] *)
Definition orDefault (n d : JsNumber) : JsNumber := if truthyNumber n then n else d.

(** [Math.max(a, x)] and [Math.min(a, x)] for a whole number [a] *)
Definition mathMax (a : Z) (x : JsNumber) : JsNumber :=
  match x with
  | NaN => NaN
  | Whole z => Whole (a `max` z)
  | Between lo => if a <=? lo then Between lo else Whole a
  | PosInfinity => PosInfinity
  | NegInfinity => Whole a
  end.

Definition mathMin (a : Z) (x : JsNumber) : JsNumber :=
  match x with
  | NaN => NaN
  | Whole z => Whole (a `min` z)
  | Between lo => if a <=? lo then Whole a else Between lo
  | PosInfinity => Whole a
  | NegInfinity => NegInfinity
  end.

(** [lo <= n] and [n <= hi] for whole numbers [lo] and [hi]. *)
Definition atLeast (lo : Z) (n : JsNumber) : Prop :=
  match n with
  | Whole z => lo ≤ z
  | Between l => lo ≤ l
  | PosInfinity => True
  | _ => False
  end.

Definition atMost (hi : Z) (n : JsNumber) : Prop :=
  match n with
  | Whole z => z ≤ hi
  | Between l => l < hi
  | NegInfinity => True
  | _ => False
  end.

(** The values the extension keeps in [chrome.storage.local]: the API key,
    numbers, cache entries and the scan summary. *)
Inductive Stored :=
  | SString (s : string)
  | SNumber (n : JsNumber)
  | SEntry (e : CacheEntry)
  | SSummary (s : ScanSummary).

Abbreviation Local := (gmap string Stored).

(** The object [getSettings] returns: [{ ...DEFAULTS, ...stored }]. *)
Record StoredSettings := {
  st_apiKey : option Stored;
  st_thresholdDays : Stored;
  st_cacheTtlHours : Stored;
  st_concurrency : Stored;
}.

Definition getSettings (local : Local) : StoredSettings :=
  {| st_apiKey := local !! "apiKey";
     st_thresholdDays := default (SNumber (Whole 365)) (local !! "thresholdDays");
     st_cacheTtlHours := default (SNumber (Whole 24)) (local !! "cacheTtlHours");
     st_concurrency := default (SNumber (Whole 6)) (local !! "concurrency") |}.

Definition truthyStored (v : option Stored) : bool :=
  match v with
  | None => false
  | Some (SString s) => JsString.truthy (Some s)
  | Some (SNumber n) => truthyNumber n
  | Some (SEntry _) | Some (SSummary _) => true
  end.

(** The settings as [fetchLastUploadDates] is modelled to take them: a
    string key and whole numbers. *)
Definition asSettings (s : StoredSettings) : option Settings :=
  match st_apiKey s, st_cacheTtlHours s, st_concurrency s, st_thresholdDays s with
  | Some (SString key), SNumber (Whole ttl), SNumber (Whole conc), SNumber (Whole thr) =>
      Some {| apiKey := key; cacheTtlHours := ttl; concurrency := conc; thresholdDays := thr |}
  | _, _, _, _ => None
  end.

(** What [chrome.storage.local.get(cacheKeys)] gives the scan: a value
    that is not a cache entry has neither [lastCheckedAt] nor
    [uploadsPlaylistId], and reads like a missing one. *)
Definition cacheView (local : Local) : gmap string CacheEntry :=
  omap (λ v, match v with SEntry e => Some e | _ => None end) local.

(** The fields of the options page when "Save" is clicked:
    [$apiKey.value.trim()] and [Number($field.value)] for the others. *)
Record OptionsForm := {
  form_apiKey : string;
  form_thresholdDays : JsNumber;
  form_cacheTtlHours : JsNumber;
  form_concurrency : JsNumber;
}.

(** The click handler of [$save]. *)
Definition saveSettings (form : OptionsForm) (local : Local) : Local :=
  <["apiKey" := SString (form_apiKey form)]>
  (<["thresholdDays" :=
       SNumber (mathMax 1 (orDefault (form_thresholdDays form) (Whole 365)))]>
  (<["cacheTtlHours" :=
       SNumber (mathMax 1 (orDefault (form_cacheTtlHours form) (Whole 24)))]>
  (<["concurrency" :=
       SNumber (mathMax 1 (mathMin 20 (orDefault (form_concurrency form) (Whole 6))))]>
   local))).

(** The start of the SCAN_CHANNELS handler: it answers MISSING_API_KEY, or
    calls [fetchLastUploadDates]. *)
Inductive ScanStart :=
  | MissingApiKey
  | Started (s : Scan)
  | OtherSettings.          (* settings that are not a string and whole numbers *)

Definition scanChannels (now : Z) (net : nat → Response) (local : Local)
    (channelIds : list string) (bypassCache : bool) : ScanStart :=
  let settings := getSettings local in
  if negb (truthyStored (st_apiKey settings)) then MissingApiKey
  else
    match asSettings settings with
    | Some st => Started (fetchLastUploadDates now net (cacheView local) channelIds st bypassCache)
    | None => OtherSettings
    end.

(** The CLEAR_CACHE handler: the store afterwards and [cleared]. *)
Definition clearCache (all : Local) : Local * nat :=
  let cacheKeys := filter (λ k, JsString.startsWith "cache." k = true) (map_to_list all).*1 in
  (delete "lastScanSummary" (foldr delete all cacheKeys), length cacheKeys).

(** A store with a key, settings, two cache entries and a summary. *)
Definition demoLocal : Local :=
  {[ "apiKey" := SString "key";
     "cacheTtlHours" := SNumber (Whole 48);
     cacheKey "a" := SEntry {| uploadsPlaylistId := Some "UUa"; lastUploadAt := Some 5;
                               lastCheckedAt := 1699990000000 |};
     cacheKey "b" := SEntry {| uploadsPlaylistId := None; lastUploadAt := None;
                               lastCheckedAt := 1699990000000 |};
     "lastScanSummary" := SSummary {| sum_time := 7; sum_total := 2; sum_inactive := 0 |} ]}.

(** [Number] of a field gave a whole number or NaN. *)
Definition wholeOrNaN (n : JsNumber) : Prop :=
  match n with
  | NaN | Whole _ => True
  | _ => False
  end.

(** The form with a key, a concurrency of 50, an empty threshold field
    ([Number("")] is 0) and a TTL field that does not parse. *)
Definition demoForm : OptionsForm :=
  {| form_apiKey := "key"; form_thresholdDays := Whole 0;
     form_cacheTtlHours := NaN; form_concurrency := Whole 50 |}.


(* ===================================================================== *)
(** * Properties *)
(* ===================================================================== *)

(** ** Strings *)

Module JsStringFacts.
Import JsString.

Lemma startsWith_spec needle : ∀ s,
  startsWith needle s = true ↔ ∃ post, s = needle +:+ post.
Proof.
  induction needle as [|a n IH]; intros s; simpl.
  - split; [intros _; by exists s | done].
  - destruct s as [|b s].
    + split; [done | intros [post H]; discriminate].
    + case_decide as Hab.
      * subst b. rewrite IH. split; intros [post H]; exists post.
        -- by rewrite H.
        -- by injection H.
      * split; [done | intros [post H]; injection H; congruence].
Qed.

Lemma includes_spec needle : ∀ s,
  includes needle s = true ↔ occursIn needle s.
Proof.
  induction s as [|c s IH]; simpl.
  - rewrite orb_false_r, startsWith_spec. split.
    + intros [post H]. by exists "", post.
    + intros (pre & post & H). destruct pre; simpl in H.
      * by exists post.
      * discriminate.
  - rewrite orb_true_iff, startsWith_spec, IH. split.
    + intros [[post H] | (pre & post & H)].
      * by exists "", post.
      * exists (String c pre), post. simpl. by rewrite H.
    + intros (pre & post & H). destruct pre as [|c' pre]; simpl in H.
      * left. by exists post.
      * right. injection H as _ H. by exists pre, post.
Qed.

Lemma truthy_Some s : truthy (Some s) = true ↔ s ≠ "".
Proof.
  simpl. destruct (String.eqb_spec s ""); simpl; split; congruence.
Qed.
End JsStringFacts.

(** ** The retrying fetcher *)

Module RetryFacts.
Import Retry.

Lemma afterFetch_Backoff m a r :
  afterFetch m a r = Backoff ↔ rateLimited r ∧ (a < m)%nat.
Proof.
  unfold afterFetch, rateLimited. destruct r as [st body | msg].
  - destruct (r_ok st) eqn:Hok.
    + split.
      * destruct body; discriminate.
      * intros [(st' & body' & [= -> ->] & [-> | ->]) _]; discriminate.
    + unfold isRateLimit. split.
      * destruct ((st =? 403) || (st =? 429)) eqn:Hrl; simpl; [|discriminate].
        destruct (Nat.ltb_spec a m); [|discriminate]. intros _.
        split; [|done]. exists st, body. split; [done|]. lia.
      * intros [(st' & body' & [= <- <-] & Hst) Ham].
        assert ((st =? 403) || (st =? 429) = true) as -> by lia.
        apply Nat.ltb_lt in Ham. by rewrite Ham.
  - split; [discriminate | intros [(? & ? & ? & _) _]; discriminate].
Qed.

Lemma afterFetch_last r : afterFetch 3 3 r ≠ Backoff.
Proof. rewrite afterFetch_Backoff. lia. Qed.

Lemma fetchJsonWithRetry_cases net n :
  let run := fetchJsonWithRetry net n in
  ∃ k : nat, (k ≤ 3)%nat ∧
    sleeps run = take k [1000; 2000; 4000] ∧
    requests run = S k ∧
    (∀ j, (j < k)%nat → rateLimited (net (n + j)%nat)) ∧
    afterFetch 3 k (net (n + k)%nat) = Settle (outcome run).
Proof.
  unfold fetchJsonWithRetry, maxRetries, initialDelay. simpl.
  destruct (afterFetch 3 0 (net n)) eqn:H0.
  { exists 0%nat. rewrite Nat.add_0_r. simpl. repeat split; try done; lia. }
  destruct (afterFetch 3 1 (net (S n))) eqn:H1.
  { exists 1%nat. replace (n + 1)%nat with (S n) by lia.
    simpl. repeat split; try done; try lia.
    intros j Hj. assert (j = 0)%nat as -> by lia. rewrite Nat.add_0_r.
    by apply afterFetch_Backoff in H0 as [? _]. }
  destruct (afterFetch 3 2 (net (S (S n)))) eqn:H2.
  { exists 2%nat. replace (n + 2)%nat with (S (S n)) by lia.
    simpl. repeat split; try done; try lia.
    intros j Hj. assert (j = 0 ∨ j = 1)%nat as [-> | ->] by lia.
    - rewrite Nat.add_0_r. by apply afterFetch_Backoff in H0 as [? _].
    - replace (n + 1)%nat with (S n) by lia. by apply afterFetch_Backoff in H1 as [? _]. }
  destruct (afterFetch 3 3 (net (S (S (S n))))) eqn:H3.
  { exists 3%nat. replace (n + 3)%nat with (S (S (S n))) by lia.
    simpl. repeat split; try done; try lia.
    intros j Hj. assert (j = 0 ∨ j = 1 ∨ j = 2)%nat as [-> | [-> | ->]] by lia.
    - rewrite Nat.add_0_r. by apply afterFetch_Backoff in H0 as [? _].
    - replace (n + 1)%nat with (S n) by lia. by apply afterFetch_Backoff in H1 as [? _].
    - replace (n + 2)%nat with (S (S n)) by lia. by apply afterFetch_Backoff in H2 as [? _]. }
  by apply afterFetch_last in H3.
Qed.

(** The loop never falls through: a call returns a body or throws. *)
Lemma fetchJsonWithRetry_defined net n :
  outcome (fetchJsonWithRetry net n) ≠ Returned None.
Proof.
  destruct (fetchJsonWithRetry_cases net n) as (k & _ & _ & _ & _ & H).
  intros Hnone. rewrite Hnone in H. unfold afterFetch in H.
  destruct (net (n + k)%nat) as [st body|]; [|discriminate].
  destruct (r_ok st); [destruct body; discriminate|].
  destruct (isRateLimit st && (k <? 3)%nat); discriminate.
Qed.

Lemma requests_sleeps net n :
  requests (fetchJsonWithRetry net n) = S (length (sleeps (fetchJsonWithRetry net n))).
Proof.
  destruct (fetchJsonWithRetry_cases net n) as (k & Hk & -> & -> & _).
  rewrite length_take. simpl. lia.
Qed.
End RetryFacts.

(** C3: a retry follows only a 403 or 429 response; the call sleeps before
    each retry, 1000ms first and twice as long each time, and retries at
    most 3 times (at most 4 requests); three rate-limit responses followed
    by a success give the sleeps 1000, 2000, 4000 and return the success. *)
Theorem retry_backoff_schedule (net : nat → Response) (n : nat) :
  let run := Retry.fetchJsonWithRetry net n in
  (∃ k : nat, (k ≤ 3)%nat ∧
     Retry.sleeps run = take k [1000; 2000; 4000] ∧
     Retry.requests run = S k ∧
     (∀ j, (j < k)%nat → Retry.rateLimited (net (n + j)%nat)) ∧
     Retry.afterFetch 3 k (net (n + k)%nat) = Retry.Settle (Retry.outcome run)) ∧
  (∀ st b,
     (∀ j, (j < 3)%nat → Retry.rateLimited (net (n + j)%nat)) →
     net (n + 3)%nat = Http st (Parsed b) → r_ok st = true →
     run = {| Retry.outcome := Returned (Some b);
              Retry.sleeps := [1000; 2000; 4000];
              Retry.requests := 4 |}).
Proof.
  intros run. split; [apply RetryFacts.fetchJsonWithRetry_cases|].
  intros st b Hrl Hok Hst. subst run.
  unfold Retry.fetchJsonWithRetry, Retry.maxRetries, Retry.initialDelay. simpl.
  assert (∀ j, (j < 3)%nat → Retry.afterFetch 3 j (net (n + j)%nat) = Retry.Backoff) as Hb.
  { intros j Hj. apply RetryFacts.afterFetch_Backoff. auto. }
  pose proof (Hb 0%nat) as H0. pose proof (Hb 1%nat) as H1. pose proof (Hb 2%nat) as H2.
  rewrite Nat.add_0_r in H0.
  replace (n + 1)%nat with (S n) in H1 by lia.
  replace (n + 2)%nat with (S (S n)) in H2 by lia.
  replace (n + 3)%nat with (S (S (S n))) in Hok by lia.
  rewrite H0, H1, H2 by lia.
  unfold Retry.afterFetch. rewrite Hok, Hst. reflexivity.
Qed.

Lemma retry_backoff_schedule_witness :
  Retry.fetchJsonWithRetry rateLimitedThrice 0 =
  {| Retry.outcome := Returned (Some {| items := Some []; error_message := None |});
     Retry.sleeps := [1000; 2000; 4000];
     Retry.requests := 4 |}.
Proof.
  apply (proj2 (retry_backoff_schedule rateLimitedThrice 0) 200).
  - intros j Hj. unfold Retry.rateLimited.
    destruct j as [|[|[|j]]]; simpl; [eauto | eauto | eauto | lia].
  - reflexivity.
  - reflexivity.
Defined.

(** C4: when the response that ends the call is a non-success (not
    retried, or retries exhausted), the call throws an error that carries
    the response's status code and the server's message, and that is
    classified quota_exceeded exactly when the status is 403 and the
    server's message mentions quota, and api_error otherwise. *)
Theorem failure_classification (net : nat → Response) (n : nat) (st : Z) (body : BodyRead) :
  let run := Retry.fetchJsonWithRetry net n in
  Retry.lastResponse net n run = Http st body →
  r_ok st = false →
  ∃ e, Retry.outcome run = Thrown e ∧
       err_status e = Some st ∧
       (classify e = quota_exceeded ↔
          st = 403 ∧ ∃ m, Retry.apiMessage body = Some m ∧
                          JsString.occursIn "quota" (JsString.toLowerCase m)) ∧
       (classify e = api_error ↔
          ¬ (st = 403 ∧ ∃ m, Retry.apiMessage body = Some m ∧
                             JsString.occursIn "quota" (JsString.toLowerCase m))) ∧
       (∀ m, Retry.apiMessage body = Some m → m ≠ "" → message e = m) ∧
       (Retry.apiMessage body = None ∨ Retry.apiMessage body = Some "" →
        message e = "HTTP_" +:+ pretty st).
Proof.
  intros run Hlast Hok.
  destruct (RetryFacts.fetchJsonWithRetry_cases net n) as (k & Hk & Hs & _ & _ & Hset).
  fold run in Hs, Hset.
  unfold Retry.lastResponse in Hlast. rewrite Hs, length_take in Hlast.
  rewrite Nat.min_l in Hlast by (simpl; lia).
  rewrite Hlast in Hset. unfold Retry.afterFetch in Hset. rewrite Hok in Hset.
  destruct (Retry.isRateLimit st && (k <? 3)%nat); [discriminate|].
  injection Hset as Hset. exists (Retry.httpError st body). split; [done|].
  assert (classify (Retry.httpError st body) = quota_exceeded ↔
          st = 403 ∧ ∃ m, Retry.apiMessage body = Some m ∧
                          JsString.occursIn "quota" (JsString.toLowerCase m)) as Hq.
  { unfold classify, Retry.httpError. simpl.
    destruct (Z.eqb_spec st 403) as [-> | Hne]; simpl.
    - destruct (Retry.apiMessage body) as [m|].
      + destruct (JsString.includes "quota" (JsString.toLowerCase m)) eqn:Hinc.
        * apply JsStringFacts.includes_spec in Hinc. split; [|done].
          intros _. split; [done|]. by exists m.
        * split; [done|]. intros [_ (m' & [= <-] & Hocc)].
          apply JsStringFacts.includes_spec in Hocc. congruence.
      + split; [done|]. by intros [_ (m' & ? & _)].
    - split; [done|]. by intros [? _]. }
  split; [done|]. split; [done|]. split.
  { rewrite <- Hq. unfold classify. destruct (isQuota _); split; congruence. }
  split.
  - intros m Hm Hne. unfold Retry.httpError. simpl. rewrite Hm.
    apply JsStringFacts.truthy_Some in Hne. by rewrite Hne.
  - intros [Hm | Hm]; unfold Retry.httpError; simpl; by rewrite Hm.
Qed.

Lemma failure_classification_witness :
  ∃ e, Retry.outcome (Retry.fetchJsonWithRetry quotaExhausted 0) = Thrown e ∧
       err_status e = Some 403 ∧
       (classify e = quota_exceeded ↔
          403 = 403 ∧ ∃ m, Some "You have exceeded your Quota." = Some m ∧
                           JsString.occursIn "quota" (JsString.toLowerCase m)) ∧
       (classify e = api_error ↔
          ¬ (403 = 403 ∧ ∃ m, Some "You have exceeded your Quota." = Some m ∧
                              JsString.occursIn "quota" (JsString.toLowerCase m))) ∧
       (∀ m, Some "You have exceeded your Quota." = Some m → m ≠ "" → message e = m) ∧
       (Some "You have exceeded your Quota." = None ∨
        Some "You have exceeded your Quota." = Some "" →
        message e = "HTTP_" +:+ pretty 403).
Proof.
  apply (failure_classification quotaExhausted 0 403
           (Parsed {| items := None;
                      error_message := Some "You have exceeded your Quota." |}));
    reflexivity.
Defined.

(** ** The limiter *)

Lemma sum_list_with_insert {A} (f : A → nat) (l : list A) (i : nat) (x y : A) :
  l !! i = Some y →
  (sum_list_with f (<[i := x]> l) + f y = sum_list_with f l + f x)%nat.
Proof.
  revert i. induction l as [|a l IH]; intros [|i] H; simpl in *; try done.
  - injection H as ->. lia.
  - specialize (IH i H). lia.
Qed.

Module LimiterFacts.
Import Limiter.
Section Jobs.
Context {P V E : Type} (start : P).
Implicit Types s : State P V E.

Lemma createLimiter_wf c : wf (createLimiter (P:=P) (V:=V) (E:=E) c).
Proof.
  split; [|done]. split; [done|]. split; [by right|].
  exists 0%nat. split; [|done]. split; [done|].
  intros i j. simpl. by rewrite lookup_nil.
Qed.

Lemma inFlight_insert s i (j j' : Job P V E) c a q :
  jobs s !! i = Some j →
  (inFlight {| concurrency := c; active := a; queue := q; jobs := <[i := j']> (jobs s) |}
   + (if isRunning j then 1 else 0)
   = inFlight s + (if isRunning j' then 1 else 0))%nat.
Proof.
  intros H. unfold inFlight. simpl.
  by apply (sum_list_with_insert (λ j, if isRunning j then 1 else 0)%nat).
Qed.

(** [next] on a consistent state in which at most the head of the
    queue can be started. *)
Lemma next_wf s :
  consistent s →
  (∀ i rest, queue s = i :: rest → rest ≠ [] → concurrency s ≤ active s + 1) →
  wf (next start s).1.
Proof.
  intros (Hact & Hcap & k & [Hk Hpre] & Hq) Hroom. unfold next.
  destruct (queue s) as [|i rest] eqn:Hqs.
  { simpl. split; [|by rewrite Hqs]. split; [done|]. split; [done|].
    exists k. rewrite Hqs. done. }
  destruct (Z.leb_spec (concurrency s) (active s)) as [Hfull | Hfree]; simpl.
  { split; [|by rewrite Hqs]. split; [done|]. split; [done|].
    exists k. rewrite Hqs. done. }
  assert (k < length (jobs s))%nat as Hlt.
  { destruct (decide (k < length (jobs s))%nat); [done|].
    replace (length (jobs s) - k)%nat with 0%nat in Hq by lia. done. }
  assert (i = k ∧ rest = seq (S k) (length (jobs s) - S k)) as [-> ->].
  { replace (length (jobs s) - k)%nat with (S (length (jobs s) - S k)) in Hq by lia.
    simpl in Hq. by injection Hq. }
  destruct (lookup_lt_is_Some_2 (jobs s) k Hlt) as [j Hj].
  assert (isWaiting j = true) as Hw by (by apply (Hpre k j Hj)).
  split; [split; [|split]|]; simpl.
  - pose proof (inFlight_insert s k j (Running start) (concurrency s)
                  (active s + 1) (seq (S k) (length (jobs s) - S k)) Hj) as Hin.
    destruct j; try discriminate. simpl in Hin. lia.
  - left. lia.
  - exists (S k). rewrite length_insert. split; [|done].
    split; [simpl; rewrite length_insert; lia|].
    simpl. intros i j'. destruct (decide (i = k)) as [-> | Hne].
    + rewrite list_lookup_insert_eq by done. intros [= <-]. simpl. split; [done | lia].
    + rewrite list_lookup_insert_ne by done. intros Hi.
      rewrite (Hpre i j' Hi). lia.
  - intros Hrest. apply (Hroom k _ eq_refl Hrest).
Qed.

Lemma limit_wf s : wf s → wf (limit start s).1.
Proof.
  intros [(Hact & Hcap & k & [Hk Hpre] & Hq) Hfull]. unfold limit.
  apply next_wf.
  - split; [|split]; simpl.
    + rewrite Hact. unfold inFlight. simpl. rewrite sum_list_with_app. simpl. lia.
    + done.
    + exists k. split; [split|]; simpl.
      * rewrite length_app. simpl. lia.
      * intros i j Hi. apply lookup_app_Some in Hi as [Hi | [Hlen Hi]].
        -- apply (Hpre i j Hi).
        -- apply list_lookup_singleton_Some in Hi as [_ <-]. simpl. split; [lia | done].
      * rewrite length_app, Hq. simpl.
        replace (length (jobs s) + 1 - k)%nat with (length (jobs s) - k + 1)%nat by lia.
        rewrite seq_app. simpl. do 2 f_equal. lia.
  - simpl. intros i rest Heq Hrest.
    destruct (queue s) as [|i0 q0] eqn:Hqs.
    + simpl in Heq. injection Heq as _ <-. done.
    + specialize (Hfull ltac:(done)). lia.
Qed.

Lemma settle_wf s i o s' j :
  wf s → settle start i o s = Some (s', j) → wf s'.
Proof.
  intros [(Hact & Hcap & k & [Hk Hpre] & Hq) Hfull] Hset. unfold settle in Hset.
  destruct (jobs s !! i) as [[| p | |]|] eqn:Hi; try discriminate.
  injection Hset as Hset.
  pose proof (inFlight_insert s i (Running p) (settled o) (concurrency s)
                (active s - 1) (queue s) Hi) as Hin.
  assert (isRunning (settled o : Job P V E) = false) as Hns by (by destruct o).
  rewrite Hns in Hin. simpl in Hin.
  match type of Hset with next _ ?t = _ =>
    assert (wf (next start t).1) as Hwf end.
  { apply next_wf.
    - split; [|split]; simpl.
      + lia.
      + left. lia.
      + exists k. split; [split|]; simpl.
        * by rewrite length_insert.
        * intros i' j'. destruct (decide (i' = i)) as [-> | Hne].
          -- rewrite list_lookup_insert_eq by (by eapply lookup_lt_Some).
             intros [= <-]. rewrite <- (Hpre i _ Hi). by destruct o.
          -- rewrite list_lookup_insert_ne by done. apply Hpre.
        * by rewrite length_insert.
    - simpl. intros i' rest Heq _. rewrite Heq in Hfull.
      specialize (Hfull ltac:(done)). lia. }
  by rewrite Hset in Hwf.
Qed.

Lemma advance_wf s i p p0 :
  wf s → jobs s !! i = Some (Running p0) → wf (advance i p s).
Proof.
  intros [(Hact & Hcap & k & [Hk Hpre] & Hq) Hfull] Hi.
  pose proof (inFlight_insert s i (Running p0) (Running p) (concurrency s)
                (active s) (queue s) Hi) as Hin. simpl in Hin.
  split; [split; [|split]|]; simpl; try done.
  - unfold advance. lia.
  - exists k. split; [split|]; simpl.
    + by rewrite length_insert.
    + intros i' j'. destruct (decide (i' = i)) as [-> | Hne].
      * rewrite list_lookup_insert_eq by (by eapply lookup_lt_Some).
        intros [= <-]. by rewrite <- (Hpre i _ Hi).
      * rewrite list_lookup_insert_ne by done. apply Hpre.
    + by rewrite length_insert.
Qed.

Lemma apply_wf s op s' : wf s → apply start s op = Some s' → wf s'.
Proof.
  intros Hwf. destruct op as [| i o | i p]; simpl.
  - intros [= <-]. by apply limit_wf.
  - destruct (settle start i o s) as [[s1 j]|] eqn:Hs; [|done].
    simpl. intros [= <-]. by eapply settle_wf.
  - destruct (jobs s !! i) as [[| p0 | |]|] eqn:Hi; try done.
    intros [= <-]. by eapply advance_wf.
Qed.

Lemma run_wf ops : ∀ s s', wf s → run start s ops = Some s' → wf s'.
Proof.
  induction ops as [|op ops IH]; intros s s' Hwf; simpl.
  - by intros [= <-].
  - destruct (apply start s op) as [s1|] eqn:Hop; [|done].
    apply IH. by eapply apply_wf.
Qed.

Lemma next_concurrency s : concurrency (next start s).1 = concurrency s.
Proof. unfold next. destruct (queue s); [done|]. by destruct (_ <=? _). Qed.

Lemma apply_concurrency s op s' :
  apply start s op = Some s' → concurrency s' = concurrency s.
Proof.
  destruct op as [| i o | i p]; simpl.
  - intros [= <-]. unfold limit. by rewrite next_concurrency.
  - unfold settle. destruct (jobs s !! i) as [[| p0 | |]|]; try done.
    simpl. intros [= <-]. by rewrite next_concurrency.
  - destruct (jobs s !! i) as [[| p0 | |]|]; try done. by intros [= <-].
Qed.

Lemma run_concurrency ops : ∀ s s',
  run start s ops = Some s' → concurrency s' = concurrency s.
Proof.
  induction ops as [|op ops IH]; intros s s'; simpl.
  - by intros [= <-].
  - destruct (apply start s op) as [s1|] eqn:Hop; [|done].
    intros H. rewrite (IH _ _ H). by eapply apply_concurrency.
Qed.

(** At most [concurrency] jobs in flight. *)
Lemma wf_bound s : wf s → 0 ≤ concurrency s → Z.of_nat (inFlight s) ≤ concurrency s.
Proof. intros [(Hact & Hcap & _) _] Hc. lia. Qed.

(** The job that settles gets its own outcome, every other promise is
    left as it was, except that the head of the queue is started. *)
Lemma settle_effect s i o s' j :
  wf s → settle start i o s = Some (s', j) →
  j = head (queue s) ∧
  jobs s' !! i = Some (settled o) ∧
  ∀ i', i' ≠ i →
    jobs s' !! i' = if decide (j = Some i') then Some (Running start) else jobs s !! i'.
Proof.
  intros [(Hact & Hcap & k & [Hk Hpre] & Hq) Hfull] Hset. unfold settle in Hset.
  destruct (jobs s !! i) as [[| p | |]|] eqn:Hi; try discriminate.
  injection Hset as Hset. unfold next in Hset. simpl in Hset.
  pose proof (lookup_lt_Some _ _ _ Hi) as Hlen.
  destruct (queue s) as [|h rest] eqn:Hqs.
  { injection Hset as <- <-. simpl. split; [done|].
    split; [by rewrite list_lookup_insert_eq|].
    intros i' Hne. rewrite list_lookup_insert_ne by done.
    repeat case_decide; done. }
  specialize (Hfull ltac:(done)).
  assert (1 ≤ Z.of_nat (inFlight s)) as Hpos.
  { pose proof (inFlight_insert s i (Running p) (Waiting) 0 0 [] Hi) as Hin.
    simpl in Hin. lia. }
  destruct (Z.leb_spec (concurrency s) (active s - 1)); [lia|].
  injection Hset as <- <-. simpl. split; [done|].
  assert (h ≠ i) as Hhi.
  { intros ->. assert ((k ≤ i)%nat).
    { assert (i ∈ seq k (length (jobs s) - k)) as Hin by (rewrite <- Hq; left).
      apply elem_of_seq in Hin. lia. }
    apply (Hpre i _ Hi) in H0. done. }
  split.
  - rewrite list_lookup_insert_ne by done. by rewrite list_lookup_insert_eq.
  - intros i' Hne. case_decide as Hd.
    + injection Hd as ->. rewrite list_lookup_insert_eq; [done|].
      rewrite length_insert.
      assert (i' ∈ seq k (length (jobs s) - k)) as Hin by (rewrite <- Hq; left).
      apply elem_of_seq in Hin. lia.
    + rewrite list_lookup_insert_ne by congruence.
      by rewrite list_lookup_insert_ne.
Qed.
End Jobs.
End LimiterFacts.

(** ** One turn of the event loop *)

Lemma cacheKey_inj a b : cacheKey a = cacheKey b → a = b.
Proof. unfold cacheKey. cbn. intros H. by injection H. Qed.

Lemma lastDetail_app c l l' :
  lastDetail c (l ++ l') =
  match lastDetail c l' with Some o => Some o | None => lastDetail c l end.
Proof. unfold lastDetail. by rewrite omap_app, last_app. Qed.

Lemma lastDetail_In c l o :
  lastDetail c l = Some o → DetailDone c o ∈ l.
Proof.
  unfold lastDetail. intros H. apply last_Some_elem_of in H.
  apply list_elem_of_omap in H as (eff & Hin & Heff).
  destruct eff as [| | |c' o']; simpl in Heff; try done.
  case_decide; [|done]. by simplify_eq.
Qed.

Lemma lastDetail_None c l :
  (∀ o, DetailDone c o ∉ l) → lastDetail c l = None.
Proof.
  intros H. destruct (lastDetail c l) as [o|] eqn:Ho; [|done].
  apply lastDetail_In in Ho. by apply H in Ho.
Qed.

Section Turn.
Import Limiter.

Lemma launch_results j s : results (launch j s) = results s.
Proof. unfold launch. by destruct (j ≫= _). Qed.
Lemma launch_storage j s : storage (launch j s) = storage s.
Proof. unfold launch. by destruct (j ≫= _). Qed.
Lemma launch_tasks j s : tasks (launch j s) = tasks s.
Proof. unfold launch. by destruct (j ≫= _). Qed.
Lemma launch_threshold j s : threshold (launch j s) = threshold s.
Proof. unfold launch. by destruct (j ≫= _). Qed.
Lemma launch_clock j s : clock (launch j s) = clock s.
Proof. unfold launch. by destruct (j ≫= _). Qed.
Lemma launch_pool j s : pool (launch j s) = pool s.
Proof. unfold launch. by destruct (j ≫= _). Qed.

(** Starting a task logs at most its first request. *)
Lemma launch_log j s :
  ∃ l, log (launch j s) = log s ++ l ∧
       Forall (λ eff, ∃ t, t ∈ tasks s ∧ eff = Fetch (taskRequest t)) l.
Proof.
  unfold launch. destruct j as [j|]; simpl.
  - destruct (tasks s !! j) as [t|] eqn:Ht; simpl.
    + exists [Fetch (taskRequest t)]. split; [done|].
      apply Forall_singleton. exists t. split; [|done].
      by eapply list_elem_of_lookup_2.
    + exists []. by rewrite app_nil_r.
  - exists []. by rewrite app_nil_r.
Qed.

Lemma finish_inv i s s' :
  finish i s = Some s' →
  ∃ q j, settle started i (Fulfil tt) (pool s) = Some (q, j) ∧
         s' = launch j (setPool q s).
Proof.
  unfold finish. destruct (settle _ _ _ _) as [[q j]|]; [|done].
  intros [= <-]. by exists q, j.
Qed.

Lemma resume_Suspend t p c p' eff :
  resume t p c = Some (Suspend p' eff) →
  pendingWrite (Some (Running p')) ∧ (eff = Fetch (taskRequest t) ∨ ∃ d, eff = Sleep d).
Proof.
  unfold resume. destruct p as [a d | a d |], c as [r | |]; try done.
  - destruct (Retry.afterFetch _ _ _) as [[[data|]|e]|]; try done.
    intros [= <- <-]. split; [done|]. right. by exists d.
  - destruct (S a <=? Retry.maxRetries)%nat; [|done].
    intros [= <- <-]. split; [done|]. by left.
Qed.

Lemma resume_Caught t p c o e :
  resume t p c = Some (Caught o e) →
  o = Thrown e ∨ (o = Returned None ∧ e = undefinedData).
Proof.
  unfold resume. destruct p as [a d | a d |], c as [r | |]; try done.
  - destruct (Retry.afterFetch _ _ _) as [[[data|]|e']|]; try done.
    + intros [= <- <-]. by right.
    + intros [= <- <-]. by left.
  - destruct (S a <=? Retry.maxRetries)%nat; [done|].
    intros [= <- <-]. by right.
Qed.

Lemma resume_Finished t p c : resume t p c = Some Finished → p = Storing.
Proof.
  unfold resume. destruct p as [a d | a d |], c as [r | |]; try done.
  - by destruct (Retry.afterFetch _ _ _) as [[[data|]|e']|].
  - by destruct (S a <=? Retry.maxRetries)%nat.
Qed.
End Turn.

Section Preservation.
Import Limiter.

Ltac inOld := try (split; [reflexivity|]); apply elem_of_app; by left.
Ltac inNew := try (split; [reflexivity|]); apply elem_of_app; right; by left.

Lemma step_inv s ev s' :
  step s ev = Some s' →
  ∃ t p v,
    tasks s !! ev_task ev = Some t ∧
    jobs (pool s) !! ev_task ev = Some (Running p) ∧
    resume t p (ev_completion ev) = Some v ∧
    applyVerdict (ev_task ev) t v (setClock (clock s + Z.of_nat (ev_elapsed ev)) s) = Some s'.
Proof.
  unfold step. destruct (tasks s !! ev_task ev) as [t|]; [|done].
  destruct (jobs (pool s) !! ev_task ev) as [[| p | |]|]; try done.
  destruct (resume t p (ev_completion ev)) as [v|] eqn:Hv; [|done].
  intros H. by exists t, p, v.
Qed.

Lemma next_length (q : Pool) : length (jobs (next started q).1) = length (jobs q).
Proof.
  unfold next. destruct (queue q); [done|].
  destruct (_ <=? _); [done|]. simpl. by rewrite length_insert.
Qed.

Lemma settle_length (q q' : Pool) i o j :
  settle started i o q = Some (q', j) → length (jobs q') = length (jobs q).
Proof.
  unfold settle. destruct (jobs q !! i) as [[| p | |]|]; try done.
  intros [= H]. apply (f_equal fst) in H. simpl in H. subst q'.
  rewrite next_length. simpl. by rewrite length_insert.
Qed.

Lemma settle_concurrency (q q' : Pool) i o j :
  settle started i o q = Some (q', j) → concurrency q' = concurrency q.
Proof.
  unfold settle. destruct (jobs q !! i) as [[| p | |]|]; try done.
  intros [= H]. apply (f_equal fst) in H. simpl in H. subst q'.
  by rewrite LimiterFacts.next_concurrency.
Qed.

Lemma lastDetail_quiet c l : Forall quiet l → lastDetail c l = None.
Proof.
  intros H. apply lastDetail_None. intros o Hin.
  by apply (proj1 (Forall_forall _ _) H) in Hin.
Qed.

Lemma settledAs_frame s0 s s' c o :
  settledAs s0 s c o →
  results s' !! c = results s !! c →
  storage s' !! cacheKey c = storage s !! cacheKey c →
  clock s ≤ clock s' →
  settledAs s0 s' c o.
Proof.
  intros H Hr Hc Hclock. destruct o as [[[data|]|e]|]; simpl in *.
  - destruct H as (t & pl & Ht & Hres & Hsto). exists t, pl.
    rewrite Hr, Hc. split; [lia | done].
  - by rewrite Hr.
  - by rewrite Hr.
  - by rewrite Hr.
Qed.

(** Effects that write nothing. *)
Lemma accounted_quiet s0 s s' extra l :
  accounted s0 s extra →
  Forall quiet l → Forall (taskEffect s0) l →
  log s' = log s ++ l → results s' = results s → storage s' = storage s →
  clock s ≤ clock s' →
  accounted s0 s' (extra ++ l).
Proof.
  intros (Hlog & Heff & Hset & Hsto & Hlast) Hq Hl Hlog' Hr Hc Hclock.
  split; [by rewrite Hlog', Hlog, <- app_assoc|].
  split; [by apply Forall_app|].
  split; [|split].
  - intros c entry Hin. apply elem_of_app in Hin as [Hin | Hin].
    + destruct (Hset c entry Hin) as [data Hd]. exists data. inOld.
    + by apply (proj1 (Forall_forall _ _) Hq) in Hin.
  - intros k. rewrite Hc. destruct (Hsto k) as [H | (c & data & -> & Hd)]; [by left|].
    right. exists c, data. inOld.
  - intros c. rewrite lastDetail_app, (lastDetail_quiet c l Hq).
    eapply settledAs_frame; [apply Hlast | by rewrite Hr | by rewrite Hc | done].
Qed.

(** The catch block of a task. *)
Lemma accounted_caught s0 s s' extra c o e l :
  accounted s0 s extra →
  c ∈ channels s0 →
  o = Thrown e ∨ (o = Returned None ∧ e = undefinedData) →
  Forall quiet l → Forall (taskEffect s0) l →
  log s' = log s ++ DetailDone c o :: l →
  results s' = <[c := Failed (classify e) (message e) (threshold s0)]> (results s) →
  storage s' = storage s →
  clock s ≤ clock s' →
  accounted s0 s' (extra ++ DetailDone c o :: l).
Proof.
  intros (Hlog & Heff & Hset & Hsto & Hlast) Hc Ho Hq Hl Hlog' Hr Hs Hclock.
  split; [by rewrite Hlog', Hlog, <- app_assoc|].
  split; [apply Forall_app; split; [done|]; by apply Forall_cons|].
  split; [|split].
  - intros c' entry Hin. apply elem_of_app in Hin as [Hin | Hin].
    + destruct (Hset c' entry Hin) as [data Hd]. exists data. inOld.
    + apply elem_of_cons in Hin as [Hin | Hin]; [done|].
      by apply (proj1 (Forall_forall _ _) Hq) in Hin.
  - intros k. rewrite Hs. destruct (Hsto k) as [H | (c' & data & -> & Hd)]; [by left|].
    right. exists c', data. inOld.
  - intros c'. rewrite lastDetail_app.
    change (DetailDone c o :: l) with ([DetailDone c o] ++ l).
    rewrite lastDetail_app, (lastDetail_quiet c' l Hq).
    unfold lastDetail at 1. simpl. case_decide as Hcc; simpl.
    + subst c'. destruct Ho as [-> | [-> ->]]; simpl; rewrite Hr;
        by rewrite lookup_insert_eq.
    + eapply settledAs_frame; [apply Hlast | | by rewrite Hs | done].
      rewrite Hr. by rewrite lookup_insert_ne.
Qed.

(** The success path of a task. *)
Lemma accounted_fetched s0 s s' extra c data pl :
  accounted s0 s extra →
  c ∈ channels s0 →
  clock s0 ≤ clock s' → clock s ≤ clock s' →
  let last := extractLastUpload data in
  let entry := {| uploadsPlaylistId := Some pl; lastUploadAt := last;
                  lastCheckedAt := clock s' |} in
  log s' = log s ++ [DetailDone c (Returned (Some data)); CacheSet c entry] →
  results s' = <[c := Dated last (daysAgo (clock s') last) (threshold s0) (uploadStatus last)]>
                 (results s) →
  storage s' = <[cacheKey c := entry]> (storage s) →
  accounted s0 s' (extra ++ [DetailDone c (Returned (Some data)); CacheSet c entry]).
Proof.
  intros (Hlog & Heff & Hset & Hsto & Hlast) Hc Hclock0 Hclock last entry Hlog' Hr Hs.
  split; [by rewrite Hlog', Hlog, <- app_assoc|].
  split; [apply Forall_app; split; [done|]; by repeat apply Forall_cons_2|].
  split; [|split].
  - intros c' entry' Hin. apply elem_of_app in Hin as [Hin | Hin].
    + destruct (Hset c' entry' Hin) as [data' Hd]. exists data'. inOld.
    + apply elem_of_cons in Hin as [Hin | Hin]; [done|].
      apply list_elem_of_singleton in Hin. injection Hin as -> ->.
      exists data. inNew.
  - intros k. rewrite Hs. destruct (decide (k = cacheKey c)) as [-> | Hne].
    + right. exists c, data. inNew.
    + rewrite lookup_insert_ne by done.
      destruct (Hsto k) as [H | (c' & data' & -> & Hd)]; [by left|].
      right. exists c', data'. inOld.
  - intros c'. rewrite lastDetail_app.
    unfold lastDetail at 1. simpl. case_decide as Hcc; simpl.
    + subst c'. exists (clock s'), pl. rewrite Hr, Hs.
      rewrite !lookup_insert_eq. split; [lia | done].
    + eapply settledAs_frame; [apply Hlast | | | done].
      * rewrite Hr. by rewrite lookup_insert_ne.
      * rewrite Hs. rewrite lookup_insert_ne; [done|].
        intros Heq. by apply cacheKey_inj in Heq.
Qed.

Lemma launched_effects s0 s l :
  tasks s = tasks s0 →
  Forall (λ eff, ∃ t, t ∈ tasks s ∧ eff = Fetch (taskRequest t)) l →
  Forall quiet l ∧ Forall (taskEffect s0) l.
Proof.
  intros Ht Hl. split; eapply Forall_impl; try apply Hl.
  - by intros eff (t & _ & ->).
  - intros eff (t & Hin & ->). simpl. unfold channels. rewrite <- Ht.
    apply list_elem_of_fmap. by exists t.
Qed.

(** Coverage after the limiter settles job [i]. *)
Lemma cover_settle (s : Scan) (q : Pool) i j (r : gmap string ResultEntry) t :
  wf (pool s) →
  settle started i (Fulfil tt) (pool s) = Some (q, j) →
  tasks s !! i = Some t →
  task_channelId t ∈ dom r →
  dom (results s) ⊆ dom r →
  (∀ i' t', tasks s !! i' = Some t' →
     pendingWrite (jobs (pool s) !! i') ∨ task_channelId t' ∈ dom (results s)) →
  ∀ i' t', tasks s !! i' = Some t' →
     pendingWrite (jobs q !! i') ∨ task_channelId t' ∈ dom r.
Proof.
  intros Hwf Hset Hti Hin Hsub Hcov i' t' Hi'.
  destruct (LimiterFacts.settle_effect started (pool s) i (Fulfil tt) q j Hwf Hset)
    as (_ & _ & Hother).
  destruct (decide (i' = i)) as [-> | Hne].
  - right. by simplify_eq.
  - rewrite (Hother i' Hne). case_decide; [by left|].
    destruct (Hcov i' t' Hi') as [Hp | Hd]; [by left | right; by apply Hsub].
Qed.

Lemma step_Inv s0 s ev s' : Inv s0 s → step s ev = Some s' → Inv s0 s'.
Proof.
  intros [Ht Hth Hclk Hwf Hconc Hlen Hcov [extra Hacc]] Hstep.
  apply step_inv in Hstep as (t & p & v & Hti & Hji & Hres & Happ).
  set (i := ev_task ev) in *.
  assert (task_channelId t ∈ channels s0) as Hchan.
  { unfold channels. rewrite <- Ht. apply list_elem_of_fmap. exists t.
    split; [done|]. by eapply list_elem_of_lookup_2. }
  pose proof (Nat2Z.is_nonneg (ev_elapsed ev)) as Hel.
  destruct v as [p' eff | data | o e |]; simpl in Happ.
  - (* the task awaits again *)
    injection Happ as <-. apply resume_Suspend in Hres as [Hpend Heff].
    constructor; simpl; try done.
    + lia.
    + by eapply LimiterFacts.advance_wf.
    + by rewrite length_insert.
    + intros i' t' Hi'. destruct (decide (i' = i)) as [-> | Hne].
      * left. rewrite list_lookup_insert_eq; [done | by eapply lookup_lt_Some].
      * rewrite list_lookup_insert_ne by done. by apply Hcov.
    + exists (extra ++ [eff]). apply (accounted_quiet s0 s); simpl; try done; try lia.
      * apply Forall_singleton. by destruct Heff as [-> | [d ->]].
      * apply Forall_singleton. by destruct Heff as [-> | [d ->]].
  - (* the fetch succeeded *)
    injection Happ as <-.
    constructor; simpl; try done.
    + lia.
    + by eapply LimiterFacts.advance_wf.
    + by rewrite length_insert.
    + intros i' t' Hi'. destruct (decide (i' = i)) as [-> | Hne].
      * right. simplify_eq. apply elem_of_dom. rewrite lookup_insert_eq. eauto.
      * rewrite list_lookup_insert_ne by done.
        destruct (Hcov i' t' Hi') as [H | H]; [by left|].
        right. by apply dom_insert_subseteq.
    + eexists. apply (accounted_fetched s0 s); simpl; try done; try lia.
      * by rewrite <- app_assoc.
      * by rewrite Hth.
  - (* the fetch failed *)
    unfold taskFailed in Happ. apply finish_inv in Happ as (q & j & Hset & ->).
    simpl in Hset.
    match goal with |- Inv _ (launch j ?s2) =>
      destruct (launch_log j s2) as (l & Hl & Hfor) end.
    simpl in Hl, Hfor.
    destruct (launched_effects s0 s l Ht Hfor) as [Hquiet Htask].
    constructor; rewrite ?launch_tasks, ?launch_threshold, ?launch_clock,
      ?launch_pool, ?launch_results; simpl; try done.
    + lia.
    + by eapply LimiterFacts.settle_wf.
    + by rewrite (settle_concurrency _ _ _ _ _ Hset).
    + by rewrite (settle_length _ _ _ _ _ Hset).
    + apply (cover_settle s q i j _ t); try done.
      * apply elem_of_dom. rewrite lookup_insert_eq. eauto.
      * apply dom_insert_subseteq.
    + exists (extra ++ DetailDone (task_channelId t) o :: l).
      apply (accounted_caught s0 s _ _ _ _ e); try done.
      * by apply resume_Caught in Hres.
      * rewrite Hl. by rewrite <- app_assoc.
      * rewrite launch_results. simpl. by rewrite Hth.
      * by rewrite launch_storage.
      * rewrite launch_clock. simpl. lia.
  - (* the task returns *)
    apply finish_inv in Happ as (q & j & Hset & ->). simpl in Hset.
    apply resume_Finished in Hres as ->.
    match goal with |- Inv _ (launch j ?s2) =>
      destruct (launch_log j s2) as (l & Hl & Hfor) end.
    simpl in Hl, Hfor.
    destruct (launched_effects s0 s l Ht Hfor) as [Hquiet Htask].
    constructor; rewrite ?launch_tasks, ?launch_threshold, ?launch_clock,
      ?launch_pool, ?launch_results; simpl; try done.
    + lia.
    + by eapply LimiterFacts.settle_wf.
    + by rewrite (settle_concurrency _ _ _ _ _ Hset).
    + by rewrite (settle_length _ _ _ _ _ Hset).
    + apply (cover_settle s q i j _ t); try done.
      destruct (Hcov i t Hti) as [H | H]; [|done].
      rewrite Hji in H. done.
    + exists (extra ++ l).
      apply (accounted_quiet s0 s); try done.
      * by rewrite launch_results.
      * by rewrite launch_storage.
      * rewrite launch_clock. simpl. lia.
Qed.

Lemma exec_Inv s0 evs : ∀ s s', Inv s0 s → exec s evs = Some s' → Inv s0 s'.
Proof.
  induction evs as [|ev evs IH]; intros s s' Hinv; simpl.
  - by intros [= <-].
  - destruct (step s ev) as [s1|] eqn:Hstep; [|done].
    apply IH. by eapply step_Inv.
Qed.
End Preservation.

(** ** Every scan returns *)

Lemma sum_list_with_pointwise {A} (f : A → nat) (l l' : list A) :
  length l' = length l →
  (∀ i x y, l !! i = Some x → l' !! i = Some y → (f y ≤ f x)%nat) →
  (sum_list_with f l' ≤ sum_list_with f l)%nat.
Proof.
  revert l'. induction l as [|a l IH]; intros [|b l'] Hlen H; simpl in *; try done.
  pose proof (H 0%nat a b eq_refl eq_refl).
  assert (sum_list_with f l' ≤ sum_list_with f l)%nat; [|lia].
  apply IH; [lia|]. intros i x y Hx Hy. by apply (H (S i)).
Qed.

Lemma sum_list_with_positive {A} (f : A → nat) (l : list A) :
  (0 < sum_list_with f l)%nat → ∃ i x, l !! i = Some x ∧ (0 < f x)%nat.
Proof.
  induction l as [|a l IH]; simpl; [lia|]. intros H.
  destruct (decide (0 < f a)%nat).
  - by exists 0%nat, a.
  - destruct IH as (i & x & Hi & Hx); [lia|]. by exists (S i), x.
Qed.

Lemma forallb_false {A} (f : A → bool) (l : list A) :
  forallb f l = false → ∃ i x, l !! i = Some x ∧ f x = false.
Proof.
  induction l as [|a l IH]; simpl; [done|].
  destruct (f a) eqn:Ha; simpl.
  - intros H. destruct (IH H) as (i & x & Hi & Hx). by exists (S i), x.
  - intros _. by exists 0%nat, a.
Qed.

Section Termination.
Import Limiter.

Lemma wf_head_waiting (q : Pool) h :
  wf q → head (queue q) = Some h → jobs q !! h = Some Waiting.
Proof.
  intros [(_ & _ & k & [Hk Hpre] & Hq) _] Hh. rewrite Hq in Hh.
  destruct (length (jobs q) - k)%nat as [|n] eqn:Hn; [done|].
  simpl in Hh. injection Hh as <-.
  destruct (lookup_lt_is_Some_2 (jobs q) k) as [job Hjob]; [lia|].
  rewrite Hjob. f_equal. pose proof (proj2 (Hpre k job Hjob) ltac:(lia)).
  by destruct job.
Qed.

Lemma settle_weight (q q' : Pool) i j :
  wf q → settle started i (Fulfil tt) q = Some (q', j) →
  (sum_list_with jobWeight (jobs q') < sum_list_with jobWeight (jobs q))%nat.
Proof.
  intros Hwf Hset.
  destruct (LimiterFacts.settle_effect started q i (Fulfil tt) q' j Hwf Hset)
    as (Hj & Hi & Hother).
  pose proof (settle_length _ _ _ _ _ Hset) as Hlen.
  unfold settle in Hset. destruct (jobs q !! i) as [[| p | |]|] eqn:Hqi; try done.
  clear Hset.
  (* put the old job back at [i] and compare pointwise *)
  pose proof (sum_list_with_insert jobWeight (jobs q') i (Running p) _ Hi) as Hins.
  assert (sum_list_with jobWeight (<[i := Running p]> (jobs q'))
          ≤ sum_list_with jobWeight (jobs q))%nat as Hle.
  { apply sum_list_with_pointwise; [by rewrite length_insert|].
    intros i' x y Hx Hy. destruct (decide (i' = i)) as [-> | Hne].
    - rewrite list_lookup_insert_eq in Hy by (rewrite Hlen; by eapply lookup_lt_Some).
      by simplify_eq.
    - rewrite list_lookup_insert_ne in Hy by done.
      rewrite (Hother i' Hne) in Hy. case_decide as Hd.
      + subst j. apply (wf_head_waiting q i' Hwf) in Hd.
        simplify_eq. simpl. lia.
      + by simplify_eq. }
  destruct p; simpl in *; lia.
Qed.

Lemma resume_weight t p c v :
  resume t p c = Some v →
  match v with
  | Suspend p' _ => (jobWeight (Running p') < jobWeight (Running p))%nat
  | Fetched _ => ∃ a d, p = Fetching a d
  | _ => True
  end.
Proof.
  unfold resume. destruct p as [a d | a d |], c as [r | |]; try done.
  - destruct (Retry.afterFetch _ _ _) as [[[data|]|e]|]; intros [= <-]; try done.
    + by exists a, d.
    + simpl. lia.
  - destruct (Nat.leb_spec (S a) Retry.maxRetries) as [Ha | Ha]; intros [= <-]; [|done].
    unfold Retry.maxRetries in Ha. simpl. lia.
  - by intros [= <-].
Qed.

Lemma finish_weight s0 s i s' : Inv s0 s → finish i s = Some s' → (weight s' < weight s)%nat.
Proof.
  intros Hinv Hfin. apply finish_inv in Hfin as (q & j & Hset & ->).
  unfold weight. rewrite launch_pool. simpl.
  eapply settle_weight; [apply (inv_pool _ _ Hinv) | done].
Qed.

(** Each turn of the event loop uses up some of the weight. *)
Lemma step_weight s0 s ev s' :
  Inv s0 s → step s ev = Some s' → (weight s' < weight s)%nat.
Proof.
  intros Hinv Hstep.
  apply step_inv in Hstep as (t & p & v & Hti & Hji & Hres & Happ).
  apply resume_weight in Hres.
  destruct v as [p' eff | data | o e |]; simpl in Happ.
  - injection Happ as <-. unfold weight. simpl.
    pose proof (sum_list_with_insert jobWeight _ _ (Running p') _ Hji). lia.
  - injection Happ as <-. destruct Hres as (a & d & ->). unfold weight. simpl.
    pose proof (sum_list_with_insert jobWeight _ _ (Running Storing) _ Hji) as H.
    simpl in H. lia.
  - unfold taskFailed in Happ. apply finish_inv in Happ as (q & j & Hset & ->).
    unfold weight. rewrite launch_pool. simpl. simpl in Hset.
    eapply settle_weight; [apply (inv_pool _ _ Hinv) | done].
  - apply finish_inv in Happ as (q & j & Hset & ->).
    unfold weight. rewrite launch_pool. simpl. simpl in Hset.
    eapply settle_weight; [apply (inv_pool _ _ Hinv) | done].
Qed.

Lemma exec_weight s0 evs : ∀ s s',
  Inv s0 s → exec s evs = Some s' → (length evs + weight s' ≤ weight s)%nat.
Proof.
  induction evs as [|ev evs IH]; intros s s' Hinv; simpl.
  - intros [= <-]. lia.
  - destruct (step s ev) as [s1|] eqn:Hstep; [|done]. intros Hex.
    pose proof (step_weight _ _ _ _ Hinv Hstep).
    pose proof (IH s1 s' (step_Inv _ _ _ _ Hinv Hstep) Hex). lia.
Qed.

Lemma weight_bound s : (weight s ≤ 10 * length (jobs (pool s)))%nat.
Proof.
  unfold weight. induction (jobs (pool s)) as [|j l IH]; simpl; [lia|].
  assert (jobWeight j ≤ 10)%nat; [|lia].
  destruct j as [|[a d | a d |]| |]; simpl; lia.
Qed.

(** A running task can always be resumed. *)
Lemma running_step s0 s i p :
  Inv s0 s → jobs (pool s) !! i = Some (Running p) → ∃ ev s', step s ev = Some s'.
Proof.
  intros Hinv Hji.
  destruct (lookup_lt_is_Some_2 (tasks s) i) as [t Hti].
  { rewrite <- (inv_len _ _ Hinv). by eapply lookup_lt_Some. }
  assert (∀ s1, pool s1 = pool s → ∃ s', finish i s1 = Some s') as Hfin.
  { intros s1 Hp. unfold finish, settle. rewrite Hp, Hji.
    destruct (next _ _) as [q j]. eauto. }
  destruct p as [a d | a d |].
  - exists {| ev_task := i; ev_elapsed := 0;
              ev_completion := GotResponse (NetworkError "") |}.
    unfold step. simpl. rewrite Hti, Hji. simpl. unfold taskFailed. by apply Hfin.
  - exists {| ev_task := i; ev_elapsed := 0; ev_completion := TimerFired |}.
    unfold step. simpl. rewrite Hti, Hji. simpl.
    destruct (a <=? 2)%nat; simpl; [eauto|].
    unfold taskFailed. by apply Hfin.
  - exists {| ev_task := i; ev_elapsed := 0; ev_completion := StorageDone |}.
    unfold step. simpl. rewrite Hti, Hji. simpl. by apply Hfin.
Qed.

(** With room for at least one task, a scan that has not returned can
    take a turn. *)
Lemma progress s0 s :
  Inv s0 s → 1 ≤ concurrency (pool s) → returned s = false →
  ∃ ev s', step s ev = Some s'.
Proof.
  intros Hinv Hconc Hret.
  destruct (decide (0 < inFlight (pool s))%nat) as [Hpos | Hzero].
  - apply sum_list_with_positive in Hpos as (i & job & Hi & Hjob).
    destruct job as [| p | |]; try (simpl in Hjob; lia).
    by eapply running_step.
  - exfalso. destruct (inv_pool _ _ Hinv) as [(Hact & _ & k & [Hk Hpre] & Hq) Hfull].
    unfold returned in Hret.
    apply forallb_false in Hret as (i & job & Hi & Hjob).
    destruct job as [| p | |]; simpl in Hjob; try done.
    + pose proof (proj1 (Hpre i _ Hi) eq_refl). pose proof (lookup_lt_Some _ _ _ Hi).
      assert (queue (pool s) ≠ []) as Hne.
      { rewrite Hq. destruct (length (jobs (pool s)) - k)%nat eqn:Hn; [lia | done]. }
      specialize (Hfull Hne). lia.
    + pose proof (LimiterFacts.inFlight_insert (pool s) i (Running p) Waiting 0 0 [] Hi) as H.
      simpl in H. lia.
Qed.
End Termination.

(** ** Step 1: the cache partition *)

Lemma loadCache_foldl now cached st b ids : ∀ R T,
  foldl (loadOne now cached st b) (R, T) ids =
  (foldl (λ R id, if cacheHit now cached st b id
                  then <[id := fromCache now cached st id]> R else R) R ids,
   T ++ (missOf cached <$> filter (λ id, cacheHit now cached st b id = false) ids)).
Proof.
  induction ids as [|id ids IH]; intros R T; simpl.
  - by rewrite app_nil_r.
  - unfold loadOne at 2. fold (cacheHit now cached st b id). simpl.
    rewrite filter_cons. destruct (cacheHit now cached st b id) eqn:Hhit.
    + rewrite IH. by rewrite decide_False by done.
    + rewrite IH. rewrite decide_True by done. simpl. by rewrite <- app_assoc.
Qed.

Lemma loadCache_toFetch now cached st b ids :
  (loadCache now cached st b ids).2 =
  missOf cached <$> filter (λ id, cacheHit now cached st b id = false) ids.
Proof. unfold loadCache. by rewrite loadCache_foldl. Qed.

Lemma loadCache_results now cached st b ids c :
  (loadCache now cached st b ids).1 !! c =
  if decide (c ∈ ids ∧ cacheHit now cached st b c = true)
  then Some (fromCache now cached st c) else None.
Proof.
  unfold loadCache. rewrite loadCache_foldl. simpl.
  assert (∀ R : gmap string ResultEntry,
            foldl (λ R id, if cacheHit now cached st b id
                               then <[id := fromCache now cached st id]> R else R) R ids !! c
               = if decide (c ∈ ids ∧ cacheHit now cached st b c = true)
                 then Some (fromCache now cached st c) else R !! c) as H.
  { induction ids as [|id ids IH]; intros R; simpl.
    - done.
    - rewrite IH. destruct (decide (c ∈ ids ∧ _)) as [[Hin Hhit] | Hno].
      + rewrite decide_True; [done|]. split; [by right | done].
      + destruct (decide (c = id)) as [-> | Hne].
        * destruct (cacheHit now cached st b id) eqn:Hhit.
          -- rewrite lookup_insert_eq. rewrite decide_True; [done|]. split; [by left | done].
          -- rewrite decide_False; [done|]. by intros [_ ?].
        * assert (R !! c = (if cacheHit now cached st b id
                            then <[id := fromCache now cached st id]> R else R) !! c) as <-.
          { destruct (cacheHit _ _ _ _ id); [by rewrite lookup_insert_ne | done]. }
          rewrite decide_False; [done|]. intros [Hin Hhit]. apply Hno.
          apply elem_of_cons in Hin as [-> | Hin]; done. }
  rewrite H. by rewrite lookup_empty.
Qed.

Lemma toFetch_channels now cached st b ids c :
  c ∈ channelId <$> (loadCache now cached st b ids).2 ↔
  c ∈ ids ∧ cacheHit now cached st b c = false.
Proof.
  rewrite loadCache_toFetch, <- list_fmap_compose.
  rewrite list_elem_of_fmap. split.
  - intros (id & -> & Hin). apply list_elem_of_filter in Hin as [Hhit Hin]. done.
  - intros [Hin Hhit]. exists c. split; [done|]. by apply list_elem_of_filter.
Qed.

Lemma needPlaylistId_sub toFetch : needPlaylistId toFetch ⊆ channelId <$> toFetch.
Proof.
  unfold needPlaylistId. intros c Hc.
  apply list_elem_of_fmap in Hc as (x & -> & Hx).
  apply list_elem_of_filter in Hx as [_ Hx]. apply list_elem_of_fmap. by exists x.
Qed.

(** ** Step 2: the batches *)

Lemma markFailed_lookup st e thr batch : ∀ R c,
  markFailed st e thr R batch !! c =
  if decide (c ∈ batch) then Some (Failed st e thr) else R !! c.
Proof.
  unfold markFailed. induction batch as [|b batch IH]; intros R c; simpl.
  - done.
  - rewrite IH. destruct (decide (c ∈ batch)) as [Hin | Hno].
    + rewrite decide_True; [done | by right].
    + destruct (decide (c = b)) as [-> | Hne].
      * rewrite lookup_insert_eq. rewrite decide_True; [done | by left].
      * rewrite lookup_insert_ne by done. rewrite decide_False; [done|].
        intros Hin. apply elem_of_cons in Hin as [? | ?]; done.
Qed.

Lemma classify_isError e : isError (classify e).
Proof. unfold classify, isError. destruct (isQuota e); auto. Qed.

Lemma callLog_effects batch need sleeps :
  batch ⊆ need → Forall (batchEffect need) (callLog (Channels batch) sleeps).
Proof.
  intros Hsub. induction sleeps as [|d sleeps IH]; simpl; [done|].
  by repeat apply Forall_cons_2.
Qed.

Lemma resolveBatch_marked net thr r0 need batch f :
  batch ⊆ need → batchMarked r0 need thr f →
  batchMarked r0 need thr (resolveBatch net thr batch f).
Proof.
  intros Hsub [Hres Hlog]. unfold resolveBatch.
  assert (Forall (batchEffect need)
            (f_log f ++ match Retry.requests (Retry.fetchJsonWithRetry net (f_sent f)) with
                        | O => []
                        | S _ => Fetch (Channels batch) ::
                                 callLog (Channels batch)
                                   (Retry.sleeps (Retry.fetchJsonWithRetry net (f_sent f)))
                        end)) as Hlog'.
  { apply Forall_app. split; [done|]. destruct (Retry.requests _); [done|].
    apply Forall_cons_2; [done|]. by apply callLog_effects. }
  assert (∀ e, ∀ c,
            markFailed (classify e) (message e) thr (f_results f) batch !! c = r0 !! c ∨
            (c ∈ need ∧ ∃ st msg,
               markFailed (classify e) (message e) thr (f_results f) batch !! c
               = Some (Failed st msg thr) ∧ isError st)) as Hfail.
  { intros e c. rewrite markFailed_lookup. case_decide as Hin; [|apply Hres].
    right. split; [by apply Hsub|]. eexists _, _. split; [done|]. apply classify_isError. }
  destruct (Retry.outcome _) as [[data|]|e]; split; simpl; try done; apply Hfail.
Qed.

Lemma batchLoop_marked net thr r0 need fuel : ∀ i f,
  batchMarked r0 need thr f → batchMarked r0 need thr (batchLoop net thr need fuel i f).
Proof.
  induction fuel as [|fuel IH]; intros i f Hf; simpl; [done|].
  destruct (i <? length need)%nat; [|done].
  apply IH. apply resolveBatch_marked; [|done].
  etrans; [apply subseteq_take | apply subseteq_drop].
Qed.

Lemma resolvePlaylistIds_marked net thr toFetch r0 :
  batchMarked r0 (needPlaylistId toFetch) thr (resolvePlaylistIds net thr toFetch r0).
Proof.
  unfold resolvePlaylistIds. apply batchLoop_marked.
  split; simpl; [|done]. intros c. by left.
Qed.

(** ** Step 3, synchronous part: the tasks handed to the limiter *)

Section Spawn.
Import Limiter.

Lemma next_jobs (q : Pool) i job :
  jobs (next started q).1 !! i = Some job →
  job = Running started ∨ jobs q !! i = Some job.
Proof.
  unfold next. destruct (queue q) as [|h rest]; [by right|].
  destruct (_ <=? _); [by right|]. simpl.
  destruct (decide (i = h)) as [-> | Hne].
  - intros H. apply list_lookup_insert_Some in H as [(_ & <- & _) | [? _]]; [by left | done].
  - rewrite list_lookup_insert_ne by done. by right.
Qed.

Lemma submit_Sync t s : Sync s → Sync (submit t s).
Proof.
  intros [Hwf Hlen Hjobs]. unfold submit.
  destruct (limit started (pool (addTask t s))) as [p j] eqn:Hlim. simpl in Hlim.
  assert (p = (limit started (pool s)).1) as -> by (by rewrite Hlim).
  constructor; rewrite ?launch_pool, ?launch_tasks; simpl.
  - by apply LimiterFacts.limit_wf.
  - unfold limit. rewrite next_length. simpl. rewrite !length_app, Hlen. done.
  - intros i job Hi. unfold limit in Hi. apply next_jobs in Hi as [-> | Hi]; [by right|].
    simpl in Hi. apply lookup_app_Some in Hi as [Hi | [_ Hi]]; [by eapply Hjobs|].
    apply list_lookup_singleton_Some in Hi as [_ <-]. by left.
Qed.

Lemma inherited_proto : "__proto__" ∈ JsObject.inherited.
Proof. unfold JsObject.inherited. do 10 right. left. Qed.

Lemma inResults_dom c (r : gmap string ResultEntry) : c ∈ dom r → inResults c r.
Proof. by left. Qed.

(** For an ordinary name, and while no entry has been made the prototype
    of [results], the [in] test finds own properties only. *)
Lemma inResults_ordinary c (r : gmap string ResultEntry) :
  ordinary c → r !! "__proto__" = None → inResults c r → c ∈ dom r.
Proof.
  intros Hc Hr [Hin | Hin]; [done|]. unfold inheritedBy in Hin. rewrite Hr in Hin. done.
Qed.

Lemma spawn_Sync M s c : Sync s → Sync (spawn M s c).
Proof.
  intros Hs. unfold spawn. case_decide; [done|].
  destruct (JsString.truthy _); [by apply submit_Sync|].
  destruct Hs. by constructor.
Qed.

Lemma Spawned_refl ids s : Spawned ids s s.
Proof.
  constructor; try done.
  - exists []. by rewrite app_nil_r.
  - intros c. by left.
  - exists []. by rewrite app_nil_r.
Qed.

Lemma Spawned_dom ids s s' c :
  Spawned ids s s' → c ∈ dom (results s) → c ∈ dom (results s').
Proof.
  intros Hsp Hc. apply elem_of_dom in Hc as [r Hr]. apply elem_of_dom.
  destruct (sp_results _ _ _ Hsp c) as [-> | (Hnone & _)]; [eauto | congruence].
Qed.

Lemma Spawned_trans ids s1 s2 s3 :
  Spawned ids s1 s2 → Spawned ids s2 s3 → Spawned ids s1 s3.
Proof.
  intros H12 H23.
  destruct (sp_tasks _ _ _ H12) as (new1 & Ht1 & Hn1).
  destruct (sp_tasks _ _ _ H23) as (new2 & Ht2 & Hn2).
  destruct (sp_log _ _ _ H12) as (l1 & Hl1 & Hf1).
  destruct (sp_log _ _ _ H23) as (l2 & Hl2 & Hf2).
  constructor.
  - by rewrite (sp_threshold _ _ _ H23), (sp_threshold _ _ _ H12).
  - by rewrite (sp_storage _ _ _ H23), (sp_storage _ _ _ H12).
  - by rewrite (sp_clock _ _ _ H23), (sp_clock _ _ _ H12).
  - by rewrite (sp_conc _ _ _ H23), (sp_conc _ _ _ H12).
  - exists (new1 ++ new2). split; [by rewrite Ht2, Ht1, <- app_assoc|].
    apply Forall_app. split; [done|].
    eapply Forall_impl; [apply Hn2|]. intros t [Hin Hdom]. split; [done|].
    intros Hc. apply Hdom. by eapply Spawned_dom.
  - intros c.
    destruct (sp_results _ _ _ H23 c) as [H3 | (H2 & Hin & H3)];
      destruct (sp_results _ _ _ H12 c) as [H1 | (H1 & Hin' & H2')].
    + left. congruence.
    + right. split; [done|]. split; [done|]. congruence.
    + right. split; [congruence|]. split; [done|].
      by rewrite H3, (sp_threshold _ _ _ H12).
    + congruence.
  - exists (l1 ++ l2). split; [by rewrite Hl2, Hl1, <- app_assoc|].
    apply Forall_app. split; [|done].
    eapply Forall_impl; [apply Hf1|]. intros eff (t & Hin & ->).
    exists t. split; [|done]. rewrite Ht2. apply elem_of_app. by left.
Qed.

Lemma spawn_Spawned ids M s c : channelId c ∈ ids → Spawned ids s (spawn M s c).
Proof.
  intros Hin. unfold spawn. case_decide as Hdom; [apply Spawned_refl|].
  assert (channelId c ∉ dom (results s)) as Hown.
  { intros Hc. by apply Hdom, inResults_dom. }
  destruct (JsString.truthy _).
  - unfold submit.
    destruct (limit started (pool (addTask _ s))) as [p j] eqn:Hlim. simpl in Hlim.
    match goal with |- Spawned _ _ (launch j ?s2) =>
      destruct (launch_log j s2) as (l & Hl & Hfor) end.
    constructor; rewrite ?launch_threshold, ?launch_storage, ?launch_clock,
      ?launch_pool, ?launch_tasks, ?launch_results; simpl; try done.
    + apply (f_equal fst) in Hlim. simpl in Hlim. subst p.
      unfold limit. by rewrite LimiterFacts.next_concurrency.
    + eexists. split; [done|]. by apply Forall_singleton.
    + intros c'. by left.
    + exists l. split; [done | apply Hfor].
  - constructor; simpl; try done.
    + exists []. by rewrite app_nil_r.
    + intros c'. destruct (decide (c' = channelId c)) as [-> | Hne].
      * right. rewrite lookup_insert_eq. split; [|done].
        by apply not_elem_of_dom.
      * left. by rewrite lookup_insert_ne.
    + exists []. by rewrite app_nil_r.
Qed.

Lemma covered_mono ids s s' c : Spawned ids s s' → covered s c → covered s' c.
Proof.
  intros Hsp [Hc | Hc]; [left; by eapply Spawned_dom|]. right.
  destruct (sp_tasks _ _ _ Hsp) as (new & Ht & _).
  unfold channels in *. rewrite Ht, fmap_app. apply elem_of_app. by left.
Qed.

Lemma spawn_slot M s c : results (spawn M s c) !! "__proto__" = results s !! "__proto__".
Proof.
  unfold spawn. case_decide as Hdom; [done|].
  destruct (JsString.truthy _).
  - unfold submit. destruct (limit started (pool (addTask _ s))) as [p j].
    by rewrite launch_results.
  - simpl. rewrite lookup_insert_ne; [done|]. intros Heq. apply Hdom. right.
    rewrite Heq. unfold inheritedBy. destruct (results s !! "__proto__").
    + apply elem_of_app. right. apply inherited_proto.
    + apply inherited_proto.
Qed.

Lemma spawnAll_slot M toFetch : ∀ s,
  results (foldl (spawn M) s toFetch) !! "__proto__" = results s !! "__proto__".
Proof.
  induction toFetch as [|x toFetch IH]; intros s; simpl; [done|].
  by rewrite IH, spawn_slot.
Qed.

Lemma spawn_covers M s c :
  ordinary (channelId c) → results s !! "__proto__" = None →
  covered (spawn M s c) (channelId c).
Proof.
  intros Hord Hslot.
  unfold spawn. case_decide as Hdom; [left; by apply inResults_ordinary|].
  destruct (JsString.truthy _).
  - right. unfold submit.
    destruct (limit started (pool (addTask _ s))) as [p j].
    unfold channels. rewrite launch_tasks. simpl. rewrite fmap_app.
    apply elem_of_app. right. simpl. by left.
  - left. simpl. apply elem_of_dom. rewrite lookup_insert_eq. eauto.
Qed.

Lemma spawnAll ids M toFetch : ∀ s,
  (∀ x, x ∈ toFetch → channelId x ∈ ids) →
  Spawned ids s (foldl (spawn M) s toFetch) ∧
  (Sync s → Sync (foldl (spawn M) s toFetch)) ∧
  (results s !! "__proto__" = None →
   ∀ x, x ∈ toFetch → ordinary (channelId x) →
        covered (foldl (spawn M) s toFetch) (channelId x)).
Proof.
  induction toFetch as [|x toFetch IH]; intros s Hids; simpl.
  - split; [apply Spawned_refl|]. split; [done|]. intros _ x Hx. by apply elem_of_nil in Hx.
  - destruct (IH (spawn M s x)) as (Hsp & Hsync & Hcov).
    { intros y Hy. apply Hids. by right. }
    assert (Spawned ids s (spawn M s x)) as Hsp1.
    { apply spawn_Spawned. apply Hids. by left. }
    split; [by eapply Spawned_trans|].
    split; [intros Hs; by apply Hsync, spawn_Sync|].
    intros Hslot y Hy Hord. apply elem_of_cons in Hy as [-> | Hy].
    + eapply covered_mono; [apply Hsp | by apply spawn_covers].
    + apply Hcov; [by rewrite spawn_slot | done | done].
Qed.

Lemma startScan_unfold now net storage ids st b :
  fetchLastUploadDates now net storage ids st b =
  let toFetch := (loadCache now storage st b ids).2 in
  let f := resolvePlaylistIds net (thresholdDays st) toFetch
             (loadCache now storage st b ids).1 in
  foldl (spawn (f_playlistIdMap f)) (beforeSpawn now storage st f) toFetch.
Proof.
  unfold fetchLastUploadDates. destruct (loadCache now storage st b ids) as [r toFetch].
  simpl. by destruct toFetch.
Qed.
End Spawn.

(** ** The scan as a whole *)

Section Scan.
Context (now : Z) (net : nat → Response) (cache : gmap string CacheEntry)
        (ids : list string) (st : Settings) (bypass : bool).

Let s0 := fetchLastUploadDates now net cache ids st bypass.
Let toFetch := (loadCache now cache st bypass ids).2.
Let front := resolvePlaylistIds net (thresholdDays st) toFetch
               (loadCache now cache st bypass ids).1.

Lemma toFetch_ids x : x ∈ toFetch → channelId x ∈ ids.
Proof.
  intros Hx. assert (channelId x ∈ channelId <$> toFetch) as H.
  { apply list_elem_of_fmap. by exists x. }
  by apply toFetch_channels in H as [? _].
Qed.

Lemma beforeSpawn_Sync : Sync (beforeSpawn now cache st front).
Proof.
  constructor; simpl; try done; try apply LimiterFacts.createLimiter_wf.
Qed.

Lemma startScan_Spawned : Spawned ids (beforeSpawn now cache st front) s0.
Proof.
  unfold s0. rewrite startScan_unfold.
  by apply (spawnAll ids), toFetch_ids.
Qed.

Lemma startScan_Sync : Sync s0.
Proof.
  unfold s0. rewrite startScan_unfold.
  apply (spawnAll ids); [apply toFetch_ids | apply beforeSpawn_Sync].
Qed.

Lemma startScan_threshold : threshold s0 = thresholdDays st.
Proof. by rewrite (sp_threshold _ _ _ startScan_Spawned). Qed.

Lemma startScan_storage : storage s0 = cache.
Proof. by rewrite (sp_storage _ _ _ startScan_Spawned). Qed.

Lemma startScan_clock : clock s0 = now.
Proof. by rewrite (sp_clock _ _ _ startScan_Spawned). Qed.

Lemma startScan_concurrency : Limiter.concurrency (pool s0) = concurrency st.
Proof. by rewrite (sp_conc _ _ _ startScan_Spawned). Qed.

Lemma startScan_channels c :
  c ∈ channels s0 → c ∈ ids ∧ c ∉ dom (f_results front).
Proof.
  destruct (sp_tasks _ _ _ startScan_Spawned) as (new & Ht & Hnew). simpl in Ht.
  unfold channels. rewrite Ht. intros Hc.
  apply list_elem_of_fmap in Hc as (t & -> & Hin).
  by apply (proj1 (Forall_forall _ _) Hnew) in Hin.
Qed.

(** What step 2 leaves in [results] is final for the synchronous part. *)
Lemma startScan_front c :
  c ∈ dom (f_results front) → results s0 !! c = f_results front !! c.
Proof.
  intros Hc. destruct (sp_results _ _ _ startScan_Spawned c) as [H | (Hnone & _)]; [done|].
  simpl in Hnone. by apply not_elem_of_dom in Hnone.
Qed.

Lemma front_results c :
  f_results front !! c = (loadCache now cache st bypass ids).1 !! c ∨
  (c ∈ ids ∧ cacheHit now cache st bypass c = false ∧
   ∃ e msg, f_results front !! c = Some (Failed e msg (thresholdDays st)) ∧ isError e).
Proof.
  destruct (resolvePlaylistIds_marked net (thresholdDays st) toFetch
              (loadCache now cache st bypass ids).1) as [Hres _].
  destruct (Hres c) as [H | (Hneed & Hfail)]; [by left|]. right.
  apply needPlaylistId_sub in Hneed. apply toFetch_channels in Hneed as [? ?]. done.
Qed.

(** A channel answered from the cache keeps that answer and gets no task. *)
Lemma startScan_hit c :
  c ∈ ids → cacheHit now cache st bypass c = true →
  results s0 !! c = Some (fromCache now cache st c) ∧ c ∉ channels s0.
Proof.
  intros Hin Hhit.
  assert (f_results front !! c = Some (fromCache now cache st c)) as Hf.
  { destruct (front_results c) as [-> | (_ & Hmiss & _)]; [|congruence].
    rewrite loadCache_results. by rewrite decide_True. }
  assert (c ∈ dom (f_results front)) as Hdom by (apply elem_of_dom; eauto).
  split; [by rewrite startScan_front|].
  intros Hc. by apply startScan_channels in Hc as [_ ?].
Qed.

(** No entry becomes the prototype of [results] unless "__proto__" is
    submitted. *)
Lemma front_slot : "__proto__" ∉ ids → f_results front !! "__proto__" = None.
Proof.
  intros Hno. destruct (front_results "__proto__") as [-> | (? & _)]; [|done].
  rewrite loadCache_results. rewrite decide_False; [done|]. by intros [? _].
Qed.

(** Only what was submitted gets a result or a task. *)
Lemma startScan_covered_ids c : covered s0 c → c ∈ ids.
Proof.
  intros [Hc | Hc]; [|by apply startScan_channels in Hc as [? _]].
  apply elem_of_dom in Hc as [r Hr].
  destruct (sp_results _ _ _ startScan_Spawned c) as [H | (_ & ? & _)]; [|done].
  simpl in H. rewrite Hr in H. symmetry in H.
  destruct (front_results c) as [Hl | (? & _)]; [|done].
  rewrite H, loadCache_results in Hl. case_decide as Hd; [|done]. by destruct Hd.
Qed.

(** An ordinary identifier gets a result or a task, as long as "__proto__"
    is not submitted with it. *)
Lemma startScan_covered c : "__proto__" ∉ ids → ordinary c → c ∈ ids → covered s0 c.
Proof.
  intros Hno Hord Hin. destruct (cacheHit now cache st bypass c) eqn:Hhit.
  - left. apply elem_of_dom. rewrite (proj1 (startScan_hit c Hin Hhit)). eauto.
  - unfold s0. rewrite startScan_unfold.
    assert (c ∈ channelId <$> toFetch) as Hc by (by apply toFetch_channels).
    apply list_elem_of_fmap in Hc as (x & -> & Hx).
    apply (spawnAll ids _ toFetch _ toFetch_ids); [|done|done].
    simpl. by apply front_slot.
Qed.

(** The requests of the synchronous part: batches of cache misses, and
    the first request of each started task. *)
Lemma startScan_log :
  Forall (λ eff, match eff with
                 | Fetch (Channels batch) =>
                     ∀ c, c ∈ batch → c ∈ ids ∧ cacheHit now cache st bypass c = false
                 | Fetch (PlaylistItems c _) => c ∈ channels s0
                 | Sleep _ => True
                 | _ => False
                 end) (log s0).
Proof.
  destruct (sp_log _ _ _ startScan_Spawned) as (l & -> & Hl). simpl.
  destruct (resolvePlaylistIds_marked net (thresholdDays st) toFetch
              (loadCache now cache st bypass ids).1) as [_ Hlog].
  apply Forall_app. split.
  - eapply Forall_impl; [apply Hlog|]. intros [[batch|c p]| | |]; simpl; try done.
    intros Hsub c Hc. apply Hsub, needPlaylistId_sub in Hc.
    by apply toFetch_channels in Hc.
  - eapply Forall_impl; [apply Hl|]. intros eff (t & Hin & ->). simpl.
    unfold channels. apply list_elem_of_fmap. by exists t.
Qed.

Lemma startScan_Inv : Inv s0 s0.
Proof.
  destruct startScan_Sync as [Hwf Hlen Hjobs].
  constructor; try done.
  - intros i t Hi. left.
    destruct (lookup_lt_is_Some_2 (Limiter.jobs (pool s0)) i) as [job Hjob].
    { rewrite Hlen. by eapply lookup_lt_Some. }
    rewrite Hjob. by destruct (Hjobs i job Hjob) as [-> | ->].
  - exists []. split; [by rewrite app_nil_r|]. split; [done|].
    split; [intros c e Hc; by apply elem_of_nil in Hc|].
    split; [by left | done].
Qed.

Lemma reach_Inv evs s : exec s0 evs = Some s → Inv s0 s.
Proof. apply exec_Inv, startScan_Inv. Qed.

(** The result of a channel without task does not change. *)
Lemma reach_frame evs s c :
  exec s0 evs = Some s → c ∉ channels s0 → results s !! c = results s0 !! c.
Proof.
  intros Hex Hc. destruct (inv_log _ _ (reach_Inv _ _ Hex)) as (extra & _ & Heff & _ & _ & Hlast).
  specialize (Hlast c). rewrite lastDetail_None in Hlast; [done|].
  intros o Hin. by apply (proj1 (Forall_forall _ _) Heff) in Hin.
Qed.

(** Entries of [results] are never removed. *)
Lemma reach_dom evs s c :
  exec s0 evs = Some s → c ∈ dom (results s0) → c ∈ dom (results s).
Proof.
  intros Hex Hc. destruct (inv_log _ _ (reach_Inv _ _ Hex)) as (extra & _ & _ & _ & _ & Hlast).
  specialize (Hlast c). apply elem_of_dom.
  destruct (lastDetail c extra) as [[[data|]|e]|]; simpl in Hlast.
  - destruct Hlast as (t & pl & _ & -> & _). eauto.
  - rewrite Hlast. eauto.
  - rewrite Hlast. eauto.
  - rewrite Hlast. by apply elem_of_dom.
Qed.

Lemma reach_dom_inv evs s c :
  exec s0 evs = Some s → c ∈ dom (results s) → covered s0 c.
Proof.
  intros Hex Hc.
  destruct (inv_log _ _ (reach_Inv _ _ Hex)) as (extra & _ & Heff & _ & _ & Hlast).
  specialize (Hlast c). destruct (lastDetail c extra) as [o|] eqn:Ho.
  - right. apply lastDetail_In in Ho.
    by apply (proj1 (Forall_forall _ _) Heff) in Ho.
  - left. simpl in Hlast. apply elem_of_dom. rewrite <- Hlast. by apply elem_of_dom.
Qed.

Lemma startScan_tasks_length : (length (tasks s0) ≤ length ids)%nat.
Proof.
  assert (∀ M l s, length (tasks (foldl (spawn M) s l)) ≤ length (tasks s) + length l)%nat as H.
  { intros M l. induction l as [|x l IH]; intros s; simpl; [lia|].
    etrans; [apply IH|]. unfold spawn. case_decide; [lia|].
    destruct (JsString.truthy _); simpl; [|lia].
    unfold submit. destruct (Limiter.limit _ _) as [p j]. rewrite launch_tasks. simpl.
    rewrite length_app. simpl. lia. }
  unfold s0. rewrite startScan_unfold. simpl. etrans; [apply H|]. simpl.
  rewrite loadCache_toFetch, length_fmap. apply length_filter.
Qed.
End Scan.

Lemma ordinary_ids (ids : list string) : Forall ordinary ids → "__proto__" ∉ ids.
Proof.
  intros Hord Hin. apply (proj1 (Forall_forall _ _) Hord) in Hin.
  apply Hin, inherited_proto.
Qed.

Lemma ordinary_covered now net cache ids st bypass c :
  Forall ordinary ids → c ∈ ids →
  covered (fetchLastUploadDates now net cache ids st bypass) c.
Proof.
  intros Hord Hin. apply startScan_covered; [by apply ordinary_ids | | done].
  by apply (proj1 (Forall_forall _ _) Hord).
Qed.

(** Channel ids start with "UC", which no name of [Object.prototype]
    does. *)
Lemma channel_id_ordinary c : JsString.startsWith "UC" c = true → ordinary c.
Proof.
  intros Huc Hin. unfold JsObject.inherited in Hin.
  repeat (apply elem_of_cons in Hin as [-> | Hin]; [done|]).
  by apply elem_of_nil in Hin.
Qed.

(** Coverage.  When no submitted identifier is the name of a property of
    [Object.prototype], the map a scan returns has an entry for exactly
    the submitted identifiers (each entry carries one status,
    [statusOf]); in any case it has no entry for an identifier that was
    not submitted, a scan takes at most ten turns of the event loop per
    identifier, and with room for at least one task it can always take a
    turn until it returns. *)
Theorem scan_total_coverage (now : Z) (net : nat → Response)
    (cache : gmap string CacheEntry) (ids : list string) (st : Settings) (bypass : bool)
    (evs : list Event) (s : Scan) :
  exec (fetchLastUploadDates now net cache ids st bypass) evs = Some s →
  (returned s = true → Forall ordinary ids → ∀ c, c ∈ ids ↔ is_Some (results s !! c)) ∧
  (∀ c, is_Some (results s !! c) → c ∈ ids) ∧
  (length evs ≤ 10 * length ids)%nat ∧
  (1 ≤ concurrency st → returned s = false → ∃ ev s', step s ev = Some s').
Proof.
  intros Hex. pose proof (reach_Inv _ _ _ _ _ _ _ _ Hex) as Hinv.
  assert (∀ c, is_Some (results s !! c) → c ∈ ids) as Hsub.
  { intros c Hc. apply elem_of_dom in Hc.
    eapply startScan_covered_ids. by eapply reach_dom_inv. }
  split; [|split; [done|split]].
  - intros Hret Hord c. split; [|apply Hsub]. rewrite <- elem_of_dom. intros Hin.
    destruct (ordinary_covered now net cache ids st bypass c Hord Hin) as [Hc | Hc].
    + by eapply reach_dom.
    + unfold channels in Hc. rewrite <- (inv_tasks _ _ Hinv) in Hc.
      apply list_elem_of_fmap in Hc as (t & -> & Ht).
      apply list_elem_of_lookup in Ht as [i Hi].
      destruct (inv_cover _ _ Hinv i t Hi) as [Hpend | Hdom]; [|done].
      exfalso. unfold returned in Hret.
      destruct (Limiter.jobs (pool s) !! i) as [job|] eqn:Hjob; [|done].
      assert (Limiter.isSettled job = true) as Hset.
      { eapply (proj1 (forallb_forall _ _) Hret). apply list_elem_of_In.
        by eapply list_elem_of_lookup_2. }
      by destruct job as [|[]| |].
  - pose proof (exec_weight _ _ _ _ (startScan_Inv now net cache ids st bypass) Hex) as Hw.
    pose proof (weight_bound (fetchLastUploadDates now net cache ids st bypass)) as Hb.
    rewrite (sync_len _ (startScan_Sync now net cache ids st bypass)) in Hb.
    pose proof (startScan_tasks_length now net cache ids st bypass). lia.
  - intros Hconc Hret. apply (progress _ _ Hinv); [|done].
    by rewrite (inv_conc _ _ Hinv), startScan_concurrency.
Qed.

Lemma scan_total_coverage_witness :
  (returned (endOf demoScan demoEvents) = true → Forall ordinary ["a"; "b"] →
   ∀ c, c ∈ ["a"; "b"] ↔ is_Some (results (endOf demoScan demoEvents) !! c)) ∧
  (∀ c, is_Some (results (endOf demoScan demoEvents) !! c) → c ∈ ["a"; "b"]) ∧
  (length demoEvents ≤ 10 * length ["a"; "b"])%nat ∧
  (1 ≤ concurrency (DEFAULTS "key") → returned (endOf demoScan demoEvents) = false →
   ∃ ev s', step (endOf demoScan demoEvents) ev = Some s').
Proof.
  apply (scan_total_coverage 1000 demoNet ∅ ["a"; "b"] (DEFAULTS "key") false demoEvents).
  vm_compute. reflexivity.
Defined.

(** C1: submitted alone, the identifier "constructor" gets no entry.
    [channels.list] is asked about it; the response does not list it, and
    since ["constructor" in playlistIdMap] holds it is not recorded as
    missing; in step 3 the test [channelId in results], meant to skip the
    channels that step 2 marked as failed, finds the property that
    [results] inherits from [Object.prototype] and skips it.  The scan
    returns the empty map. *)
Theorem inherited_name_dropped :
  "constructor" ∈ JsObject.inherited ∧
  log inheritedScan = [Fetch (Channels ["constructor"])] ∧
  tasks inheritedScan = [] ∧
  returned inheritedScan = true ∧
  results inheritedScan = ∅ ∧
  ¬ ∀ c, c ∈ ["constructor"] → is_Some (results inheritedScan !! c).
Proof.
  split; [by left|]. split; [vm_compute; reflexivity|]. split; [vm_compute; reflexivity|].
  split; [vm_compute; reflexivity|].
  assert (results inheritedScan = ∅) as Hres by (vm_compute; reflexivity).
  split; [done|]. intros Hall.
  destruct (Hall "constructor" ltac:(by left)) as [r Hr].
  by rewrite Hres, lookup_empty in Hr.
Qed.

(** C10: a scan of no identifiers returns at once, with an empty map and
    without any effect: no request, and no task that could make one. *)
Theorem empty_scan (now : Z) (net : nat → Response) (cache : gmap string CacheEntry)
    (st : Settings) (bypass : bool) :
  let s := fetchLastUploadDates now net cache [] st bypass in
  returned s = true ∧ results s = ∅ ∧ log s = [] ∧ tasks s = [] ∧
  ∀ ev, step s ev = None.
Proof. by repeat split. Qed.

(** [isFresh] on an entry that is there: the age test, unless
    [lastCheckedAt] is 0, which the guard [!cached?.lastCheckedAt] takes
    for a missing value. *)
Lemma isFresh_checked (now : Z) (e : CacheEntry) (ttl : Z) :
  lastCheckedAt e ≠ 0 →
  isFresh now (Some e) ttl = true ↔ now - lastCheckedAt e < ttl * 3600000.
Proof.
  intros Hne. unfold isFresh. destruct (Z.eqb_spec (lastCheckedAt e) 0); [done|].
  rewrite Z.ltb_lt. lia.
Qed.

Lemma isFresh_unchecked (now : Z) (e : CacheEntry) (ttl : Z) :
  lastCheckedAt e = 0 → isFresh now (Some e) ttl = false.
Proof. intros H. unfold isFresh. by rewrite H. Qed.

(** A channel with a fresh cache entry, in a scan that does not bypass the
    cache. *)
Lemma cached_answer (now : Z) (net : nat → Response)
    (cache : gmap string CacheEntry) (ids : list string) (st : Settings)
    (evs : list Event) (s : Scan) (c : string) (e : CacheEntry) :
  c ∈ ids →
  cache !! cacheKey c = Some e →
  lastCheckedAt e ≠ 0 →
  now - lastCheckedAt e < cacheTtlHours st * 3600000 →
  exec (fetchLastUploadDates now net cache ids st false) evs = Some s →
  results s !! c =
    Some (Dated (lastUploadAt e) (daysAgo now (lastUploadAt e)) (thresholdDays st)
            (uploadStatus (lastUploadAt e))) ∧
  Forall (λ eff, ¬ requestFor c eff) (log s).
Proof.
  intros Hin He Hchecked Hfresh Hex.
  assert (cacheHit now cache st false c = true) as Hhit.
  { unfold cacheHit, isFresh. rewrite He. simpl.
    destruct (Z.eqb_spec (lastCheckedAt e) 0); [done|]. apply Z.ltb_lt. lia. }
  destruct (startScan_hit now net cache ids st false c Hin Hhit) as [Hres Hchan].
  split.
  - rewrite (reach_frame _ _ _ _ _ _ _ _ _ Hex Hchan), Hres.
    unfold fromCache. by rewrite He.
  - destruct (inv_log _ _ (reach_Inv _ _ _ _ _ _ _ _ Hex)) as (extra & -> & Heff & _).
    apply Forall_app. split.
    + eapply Forall_impl; [apply (startScan_log now net cache ids st false)|].
      intros [[batch|c' p]| | |]; simpl; try tauto.
      * intros Hb Hc. destruct (Hb c Hc) as [_ Hmiss]. congruence.
      * intros Hc' ->. done.
    + eapply Forall_impl; [apply Heff|].
      intros [[batch|c' p]| | |]; simpl; try tauto. by intros Hc' ->.
Qed.

(** C5: with bypassCache = false, an identifier whose cache entry is
    fresh gets its result from that entry (status ok and
    daysAgo = floor((now - lastUploadAt) / 86400000) when lastUploadAt is
    set, status no_uploads when it is null), and no request is made for it. *)
Theorem fresh_cache_short_circuit (now : Z) (net : nat → Response)
    (cache : gmap string CacheEntry) (ids : list string) (st : Settings)
    (evs : list Event) (s : Scan) (c : string) (e : CacheEntry) :
  c ∈ ids →
  cache !! cacheKey c = Some e →
  lastCheckedAt e ≠ 0 →
  now - lastCheckedAt e < cacheTtlHours st * 3600000 →
  exec (fetchLastUploadDates now net cache ids st false) evs = Some s →
  results s !! c =
    Some match lastUploadAt e with
         | Some t => Dated (Some t) (Some ((now - t) `div` 86400000)) (thresholdDays st) ok
         | None => Dated None None (thresholdDays st) no_uploads
         end ∧
  Forall (λ eff, ¬ requestFor c eff) (log s).
Proof.
  intros Hin He Hchecked Hfresh Hex.
  destruct (cached_answer now net cache ids st evs s c e Hin He Hchecked Hfresh Hex)
    as [Hres Hlog].
  split; [|done]. rewrite Hres. by destruct (lastUploadAt e).
Qed.

Lemma fresh_cache_short_circuit_witness :
  results (endOf cachedScan []) !! "a" =
    Some (Dated (Some 1699000000000) (Some 11) 365 ok) ∧
  Forall (λ eff, ¬ requestFor "a" eff) (log (endOf cachedScan [])).
Proof.
  apply (fresh_cache_short_circuit 1700000000000 demoNet demoCache ["a"; "b"]
           (DEFAULTS "key") [] (endOf cachedScan []) "a"
           {| uploadsPlaylistId := Some "UUa";
              lastUploadAt := Some 1699000000000;
              lastCheckedAt := 1699990000000 |}).
  - left.
  - reflexivity.
  - discriminate.
  - reflexivity.
  - reflexivity.
Defined.

(** C7: a limiter created with capacity N never has more than N jobs in
    flight; the jobs it has started are always the earliest submitted, and
    the waiting ones are queued in submission order; when a job settles,
    its outcome goes to its own promise only, and whether it resolved or
    rejected the head of the queue is started.  In a scan the detail
    fetches are the limiter's jobs, so at most [concurrency] of them are
    in flight. *)
Theorem limiter_bound (now : Z) (net : nat → Response) (cache : gmap string CacheEntry)
    (ids : list string) (st : Settings) (bypass : bool) (evs : list Event) (sc : Scan)
    (P V E : Type) (start : P) (N : Z) (ops : list (Limiter.Op P V E))
    (s : Limiter.State P V E) :
  0 ≤ N → 0 ≤ concurrency st →
  Limiter.run start (Limiter.createLimiter N) ops = Some s →
  exec (fetchLastUploadDates now net cache ids st bypass) evs = Some sc →
  Z.of_nat (Limiter.inFlight s) ≤ N ∧
  (∃ k, Limiter.startedPrefix s k ∧
        Limiter.queue s = seq k (length (Limiter.jobs s) - k)) ∧
  (∀ i o s' j, Limiter.settle start i o s = Some (s', j) →
     j = head (Limiter.queue s) ∧
     Limiter.jobs s' !! i = Some (Limiter.settled o) ∧
     ∀ i', i' ≠ i →
       Limiter.jobs s' !! i' =
       if decide (j = Some i') then Some (Limiter.Running start) else Limiter.jobs s !! i') ∧
  Z.of_nat (detailsInFlight sc) ≤ concurrency st.
Proof.
  intros HN Hconc Hrun Hex.
  pose proof (LimiterFacts.run_wf start ops _ _ (LimiterFacts.createLimiter_wf N) Hrun) as Hwf.
  pose proof (LimiterFacts.run_concurrency start ops _ _ Hrun) as HcN. simpl in HcN.
  split; [|split; [|split]].
  - rewrite <- HcN. apply LimiterFacts.wf_bound; [done | by rewrite HcN].
  - by destruct Hwf as [(_ & _ & Hk) _].
  - intros i o s' j Hset. by eapply LimiterFacts.settle_effect.
  - pose proof (reach_Inv _ _ _ _ _ _ _ _ Hex) as Hinv.
    rewrite <- (startScan_concurrency now net cache ids st bypass), <- (inv_conc _ _ Hinv).
    apply LimiterFacts.wf_bound; [apply (inv_pool _ _ Hinv)|].
    by rewrite (inv_conc _ _ Hinv), startScan_concurrency.
Qed.

Lemma limiter_bound_witness :
  Z.of_nat (Limiter.inFlight demoLimiter) ≤ 1 ∧
  (∃ k, Limiter.startedPrefix demoLimiter k ∧
        Limiter.queue demoLimiter = seq k (length (Limiter.jobs demoLimiter) - k)) ∧
  (∀ i o s' j, Limiter.settle 0%nat i o demoLimiter = Some (s', j) →
     j = head (Limiter.queue demoLimiter) ∧
     Limiter.jobs s' !! i = Some (Limiter.settled o) ∧
     ∀ i', i' ≠ i →
       Limiter.jobs s' !! i' =
       if decide (j = Some i') then Some (Limiter.Running 0%nat)
       else Limiter.jobs demoLimiter !! i') ∧
  Z.of_nat (detailsInFlight (endOf demoScan demoEvents)) ≤ concurrency (DEFAULTS "key").
Proof.
  apply (limiter_bound 1000 demoNet ∅ ["a"; "b"] (DEFAULTS "key") false demoEvents
           (endOf demoScan demoEvents) nat unit string 0%nat 1 demoOps demoLimiter).
  - lia.
  - simpl. lia.
  - reflexivity.
  - vm_compute. reflexivity.
Defined.

Lemma startScan_silent now net cache ids st bypass c o :
  DetailDone c o ∉ log (fetchLastUploadDates now net cache ids st bypass).
Proof.
  intros Hin.
  by apply (proj1 (Forall_forall _ _) (startScan_log now net cache ids st bypass)) in Hin.
Qed.

Lemma reach_lastDetail now net cache ids st bypass evs s extra c :
  exec (fetchLastUploadDates now net cache ids st bypass) evs = Some s →
  log s = log (fetchLastUploadDates now net cache ids st bypass) ++ extra →
  lastDetail c (log s) = lastDetail c extra.
Proof.
  intros Hex ->. rewrite lastDetail_app.
  destruct (lastDetail c extra); [done|].
  apply lastDetail_None. intros o. apply startScan_silent.
Qed.

(** C9, as amended: a cache write happens only with a successful detail
    fetch of the same identifier; an identifier whose detail fetch failed
    has the failure's status, api_error or quota_exceeded, as its result;
    and if no detail fetch for it succeeded in this scan, its cache entry
    is the one from before the scan. *)
Theorem failed_detail_keeps_cache (now : Z) (net : nat → Response)
    (cache : gmap string CacheEntry) (ids : list string) (st : Settings) (bypass : bool)
    (evs : list Event) (s : Scan) (c : string) (e : JsError) :
  exec (fetchLastUploadDates now net cache ids st bypass) evs = Some s →
  lastDetail c (log s) = Some (Thrown e) →
  (∀ c' entry, CacheSet c' entry ∈ log s →
     ∃ data, DetailDone c' (Returned (Some data)) ∈ log s) ∧
  results s !! c = Some (Failed (classify e) (message e) (thresholdDays st)) ∧
  isError (classify e) ∧
  ((∀ data, DetailDone c (Returned (Some data)) ∉ log s) →
   storage s !! cacheKey c = cache !! cacheKey c).
Proof.
  intros Hex Hlast.
  destruct (inv_log _ _ (reach_Inv _ _ _ _ _ _ _ _ Hex))
    as (extra & Hlog & Heff & Hset & Hsto & Hsettled).
  rewrite (reach_lastDetail _ _ _ _ _ _ _ _ _ _ Hex Hlog) in Hlast.
  split; [|split; [|split]].
  - intros c' entry Hin. rewrite Hlog in Hin |- *.
    apply elem_of_app in Hin as [Hin | Hin].
    + by apply (proj1 (Forall_forall _ _) (startScan_log now net cache ids st bypass)) in Hin.
    + destruct (Hset c' entry Hin) as [data Hd]. exists data. apply elem_of_app. by right.
  - specialize (Hsettled c). rewrite Hlast in Hsettled. simpl in Hsettled.
    by rewrite Hsettled, startScan_threshold.
  - apply classify_isError.
  - intros Hnone. destruct (Hsto (cacheKey c)) as [H | (c' & data & Hkey & Hd)].
    + by rewrite H, startScan_storage.
    + apply cacheKey_inj in Hkey as <-. exfalso. apply (Hnone data).
      rewrite Hlog. apply elem_of_app. by right.
Qed.

Lemma failed_detail_keeps_cache_witness :
  (∀ c' entry, CacheSet c' entry ∈ log (endOf demoScan demoFailure) →
     ∃ data, DetailDone c' (Returned (Some data)) ∈ log (endOf demoScan demoFailure)) ∧
  results (endOf demoScan demoFailure) !! "a" =
    Some (Failed api_error "HTTP_500" 365) ∧
  isError api_error ∧
  ((∀ data, DetailDone "a" (Returned (Some data)) ∉ log (endOf demoScan demoFailure)) →
   storage (endOf demoScan demoFailure) !! cacheKey "a" =
   (∅ : gmap string CacheEntry) !! cacheKey "a").
Proof.
  apply (failed_detail_keeps_cache 1000 demoNet ∅ ["a"; "b"] (DEFAULTS "key") false
           demoFailure (endOf demoScan demoFailure) "a"
           (Retry.httpError 500 (Unreadable ""))).
  - vm_compute. reflexivity.
  - vm_compute. reflexivity.
Defined.

(** C9, as stated, fails: "a" is submitted twice and has two detail
    fetches.  The first succeeds and writes the cache entry of "a"; the
    second fails, so the result of "a" is api_error, and the cache entry is
    not the one from before the scan. *)
Lemma failed_detail_after_success :
  exec twiceScan twiceEvents = Some (endOf twiceScan twiceEvents) ∧
  returned (endOf twiceScan twiceEvents) = true ∧
  lastDetail "a" (log (endOf twiceScan twiceEvents)) =
    Some (Thrown (Retry.httpError 500 (Unreadable ""))) ∧
  results (endOf twiceScan twiceEvents) !! "a" = Some (Failed api_error "HTTP_500" 365) ∧
  storage (endOf twiceScan twiceEvents) !! cacheKey "a" =
    Some {| uploadsPlaylistId := Some "UUa"; lastUploadAt := Some 400;
            lastCheckedAt := 1005 |} ∧
  storage (endOf twiceScan twiceEvents) !! cacheKey "a" ≠
    (∅ : gmap string CacheEntry) !! cacheKey "a".
Proof.
  assert (storage (endOf twiceScan twiceEvents) !! cacheKey "a" =
          Some {| uploadsPlaylistId := Some "UUa"; lastUploadAt := Some 400;
                  lastCheckedAt := 1005 |}) as Hsto by (vm_compute; reflexivity).
  split; [vm_compute; reflexivity|]. split; [vm_compute; reflexivity|].
  split; [vm_compute; reflexivity|]. split; [vm_compute; reflexivity|].
  split; [done|]. by rewrite Hsto, lookup_empty.
Qed.

(** ** Two scans in succession *)

Lemma filter_none {A} (P : A → Prop) `{∀ x, Decision (P x)} (l : list A) :
  (∀ x, x ∈ l → ¬ P x) → filter P l = [].
Proof.
  induction l as [|a l IH]; intros Hl; [done|].
  rewrite filter_cons, decide_False by (apply Hl; by left).
  apply IH. intros x Hx. apply Hl. by right.
Qed.

Lemma filter_all {A} (P : A → Prop) `{∀ x, Decision (P x)} (l : list A) :
  (∀ x, x ∈ l → P x) → filter P l = l.
Proof.
  induction l as [|a l IH]; intros Hl; [done|].
  rewrite filter_cons, decide_True by (apply Hl; by left).
  f_equal. apply IH. intros x Hx. apply Hl. by right.
Qed.

(** A scan answered entirely from the cache makes no request and returns
    without waiting for anything. *)
Lemma all_hits_quiet now net cache ids st bypass evs s :
  (∀ c, c ∈ ids → cacheHit now cache st bypass c = true) →
  exec (fetchLastUploadDates now net cache ids st bypass) evs = Some s →
  log s = [] ∧ returned s = true.
Proof.
  intros Hhits Hex.
  assert ((loadCache now cache st bypass ids).2 = []) as Hnil.
  { rewrite loadCache_toFetch, filter_none; [done|].
    intros c Hc. rewrite (Hhits c Hc). done. }
  rewrite startScan_unfold, Hnil in Hex. simpl in Hex.
  destruct evs as [|ev evs]; simpl in Hex.
  - injection Hex as <-. done.
  - unfold step in Hex. by simpl in Hex.
Qed.

(** C8, as amended: when a second scan with bypassCache = false starts
    after the first has returned and less than the TTL after the first
    started, every identifier whose detail fetch succeeded in the first
    scan, and every identifier the first scan answered from a cache entry
    that is still fresh, is answered from the cache, without any request
    for it, with the lastUploadAt and status of the first scan and daysAgo
    computed for the time of the second; if that is every identifier, the
    second scan makes no request at all. *)
Theorem second_scan_from_cache (now1 : Z) (net1 : nat → Response)
    (cache : gmap string CacheEntry) (ids : list string) (st : Settings) (bypass1 : bool)
    (evs1 : list Event) (s1 : Scan)
    (now2 : Z) (net2 : nat → Response) (evs2 : list Event) (s2 : Scan) :
  0 < now1 →
  exec (fetchLastUploadDates now1 net1 cache ids st bypass1) evs1 = Some s1 →
  returned s1 = true →
  clock s1 ≤ now2 →
  now2 - now1 < cacheTtlHours st * 3600000 →
  exec (fetchLastUploadDates now2 net2 (storage s1) ids st false) evs2 = Some s2 →
  (∀ c data, lastDetail c (log s1) = Some (Returned (Some data)) →
     let last := extractLastUpload data in
     (∃ t, now1 ≤ t ≤ clock s1 ∧
           results s1 !! c =
             Some (Dated last (daysAgo t last) (thresholdDays st) (uploadStatus last))) ∧
     results s2 !! c =
       Some (Dated last (daysAgo now2 last) (thresholdDays st) (uploadStatus last)) ∧
     Forall (λ eff, ¬ requestFor c eff) (log s2)) ∧
  (∀ c e, c ∈ ids → cacheHit now1 cache st bypass1 c = true →
     cache !! cacheKey c = Some e →
     now2 - lastCheckedAt e < cacheTtlHours st * 3600000 →
     let last := lastUploadAt e in
     results s1 !! c =
       Some (Dated last (daysAgo now1 last) (thresholdDays st) (uploadStatus last)) ∧
     results s2 !! c =
       Some (Dated last (daysAgo now2 last) (thresholdDays st) (uploadStatus last)) ∧
     Forall (λ eff, ¬ requestFor c eff) (log s2)) ∧
  ((∀ c, c ∈ ids →
      (∃ data, lastDetail c (log s1) = Some (Returned (Some data))) ∨
      (∃ e, cacheHit now1 cache st bypass1 c = true ∧ cache !! cacheKey c = Some e ∧
            now2 - lastCheckedAt e < cacheTtlHours st * 3600000)) →
   log s2 = [] ∧ returned s2 = true).
Proof.
  intros Hpos Hex1 Hret1 Hlater Httl Hex2.
  pose proof (reach_Inv _ _ _ _ _ _ _ _ Hex1) as Hinv.
  destruct (inv_log _ _ Hinv) as (extra & Hlog & Heff & _ & Hsto & Hsettled).
  assert (∀ c data, lastDetail c (log s1) = Some (Returned (Some data)) →
            c ∈ ids ∧ ∃ t pl, now1 ≤ t ≤ clock s1 ∧
              results s1 !! c =
                Some (Dated (extractLastUpload data) (daysAgo t (extractLastUpload data))
                        (thresholdDays st) (uploadStatus (extractLastUpload data))) ∧
              storage s1 !! cacheKey c =
                Some {| uploadsPlaylistId := Some pl;
                        lastUploadAt := extractLastUpload data;
                        lastCheckedAt := t |}) as Hfetched.
  { intros c data Hlast.
    rewrite (reach_lastDetail _ _ _ _ _ _ _ _ _ _ Hex1 Hlog) in Hlast. split.
    - apply lastDetail_In in Hlast.
      apply (proj1 (Forall_forall _ _) Heff) in Hlast. simpl in Hlast.
      by apply startScan_channels in Hlast as [? _].
    - specialize (Hsettled c). rewrite Hlast in Hsettled. simpl in Hsettled.
      rewrite startScan_threshold, startScan_clock in Hsettled.
      destruct Hsettled as (t & pl & Ht & Hres & Hst). by exists t, pl. }
  assert (∀ c e, c ∈ ids → cacheHit now1 cache st bypass1 c = true →
            cache !! cacheKey c = Some e →
            lastCheckedAt e ≠ 0 ∧
            results s1 !! c = Some (fromCache now1 cache st c) ∧
            storage s1 !! cacheKey c = Some e) as Hkept.
  { intros c e Hin Hhit He.
    destruct (startScan_hit now1 net1 cache ids st bypass1 c Hin Hhit) as [Hres Hchan].
    split; [|split].
    - unfold cacheHit, isFresh in Hhit. rewrite He in Hhit.
      destruct (Z.eqb_spec (lastCheckedAt e) 0); [|done].
      by rewrite andb_false_r in Hhit.
    - by rewrite (reach_frame _ _ _ _ _ _ _ _ _ Hex1 Hchan).
    - destruct (Hsto (cacheKey c)) as [-> | (c' & data & Hkey & Hd)].
      + by rewrite startScan_storage.
      + apply cacheKey_inj in Hkey as <-.
        by apply (proj1 (Forall_forall _ _) Heff) in Hd. }
  split; [|split].
  - intros c data Hlast last.
    destruct (Hfetched c data Hlast) as (Hin & t & pl & Ht & Hres & Hst).
    split; [by exists t|].
    apply (cached_answer now2 net2 (storage s1) ids st evs2 s2 c _ Hin Hst);
      simpl; [lia | lia | done].
  - intros c e Hin Hhit He Hfresh last.
    destruct (Hkept c e Hin Hhit He) as (Hne & Hres & Hst).
    split; [rewrite Hres; unfold fromCache; by rewrite He|].
    by apply (cached_answer now2 net2 (storage s1) ids st evs2 s2 c e Hin Hst).
  - intros Hall. refine (all_hits_quiet _ _ _ _ _ _ _ _ _ Hex2).
    intros c Hin.
    destruct (Hall c Hin) as [[data Hlast] | (e & Hhit & He & Hfresh)].
    + destruct (Hfetched c data Hlast) as (_ & t & pl & Ht & _ & Hst).
      unfold cacheHit, isFresh. rewrite Hst. simpl.
      destruct (Z.eqb_spec t 0); [lia|]. apply Z.ltb_lt. lia.
    + destruct (Hkept c e Hin Hhit He) as (Hne & _ & Hst).
      unfold cacheHit, isFresh. rewrite Hst. simpl.
      destruct (Z.eqb_spec (lastCheckedAt e) 0); [done|]. apply Z.ltb_lt. lia.
Qed.

Lemma second_scan_from_cache_witness :
  (∀ c data, lastDetail c (log (endOf demoScan demoEvents)) = Some (Returned (Some data)) →
     let last := extractLastUpload data in
     (∃ t, 1000 ≤ t ≤ clock (endOf demoScan demoEvents) ∧
           results (endOf demoScan demoEvents) !! c =
             Some (Dated last (daysAgo t last) (thresholdDays (DEFAULTS "key"))
                     (uploadStatus last))) ∧
     results (endOf repeatScan []) !! c =
       Some (Dated last (daysAgo 2000 last) (thresholdDays (DEFAULTS "key"))
               (uploadStatus last)) ∧
     Forall (λ eff, ¬ requestFor c eff) (log (endOf repeatScan []))) ∧
  (∀ c e, c ∈ ["a"; "b"] → cacheHit 1000 ∅ (DEFAULTS "key") false c = true →
     (∅ : gmap string CacheEntry) !! cacheKey c = Some e →
     2000 - lastCheckedAt e < cacheTtlHours (DEFAULTS "key") * 3600000 →
     let last := lastUploadAt e in
     results (endOf demoScan demoEvents) !! c =
       Some (Dated last (daysAgo 1000 last) (thresholdDays (DEFAULTS "key"))
               (uploadStatus last)) ∧
     results (endOf repeatScan []) !! c =
       Some (Dated last (daysAgo 2000 last) (thresholdDays (DEFAULTS "key"))
               (uploadStatus last)) ∧
     Forall (λ eff, ¬ requestFor c eff) (log (endOf repeatScan []))) ∧
  ((∀ c, c ∈ ["a"; "b"] →
      (∃ data, lastDetail c (log (endOf demoScan demoEvents)) = Some (Returned (Some data))) ∨
      (∃ e, cacheHit 1000 ∅ (DEFAULTS "key") false c = true ∧
            (∅ : gmap string CacheEntry) !! cacheKey c = Some e ∧
            2000 - lastCheckedAt e < cacheTtlHours (DEFAULTS "key") * 3600000)) →
   log (endOf repeatScan []) = [] ∧ returned (endOf repeatScan []) = true).
Proof.
  apply (second_scan_from_cache 1000 demoNet ∅ ["a"; "b"] (DEFAULTS "key") false
           demoEvents (endOf demoScan demoEvents) 2000 demoNet [] (endOf repeatScan [])).
  - lia.
  - vm_compute. reflexivity.
  - vm_compute. reflexivity.
  - vm_compute. discriminate.
  - vm_compute. reflexivity.
  - reflexivity.
Defined.

(** C8, as stated, fails in both of its parts.  "b" is unknown to
    [channels.list], so the first scan gives it no_uploads without writing
    to the cache, and the second scan asks [channels.list] again.  And the
    last upload of "a" is less than a day old in the first scan and more
    than a day old in the second, a second and a half later: the second
    scan makes no request, but its daysAgo is 1 where the first had 0. *)
Lemma second_scan_differs :
  (returned firstScan = true ∧
   1001 - 1000 < cacheTtlHours (DEFAULTS "key") * 3600000 ∧
   ¬ (results secondScan = results firstScan ∧
      Forall (λ eff, ¬ isRequest eff) (log secondScan))) ∧
  (returned (endOf agingFirst agingEvents) = true ∧
   clock (endOf agingFirst agingEvents) ≤ 1699086400500 ∧
   1699086400500 - 1699086399000 < cacheTtlHours (DEFAULTS "key") * 3600000 ∧
   log agingSecond = [] ∧
   results (endOf agingFirst agingEvents) !! "a" =
     Some (Dated (Some 1699000000000) (Some 0) 365 ok) ∧
   results agingSecond !! "a" = Some (Dated (Some 1699000000000) (Some 1) 365 ok) ∧
   results agingSecond ≠ results (endOf agingFirst agingEvents)).
Proof.
  split.
  - split; [reflexivity|]. split; [reflexivity|].
    intros [_ Hquiet].
    assert (log secondScan = [Fetch (Channels ["b"])]) as Hlog by (vm_compute; reflexivity).
    rewrite Hlog in Hquiet. apply Forall_cons in Hquiet as [Hreq _]. by apply Hreq.
  - assert (results (endOf agingFirst agingEvents) !! "a" =
              Some (Dated (Some 1699000000000) (Some 0) 365 ok)) as H1
      by (vm_compute; reflexivity).
    assert (results agingSecond !! "a" = Some (Dated (Some 1699000000000) (Some 1) 365 ok))
      as H2 by (vm_compute; reflexivity).
    split; [vm_compute; reflexivity|]. split; [vm_compute; discriminate|].
    split; [reflexivity|]. split; [vm_compute; reflexivity|].
    split; [done|]. split; [done|].
    intros Heq. rewrite Heq, H1 in H2. discriminate.
Qed.

(** ** The batches of 120 identifiers *)

Lemma batchLoop_step net thr need fuel i f :
  (i < length need)%nat →
  batchLoop net thr need (S fuel) i f =
  batchLoop net thr need fuel (i + 50) (resolveBatch net thr (take 50 (drop i need)) f).
Proof. intros Hi. simpl. apply Nat.ltb_lt in Hi. by rewrite Hi. Qed.

Lemma batchLoop_stop net thr need fuel i f :
  (length need ≤ i)%nat → batchLoop net thr need fuel i f = f.
Proof.
  intros Hi. destruct fuel; simpl; [done|].
  apply Nat.ltb_ge in Hi. by rewrite Hi.
Qed.

Lemma resolveBatch_sent net thr batch f :
  f_sent (resolveBatch net thr batch f) =
  (f_sent f + Retry.requests (Retry.fetchJsonWithRetry net (f_sent f)))%nat.
Proof. unfold resolveBatch. by destruct (Retry.outcome _) as [[data|]|e]. Qed.

(** A batch marks its own identifiers when its call throws, and nothing
    otherwise. *)
Lemma resolveBatch_dom net thr batch f c :
  c ∈ dom (f_results (resolveBatch net thr batch f)) ↔
  c ∈ dom (f_results f) ∨
  (c ∈ batch ∧ ∃ e, Retry.outcome (Retry.fetchJsonWithRetry net (f_sent f)) = Thrown e).
Proof.
  unfold resolveBatch.
  pose proof (RetryFacts.fetchJsonWithRetry_defined net (f_sent f)) as Hdef.
  destruct (Retry.outcome _) as [[data|]|e]; simpl; [| done |].
  - split; [by left|]. by intros [? | [_ [e ?]]].
  - rewrite !elem_of_dom, markFailed_lookup. case_decide as Hin.
    + split; [|eauto]. intros _. right. eauto.
    + split; [by left|]. by intros [? | [? _]].
Qed.

Lemma resolveBatch_log net thr batch f :
  ∃ l, f_log (resolveBatch net thr batch f) = f_log f ++ l ∧
       Forall (λ eff, eff = Fetch (Channels batch) ∨ ∃ d, eff = Sleep d) l.
Proof.
  eexists. split.
  - unfold resolveBatch. by destruct (Retry.outcome _) as [[data|]|e].
  - destruct (Retry.requests _); [done|]. apply Forall_cons_2; [by left|].
    induction (Retry.sleeps _) as [|d l IH]; simpl; [done|].
    apply Forall_cons_2; [right; by exists d|]. apply Forall_cons_2; [by left | done].
Qed.

Lemma needPlaylistId_all cache ids :
  (∀ c, c ∈ ids → JsString.truthy (cache !! cacheKey c ≫= uploadsPlaylistId) = false) →
  needPlaylistId (missOf cache <$> ids) = ids.
Proof.
  intros Hno. unfold needPlaylistId. rewrite filter_all.
  - rewrite <- list_fmap_compose. by rewrite list_fmap_id.
  - intros x Hx. apply list_elem_of_fmap in Hx as (c & -> & Hc). by apply Hno.
Qed.

Section Batches.
Context (now : Z) (net : nat → Response) (cache : gmap string CacheEntry)
        (ids : list string) (st : Settings) (bypass : bool).
Hypothesis Hlen : length ids = 120%nat.
Hypothesis Hmiss : ∀ c, c ∈ ids →
  cacheHit now cache st bypass c = false ∧
  JsString.truthy (cache !! cacheKey c ≫= uploadsPlaylistId) = false.

Let thr := thresholdDays st.

Lemma misses_toFetch : (loadCache now cache st bypass ids).2 = missOf cache <$> ids.
Proof.
  rewrite loadCache_toFetch, filter_all; [done|]. intros c Hc. by apply Hmiss.
Qed.

Lemma misses_results : (loadCache now cache st bypass ids).1 = ∅.
Proof.
  apply map_eq. intros c. rewrite loadCache_results, lookup_empty.
  case_decide as Hd; [|done]. destruct Hd as [Hin Hhit].
  destruct (Hmiss c Hin) as [Hm _]. congruence.
Qed.

Lemma three_batches :
  resolvePlaylistIds net thr (loadCache now cache st bypass ids).2
    (loadCache now cache st bypass ids).1 =
  resolveBatch net thr (chunk ids 2)
    (resolveBatch net thr (chunk ids 1) (resolveBatch net thr (chunk ids 0) emptyFront)).
Proof.
  rewrite misses_toFetch, misses_results. unfold resolvePlaylistIds.
  rewrite needPlaylistId_all by (intros c Hc; by apply Hmiss).
  rewrite Hlen. change 120%nat with (S (S (S 117))).
  rewrite !batchLoop_step by (rewrite Hlen; simpl; lia).
  by rewrite batchLoop_stop by (rewrite Hlen; simpl; lia).
Qed.

Lemma chunk_lengths :
  length (chunk ids 0) = 50%nat ∧ length (chunk ids 1) = 50%nat ∧
  length (chunk ids 2) = 20%nat ∧ ids = chunk ids 0 ++ chunk ids 1 ++ chunk ids 2.
Proof.
  unfold chunk. rewrite !length_take, !length_drop, Hlen. simpl.
  repeat split; try lia.
  rewrite (take_ge (drop 100 ids)) by (rewrite length_drop; lia).
  rewrite <- (take_drop 50 ids) at 1. f_equal.
  rewrite <- (take_drop 50 (drop 50 ids)) at 1. f_equal.
  by rewrite drop_drop.
Qed.
End Batches.


Lemma exec_nil (s : Scan) : exec s [] = Some (endOf s []).
Proof. reflexivity. Qed.


(** ** The timestamp of a detail response *)

(** [videoPublishedAt] is used whenever it is there, whatever [publishedAt]
    holds, and the status follows the timestamp extracted. *)
Lemma extract_videoPublishedAt (item : Item) (rest : list Item) (msg : option string) (t : Z) :
  videoPublishedAt item = Some t →
  extractLastUpload {| items := Some (item :: rest); error_message := msg |} = Some t ∧
  uploadStatus (Some t) = ok ∧ uploadStatus None = no_uploads.
Proof. intros H. unfold extractLastUpload. simpl. by rewrite H. Qed.

(** C2: for a detail response whose item has only [publishedAt], the code
    extracts no timestamp: the result is no_uploads without a date, and
    that is what the cache entry records. *)
Theorem fallback_field_ignored :
  extractLastUpload fallbackOnly = None ∧
  results (endOf demoScan fallbackEvents) !! "a" = Some (Dated None None 365 no_uploads) ∧
  storage (endOf demoScan fallbackEvents) !! cacheKey "a" =
    Some {| uploadsPlaylistId := Some "UUa"; lastUploadAt := None; lastCheckedAt := 1005 |}.
Proof. by vm_compute. Qed.

(** ** The backoff of the tasks *)

Section Pace.
Import Limiter.

Lemma resume_paced t p c p' eff :
  paced p → resume t p c = Some (Suspend p' eff) → paced p' ∧ pacedSleep eff.
Proof.
  unfold resume. destruct p as [a d | a d |], c as [r | |]; try done.
  - destruct (Retry.afterFetch _ _ _) as [[[data|]|e]|] eqn:Hr; try done.
    intros [Ha ->] [= <- <-]. apply RetryFacts.afterFetch_Backoff in Hr as [_ Hlt].
    unfold Retry.maxRetries in Hlt. split; [done|]. simpl.
    destruct a as [|[|[|a]]]; [by left | right; by left | right; by right | lia].
  - destruct (Nat.leb_spec (S a) Retry.maxRetries) as [Hle | Hgt]; [|done].
    intros [Ha ->] [= <- <-]. split; [|done]. split; [done|].
    rewrite Nat2Z.inj_succ, Z.pow_succ_r by lia. lia.
Qed.

Lemma paced_started : paced started.
Proof. split; [lia | reflexivity]. Qed.

Lemma callLog_paced req sleeps :
  Forall (λ d, d = 1000 ∨ d = 2000 ∨ d = 4000) sleeps →
  Forall pacedSleep (callLog req sleeps).
Proof.
  induction 1 as [|d sleeps Hd _ IH]; simpl; [done|].
  by repeat apply Forall_cons_2.
Qed.

Lemma resolveBatch_paced net thr batch f :
  Forall pacedSleep (f_log f) → Forall pacedSleep (f_log (resolveBatch net thr batch f)).
Proof.
  intros Hf.
  assert (Forall pacedSleep
            (f_log f ++ match Retry.requests (Retry.fetchJsonWithRetry net (f_sent f)) with
                        | O => []
                        | S _ => Fetch (Channels batch) ::
                                 callLog (Channels batch)
                                   (Retry.sleeps (Retry.fetchJsonWithRetry net (f_sent f)))
                        end)) as Hlog.
  { apply Forall_app. split; [done|]. destruct (Retry.requests _); [done|].
    apply Forall_cons_2; [done|]. apply callLog_paced.
    destruct (RetryFacts.fetchJsonWithRetry_cases net (f_sent f)) as (k & Hk & -> & _).
    destruct k as [|[|[|[|k]]]]; simpl; [| | | |lia];
      repeat apply Forall_cons_2; try done; auto. }
  unfold resolveBatch. by destruct (Retry.outcome _) as [[data|]|e].
Qed.

Lemma batchLoop_paced net thr need fuel : ∀ i f,
  Forall pacedSleep (f_log f) → Forall pacedSleep (f_log (batchLoop net thr need fuel i f)).
Proof.
  induction fuel as [|fuel IH]; intros i f Hf; simpl; [done|].
  destruct (i <? length need)%nat; [|done]. by apply IH, resolveBatch_paced.
Qed.

Lemma startScan_Paced now net cache ids st bypass :
  Paced (fetchLastUploadDates now net cache ids st bypass).
Proof.
  split.
  - intros i p Hi.
    destruct (sync_jobs _ (startScan_Sync now net cache ids st bypass) i _ Hi) as [? | [= ->]];
      [done|]. apply paced_started.
  - destruct (sp_log _ _ _ (startScan_Spawned now net cache ids st bypass)) as (l & -> & Hl).
    apply Forall_app. split.
    + simpl. unfold resolvePlaylistIds. by apply batchLoop_paced.
    + eapply Forall_impl; [apply Hl|]. by intros eff (t & _ & ->).
Qed.

Lemma settle_Paced (s : Scan) (q : Pool) i j :
  wf (pool s) → settle started i (Fulfil tt) (pool s) = Some (q, j) →
  (∀ i p, jobs (pool s) !! i = Some (Running p) → paced p) →
  ∀ i p, jobs q !! i = Some (Running p) → paced p.
Proof.
  intros Hwf Hset Hp i' p Hi'.
  destruct (LimiterFacts.settle_effect started (pool s) i (Fulfil tt) q j Hwf Hset)
    as (_ & Hi & Hother).
  destruct (decide (i' = i)) as [-> | Hne]; [by rewrite Hi in Hi'|].
  rewrite (Hother i' Hne) in Hi'. case_decide.
  - injection Hi' as <-. apply paced_started.
  - by eapply Hp.
Qed.

Lemma launch_Paced j s : Forall pacedSleep (log s) → Forall pacedSleep (log (launch j s)).
Proof.
  intros Hs. destruct (launch_log j s) as (l & -> & Hl).
  apply Forall_app. split; [done|]. eapply Forall_impl; [apply Hl|]. by intros eff (t & _ & ->).
Qed.

Lemma step_Paced s0 s ev s' : Inv s0 s → Paced s → step s ev = Some s' → Paced s'.
Proof.
  intros Hinv [Hjobs Hlog] Hstep.
  apply step_inv in Hstep as (t & p & v & Hti & Hji & Hres & Happ).
  pose proof (inv_pool _ _ Hinv) as Hwf.
  destruct v as [p' eff | data | o e |]; simpl in Happ.
  - injection Happ as <-. destruct (resume_paced t p _ p' eff (Hjobs _ _ Hji) Hres) as [Hp' Heff].
    split; simpl.
    + intros i' p0 Hi'. destruct (decide (i' = ev_task ev)) as [-> | Hne].
      * rewrite list_lookup_insert_eq in Hi' by (by eapply lookup_lt_Some). by injection Hi' as <-.
      * rewrite list_lookup_insert_ne in Hi' by done. by eapply Hjobs.
    + apply Forall_app. split; [done|]. by apply Forall_singleton.
  - injection Happ as <-. split; simpl.
    + intros i' p0 Hi'. destruct (decide (i' = ev_task ev)) as [-> | Hne].
      * rewrite list_lookup_insert_eq in Hi' by (by eapply lookup_lt_Some). by injection Hi' as <-.
      * rewrite list_lookup_insert_ne in Hi' by done. by eapply Hjobs.
    + repeat (apply Forall_app; split); try done; by apply Forall_singleton.
  - unfold taskFailed in Happ. apply finish_inv in Happ as (q & j & Hset & ->).
    simpl in Hset. split.
    + rewrite launch_pool. simpl. by eapply settle_Paced.
    + apply launch_Paced. simpl. apply Forall_app. split; [done|]. by apply Forall_singleton.
  - apply finish_inv in Happ as (q & j & Hset & ->). simpl in Hset. split.
    + rewrite launch_pool. simpl. by eapply settle_Paced.
    + by apply launch_Paced.
Qed.

(** Every sleep of a scan, in its batch calls and in its tasks, follows the
    schedule 1000, 2000, 4000, and every task is at a place of it. *)
Lemma scan_Paced now net cache ids st bypass evs s :
  exec (fetchLastUploadDates now net cache ids st bypass) evs = Some s → Paced s.
Proof.
  assert (∀ evs s1 s2, Inv (fetchLastUploadDates now net cache ids st bypass) s1 → Paced s1 →
            exec s1 evs = Some s2 → Paced s2) as H.
  { clear evs s. induction evs as [|ev evs IH]; intros s1 s2 Hinv Hp; simpl.
    - by intros [= <-].
    - destruct (step s1 ev) as [s'|] eqn:Hstep; [|done].
      apply IH; [by eapply step_Inv | by eapply step_Paced]. }
  apply H; [apply startScan_Inv | apply startScan_Paced].
Qed.
End Pace.


(* ===================================================================== *)
(** * Further properties of the pipeline *)
(* ===================================================================== *)

(** ** The shape of result entries *)

Lemma startScan_shaped now net cache ids st bypass c r :
  results (fetchLastUploadDates now net cache ids st bypass) !! c = Some r →
  shaped (thresholdDays st) now now r.
Proof.
  intros Hr.
  destruct (sp_results _ _ _ (startScan_Spawned now net cache ids st bypass) c)
    as [Hsame | (_ & _ & Hnp)].
  - simpl in Hsame. rewrite Hr in Hsame. symmetry in Hsame.
    destruct (front_results now net cache ids st bypass c)
      as [Hl | (_ & _ & e & msg & Hf & He)].
    + rewrite Hsame, loadCache_results in Hl. case_decide; [|done].
      injection Hl as ->. unfold fromCache. simpl. split; [done|]. split; [done|].
      exists now. split; [lia | done].
    + rewrite Hsame in Hf. injection Hf as ->. done.
  - simpl in Hnp. rewrite Hr in Hnp. by injection Hnp as ->.
Qed.

Lemma shaped_later thr lo hi hi' r : hi ≤ hi' → shaped thr lo hi r → shaped thr lo hi' r.
Proof.
  intros Hle. destruct r as [last days thr' status | thr' | status msg thr']; simpl; try done.
  intros (-> & -> & t & Ht & ->). split; [done|]. split; [done|]. exists t. split; [lia | done].
Qed.

Lemma reach_shaped now net cache ids st bypass evs s c r :
  exec (fetchLastUploadDates now net cache ids st bypass) evs = Some s →
  results s !! c = Some r →
  shaped (thresholdDays st) now (clock s) r.
Proof.
  intros Hex Hr. pose proof (reach_Inv _ _ _ _ _ _ _ _ Hex) as Hinv.
  destruct (inv_log _ _ Hinv) as (extra & _ & _ & _ & _ & Hlast).
  pose proof (inv_clock _ _ Hinv) as Hclk.
  rewrite startScan_clock in Hclk.
  specialize (Hlast c).
  destruct (lastDetail c extra) as [[[data|]|e]|]; simpl in Hlast;
    rewrite ?startScan_threshold, ?startScan_clock in Hlast.
  - destruct Hlast as (t & pl & Ht & Hres & _).
    rewrite Hr in Hres. injection Hres as ->. simpl.
    split; [done|]. split; [done|]. by exists t.
  - rewrite Hr in Hlast. injection Hlast as ->. simpl. split; [done|]. apply classify_isError.
  - rewrite Hr in Hlast. injection Hlast as ->. simpl. split; [done|]. apply classify_isError.
  - rewrite Hr in Hlast. symmetry in Hlast. apply startScan_shaped in Hlast.
    eapply shaped_later; [|done]. done.
Qed.

(** X1: every entry of the map a scan builds carries the threshold of the
    settings; its status is ok exactly when it has a daysAgo, and exactly
    when it has a lastUploadAt; its status is an error status exactly when
    it has an error message; and its daysAgo is the whole number of days
    between its lastUploadAt and an instant of the scan. *)
Theorem result_entry_shape (now : Z) (net : nat → Response) (cache : gmap string CacheEntry)
    (ids : list string) (st : Settings) (bypass : bool) (evs : list Event) (s : Scan)
    (c : string) (r : ResultEntry) :
  exec (fetchLastUploadDates now net cache ids st bypass) evs = Some s →
  results s !! c = Some r →
  thresholdOf r = thresholdDays st ∧
  (statusOf r = ok ↔ is_Some (daysAgoOf r)) ∧
  (statusOf r = ok ↔ is_Some (lastUploadOf r)) ∧
  (isError (statusOf r) ↔ is_Some (errorOf r)) ∧
  (∀ d, daysAgoOf r = Some d →
     ∃ t last, now ≤ t ≤ clock s ∧ lastUploadOf r = Some last ∧
               d = (t - last) `div` 86400000).
Proof.
  intros Hex Hr. pose proof (reach_shaped _ _ _ _ _ _ _ _ _ _ Hex Hr) as Hs.
  unfold isError, is_Some.
  destruct r as [last days thr status | thr | status msg thr]; simpl in *.
  - destruct Hs as (-> & -> & t & Ht & ->).
    destruct last as [l|]; simpl; split_and!; try done.
    + split; eauto.
    + split; eauto.
    + split; [by intros [? | ?] | by intros [? ?]].
    + intros d [= <-]. by exists t, l.
    + split; [done | by intros [? ?]].
    + split; [done | by intros [? ?]].
    + split; [by intros [? | ?] | by intros [? ?]].
  - split_and!; try done.
    + split; [done | by intros [? ?]].
    + split; [done | by intros [? ?]].
    + split; [by intros [? | ?] | by intros [? ?]].
  - destruct Hs as [-> Herr]. unfold isError in Herr. split_and!; try done.
    + split; [intros ->; by destruct Herr | by intros [? ?]].
    + split; [intros ->; by destruct Herr | by intros [? ?]].
    + split; eauto.
Qed.

Lemma result_entry_shape_witness :
  thresholdOf (Dated (Some 400) (Some 0) 365 ok) = thresholdDays (DEFAULTS "key") ∧
  (statusOf (Dated (Some 400) (Some 0) 365 ok) = ok ↔
   is_Some (daysAgoOf (Dated (Some 400) (Some 0) 365 ok))) ∧
  (statusOf (Dated (Some 400) (Some 0) 365 ok) = ok ↔
   is_Some (lastUploadOf (Dated (Some 400) (Some 0) 365 ok))) ∧
  (isError (statusOf (Dated (Some 400) (Some 0) 365 ok)) ↔
   is_Some (errorOf (Dated (Some 400) (Some 0) 365 ok))) ∧
  (∀ d, daysAgoOf (Dated (Some 400) (Some 0) 365 ok) = Some d →
     ∃ t last, 1000 ≤ t ≤ clock (endOf demoScan demoEvents) ∧
               lastUploadOf (Dated (Some 400) (Some 0) 365 ok) = Some last ∧
               d = (t - last) `div` 86400000).
Proof.
  apply (result_entry_shape 1000 demoNet ∅ ["a"; "b"] (DEFAULTS "key") false demoEvents
           (endOf demoScan demoEvents) "a").
  - vm_compute. reflexivity.
  - vm_compute. reflexivity.
Defined.

(** ** The batches of step 2, in general *)

Lemma batchCount_lt need k : (k < batchCount need ↔ 50 * k < length need)%nat.
Proof.
  unfold batchCount.
  pose proof (Nat.div_mod_eq (length need + 49) 50) as Hdm.
  pose proof (Nat.mod_upper_bound (length need + 49) 50 ltac:(lia)) as Hmod.
  split; intros H; nia.
Qed.

Lemma batchCount_le need : (batchCount need ≤ length need)%nat.
Proof.
  unfold batchCount.
  pose proof (Nat.div_mod_eq (length need + 49) 50) as Hdm.
  pose proof (Nat.mod_upper_bound (length need + 49) 50 ltac:(lia)) as Hmod.
  nia.
Qed.

Lemma batchLoop_batches net thr need : ∀ j k fuel f,
  (k + j = batchCount need)%nat → (j ≤ fuel)%nat →
  batchLoop net thr need fuel (50 * k) f =
  foldl (λ f b, resolveBatch net thr b f) f (chunk need <$> seq k j).
Proof.
  induction j as [|j IH]; intros k fuel f Hk Hfuel.
  - apply batchLoop_stop.
    destruct (decide (50 * k < length need)%nat) as [Hlt|]; [|lia].
    apply batchCount_lt in Hlt. lia.
  - destruct fuel as [|fuel]; [lia|].
    rewrite batchLoop_step by (apply batchCount_lt; lia).
    replace (50 * k + 50)%nat with (50 * S k)%nat by lia.
    rewrite IH by lia. done.
Qed.

Lemma resolvePlaylistIds_batches net thr toFetch r0 :
  resolvePlaylistIds net thr toFetch r0 =
  foldl (λ f b, resolveBatch net thr b f)
        {| f_results := r0; f_playlistIdMap := ∅; f_log := []; f_sent := 0 |}
        (batches (needPlaylistId toFetch)).
Proof.
  unfold resolvePlaylistIds, batches.
  apply (batchLoop_batches net thr _ (batchCount (needPlaylistId toFetch)) 0%nat);
    [done | apply batchCount_le].
Qed.

Lemma chunks_concat (need : list string) : ∀ j k,
  concat (chunk need <$> seq k j) = take (50 * j) (drop (50 * k) need).
Proof.
  induction j as [|j IH]; intros k.
  - by rewrite Nat.mul_0_r, take_0.
  - cbn [seq]. rewrite fmap_cons. cbn [concat]. rewrite IH. unfold chunk.
    replace (50 * S k)%nat with (50 * k + 50)%nat by lia.
    rewrite <- drop_drop, take_take_drop. f_equal. lia.
Qed.

Lemma batches_concat need : concat (batches need) = need.
Proof.
  unfold batches. rewrite chunks_concat, Nat.mul_0_r, drop_0.
  apply take_ge. destruct (decide (length need ≤ 50 * batchCount need)%nat) as [|Hn]; [done|].
  assert (50 * batchCount need < length need)%nat as Hlt by lia.
  apply batchCount_lt in Hlt. lia.
Qed.

Lemma batches_lookup need k b :
  batches need !! k = Some b ↔ (k < batchCount need)%nat ∧ b = chunk need k.
Proof.
  unfold batches. rewrite list_lookup_fmap. split.
  - intros H. apply fmap_Some in H as (k' & Hk & ->).
    apply lookup_seq in Hk as [-> Hlt]. done.
  - intros [Hlt ->]. by rewrite lookup_seq_lt.
Qed.

Lemma chunk_length need k :
  length (chunk need k) = ((length need - 50 * k) `min` 50)%nat.
Proof. unfold chunk. rewrite length_take, length_drop. lia. Qed.

(** X2: step 2 calls [fetchJsonWithRetry] once per slice of 50 of the
    identifiers that lack a cached playlist id, in order: the slices put
    end to end are those identifiers, there are ceil(n / 50) of them, none
    is empty, and all but the last hold exactly 50. *)
Theorem step2_batches (net : nat → Response) (thr : Z) (toFetch : list ToFetch)
    (r0 : gmap string ResultEntry) :
  let need := needPlaylistId toFetch in
  resolvePlaylistIds net thr toFetch r0 =
    foldl (λ f b, resolveBatch net thr b f)
          {| f_results := r0; f_playlistIdMap := ∅; f_log := []; f_sent := 0 |}
          (batches need) ∧
  concat (batches need) = need ∧
  length (batches need) = ((length need + 49) `div` 50)%nat ∧
  (∀ k b, batches need !! k = Some b →
     b = take 50 (drop (50 * k) need) ∧
     (1 ≤ length b ≤ 50)%nat ∧
     ((S k < length (batches need))%nat → length b = 50%nat)).
Proof.
  intros need. split; [apply resolvePlaylistIds_batches|].
  split; [apply batches_concat|].
  assert (length (batches need) = batchCount need) as Hlen.
  { unfold batches. by rewrite length_fmap, length_seq. }
  split; [done|].
  intros k b Hb. apply batches_lookup in Hb as [Hk ->]. split; [done|].
  rewrite chunk_length. pose proof (proj1 (batchCount_lt need k) Hk). split; [lia|].
  rewrite Hlen. intros Hk'. apply batchCount_lt in Hk'. lia.
Qed.

(** ** The requests of step 3 *)

Section Ledger.
Import Limiter.

Lemma countEffects_app f l l' :
  countEffects f (l ++ l') = (countEffects f l + countEffects f l')%nat.
Proof. apply sum_list_with_app. Qed.

Lemma countEffects_none f l : Forall (λ eff, f eff = false) l → countEffects f l = 0%nat.
Proof.
  unfold countEffects. induction 1 as [|eff l Heff _ IH]; simpl; [done|]. by rewrite Heff.
Qed.

Lemma head_waiting (q : Pool) h :
  consistent q → head (queue q) = Some h → jobs q !! h = Some Waiting.
Proof.
  intros (_ & _ & k & [Hk Hpre] & Hq) Hh. rewrite Hq in Hh.
  destruct (length (jobs q) - k)%nat as [|n] eqn:Hn; [done|].
  simpl in Hh. injection Hh as <-.
  destruct (lookup_lt_is_Some_2 (jobs q) k) as [job Hjob]; [lia|].
  rewrite Hjob. f_equal. pose proof (proj2 (Hpre k job Hjob) ltac:(lia)).
  by destruct job.
Qed.

Lemma push_consistent (q : Pool) :
  wf q →
  consistent {| concurrency := concurrency q; active := active q;
                queue := queue q ++ [length (jobs q)]; jobs := jobs q ++ [Waiting] |}.
Proof.
  intros [(Hact & Hcap & k & [Hk Hpre] & Hq) Hfull].
  split; [|split]; simpl.
  - rewrite Hact. unfold inFlight. simpl. rewrite sum_list_with_app. simpl. lia.
  - done.
  - exists k. split; [split|]; simpl.
    + rewrite length_app. simpl. lia.
    + intros i j Hi. apply lookup_app_Some in Hi as [Hi | [Hlen Hi]].
      * apply (Hpre i j Hi).
      * apply list_lookup_singleton_Some in Hi as [_ <-]. simpl. split; [lia | done].
    + rewrite length_app, Hq. simpl.
      replace (length (jobs q) + 1 - k)%nat with (length (jobs q) - k + 1)%nat by lia.
      rewrite seq_app. simpl. do 2 f_equal. lia.
Qed.

Lemma next_cases (q : Pool) :
  next started q = (q, None) ∨
  ∃ h, head (queue q) = Some h ∧ (next started q).2 = Some h ∧
       jobs (next started q).1 = <[h := Running started]> (jobs q).
Proof.
  unfold next. destruct (queue q) as [|h rest]; [by left|].
  destruct (_ <=? _); [by left|]. right. by exists h.
Qed.

Lemma settle_cases (q q' : Pool) i o j :
  settle started i o q = Some (q', j) →
  ∃ p, jobs q !! i = Some (Running p) ∧
    ((j = None ∧ jobs q' = <[i := settled o]> (jobs q)) ∨
     (∃ h, j = Some h ∧ head (queue q) = Some h ∧
           jobs q' = <[h := Running started]> (<[i := settled o]> (jobs q)))).
Proof.
  unfold settle. destruct (jobs q !! i) as [[| p | |]|] eqn:Hi; try done.
  intros [= H]. exists p. split; [done|].
  match type of H with next _ ?m = _ =>
    destruct (next_cases m) as [Hn | (h & Hh & Hj & Hjobs)] end.
  - rewrite Hn in H. injection H as <- <-. by left.
  - rewrite H in Hj, Hjobs. simpl in Hh, Hj, Hjobs. right. by exists h.
Qed.

Lemma launch_cases j s :
  (launch j s = s ∧ j ≫= (λ j, tasks s !! j) = None) ∨
  ∃ h t, j = Some h ∧ tasks s !! h = Some t ∧
         launch j s = addLog [Fetch (taskRequest t)] s.
Proof.
  unfold launch. destruct j as [h|]; simpl; [|by left].
  destruct (tasks s !! h) as [t|] eqn:Ht; [right; by exists h, t | by left].
Qed.

Lemma requestsSpent_le j : (requestsSpent j ≤ 4)%nat.
Proof. destruct j as [|[a d | a d |]| |]; simpl; lia. Qed.

Lemma requestsSpent_bound (js : list (Job Progress unit string)) :
  (sum_list_with requestsSpent js ≤ 4 * length js)%nat.
Proof.
  induction js as [|j js IH]; simpl; [lia|]. pose proof (requestsSpent_le j). lia.
Qed.

Lemma resume_spent t p c p' eff :
  resume t p c = Some (Suspend p' eff) →
  ((if isDetailRequest eff then 1 else 0) + requestsSpent (Running p)
   ≤ requestsSpent (Running p'))%nat.
Proof.
  unfold resume. destruct p as [a d | a d |], c as [r | |]; try done.
  - destruct (Retry.afterFetch _ _ _) as [[[data|]|e]|]; try done.
    intros [= <- <-]. simpl. lia.
  - destruct (Nat.leb_spec (S a) Retry.maxRetries) as [Hle | Hgt]; [|done].
    unfold Retry.maxRetries in Hle. intros [= <- <-]. simpl. lia.
Qed.

(** What it takes for a change of state to keep the books. *)
Lemma ledger_transition (s s' : Scan) (l : list Effect) :
  Ledger s →
  length (jobs (pool s)) = length (tasks s) →
  (∃ new, tasks s' = tasks s ++ new) →
  log s' = log s ++ l →
  Forall (λ eff, match eff with
                 | Fetch (PlaylistItems c p) =>
                     ∃ t, t ∈ tasks s' ∧ eff = Fetch (taskRequest t)
                 | _ => True
                 end) l →
  (∀ i t job', tasks s' !! i = Some t → jobs (pool s') !! i = Some job' → job' ≠ Waiting →
     (∃ job, jobs (pool s) !! i = Some job ∧ job ≠ Waiting) ∨ Fetch (taskRequest t) ∈ l) →
  (countEffects isDetailRequest l + sum_list_with requestsSpent (jobs (pool s))
   ≤ sum_list_with requestsSpent (jobs (pool s')))%nat →
  Ledger s'.
Proof.
  intros [Hreq Hst Hbud] Hlen [new Hnew] Hlog Hl Hjobs Hsum. constructor.
  - unfold requestsOfTasks. rewrite Hlog. apply Forall_app. split; [|done].
    eapply Forall_impl; [apply Hreq|]. intros [[b|c p]| | |]; try done.
    intros (t & Hin & Heq). exists t. split; [|done].
    rewrite Hnew. apply elem_of_app. by left.
  - intros i t job' Ht Hj Hw. rewrite Hlog. apply elem_of_app.
    destruct (Hjobs i t job' Ht Hj Hw) as [(job & Hjob & Hjw) | Hin]; [left | by right].
    apply (Hst i t job); [|done|done].
    rewrite Hnew in Ht. rewrite lookup_app_l in Ht; [done|].
    rewrite <- Hlen. by eapply lookup_lt_Some.
  - unfold withinBudget in *. rewrite Hlog, countEffects_app. lia.
Qed.

Lemma submit_Ledger t s : Sync s → Ledger s → Ledger (submit t s).
Proof.
  intros [Hwf Hlen Hjobs] Hled. unfold submit.
  destruct (limit started (pool (addTask t s))) as [p j] eqn:Hlim. simpl in Hlim.
  unfold limit in Hlim.
  pose proof (push_consistent (pool s) Hwf) as Hcons.
  match type of Hlim with next _ ?m = _ =>
    destruct (next_cases m) as [Hn | (h & Hh & Hj & Hjobs')] end.
  - rewrite Hn in Hlim. injection Hlim as <- <-.
    apply (ledger_transition s _ []); simpl; try done.
    + by exists [t].
    + by rewrite app_nil_r.
    + intros i t0 job' Ht0 Hj' Hw. left.
      apply lookup_app_Some in Hj' as [Hj' | [_ Hj']]; [eauto|].
      by apply list_lookup_singleton_Some in Hj' as [_ <-].
    + rewrite sum_list_with_app. simpl. lia.
  - rewrite Hlim in Hj, Hjobs'. simpl in Hh, Hj, Hjobs'. subst j.
    pose proof (head_waiting _ h Hcons Hh) as Hw. simpl in Hw.
    destruct (launch_cases (Some h) (setPool p (addTask t s)))
      as [[_ Hnone] | (h' & t' & [= <-] & Ht' & ->)].
    + exfalso. simpl in Hnone. apply lookup_ge_None in Hnone.
      apply lookup_lt_Some in Hw. rewrite !length_app in *. simpl in *. lia.
    + simpl in Ht'.
      apply (ledger_transition s _ [Fetch (taskRequest t')]); simpl; try done.
      * by exists [t].
      * apply Forall_singleton. exists t'. split; [by eapply list_elem_of_lookup_2 | done].
      * intros i t0 job' Ht0 Hj' Hnw. rewrite Hjobs' in Hj'.
        destruct (decide (i = h)) as [-> | Hne].
        -- right. simplify_eq. by left.
        -- left. rewrite list_lookup_insert_ne in Hj' by done.
           apply lookup_app_Some in Hj' as [Hj' | [_ Hj']]; [eauto|].
           by apply list_lookup_singleton_Some in Hj' as [_ <-].
      * rewrite Hjobs'.
        pose proof (sum_list_with_insert requestsSpent _ h (Running started) _ Hw) as Hs.
        rewrite sum_list_with_app in Hs. simpl in Hs. unfold countEffects. simpl. lia.
Qed.

Lemma spawn_Ledger M s c : Sync s → Ledger s → Ledger (spawn M s c).
Proof.
  intros Hs Hled. unfold spawn. case_decide; [done|].
  destruct (JsString.truthy _); [by apply submit_Ledger|].
  destruct Hled. by constructor.
Qed.

Lemma spawnAll_Ledger M toFetch : ∀ s,
  Sync s → Ledger s → Ledger (foldl (spawn M) s toFetch).
Proof.
  induction toFetch as [|x toFetch IH]; intros s Hs Hled; simpl; [done|].
  apply IH; [by apply spawn_Sync | by apply spawn_Ledger].
Qed.

Lemma startScan_Ledger now net cache ids st bypass :
  Ledger (fetchLastUploadDates now net cache ids st bypass).
Proof.
  rewrite startScan_unfold. simpl.
  apply spawnAll_Ledger; [apply beforeSpawn_Sync|].
  destruct (resolvePlaylistIds_marked net (thresholdDays st)
              (loadCache now cache st bypass ids).2
              (loadCache now cache st bypass ids).1) as [_ Hlog].
  constructor.
  - unfold requestsOfTasks. simpl. eapply Forall_impl; [apply Hlog|].
    by intros [[b|c p]| | |].
  - intros i t job Hi. simpl in Hi. by rewrite lookup_nil in Hi.
  - unfold withinBudget. simpl. rewrite countEffects_none; [done|].
    eapply Forall_impl; [apply Hlog|]. by intros [[b|c p]| | |].
Qed.

Lemma finish_Ledger s s2 i s' l0 :
  Ledger s → wf (pool s) → length (jobs (pool s)) = length (tasks s) →
  tasks s2 = tasks s → pool s2 = pool s → log s2 = log s ++ l0 →
  Forall (λ eff, isDetailRequest eff = false) l0 →
  finish i s2 = Some s' → Ledger s'.
Proof.
  intros Hled Hwf Hlen Ht2 Hp2 Hl2 Hl0 Hfin.
  apply finish_inv in Hfin as (q & j & Hset & ->). rewrite Hp2 in Hset.
  apply settle_cases in Hset as (p & Hi & Hcase).
  pose proof (countEffects_none _ _ Hl0) as Hc0.
  assert (Forall (λ eff, match eff with
                         | Fetch (PlaylistItems c p) =>
                             ∃ t, t ∈ tasks s ∧ eff = Fetch (taskRequest t)
                         | _ => True
                         end) l0) as Hl0'.
  { eapply Forall_impl; [apply Hl0|]. by intros [[b|c p']| | |]. }
  pose proof (sum_list_with_insert requestsSpent _ i (settled (Fulfil tt)) _ Hi) as Hsi.
  pose proof (requestsSpent_le (Running p)) as Hp4. simpl in Hsi.
  destruct Hcase as [[-> Hjobs] | (h & -> & Hh & Hjobs)].
  - apply (ledger_transition s _ l0); simpl; rewrite ?Ht2; try done.
    + exists []. by rewrite app_nil_r.
    + intros i' t0 job' Ht0 Hj' Hnw. left. rewrite Hjobs in Hj'.
      destruct (decide (i' = i)) as [-> | Hne]; [by exists (Running p)|].
      rewrite list_lookup_insert_ne in Hj' by done. eauto.
    + rewrite Hjobs, Hc0. clear Hi. destruct p; simpl in *; lia.
  - pose proof (wf_head_waiting _ h Hwf Hh) as Hw.
    assert (h ≠ i) as Hne by (intros ->; congruence).
    assert (<[i := settled (Fulfil tt)]> (jobs (pool s)) !! h = Some Waiting) as Hw'.
    { by rewrite list_lookup_insert_ne. }
    pose proof (sum_list_with_insert requestsSpent _ h (Running started) _ Hw') as Hsh.
    simpl in Hsh.
    destruct (launch_cases (Some h) (setPool q s2))
      as [[-> Hnone] | (h' & t' & [= <-] & Ht' & ->)]; simpl in *.
    + apply (ledger_transition s _ l0); simpl; rewrite ?Ht2; try done.
      * exists []. by rewrite app_nil_r.
      * intros i' t0 job' Ht0 Hj' Hnw. left. rewrite Hjobs in Hj'.
        destruct (decide (i' = h)) as [-> | Hne']; [congruence|].
        rewrite list_lookup_insert_ne in Hj' by done.
        destruct (decide (i' = i)) as [-> | Hne'']; [by exists (Running p)|].
        rewrite list_lookup_insert_ne in Hj' by done. eauto.
      * rewrite Hjobs, Hc0. clear Hi. destruct p; simpl in *; lia.
    + rewrite Ht2 in Ht'.
      apply (ledger_transition s _ (l0 ++ [Fetch (taskRequest t')])); simpl; rewrite ?Ht2; try done.
      * exists []. by rewrite app_nil_r.
      * by rewrite Hl2, <- app_assoc.
      * apply Forall_app. split; [done|]. apply Forall_singleton.
        exists t'. split; [|done]. by eapply list_elem_of_lookup_2.
      * intros i' t0 job' Ht0 Hj' Hnw. rewrite Hjobs in Hj'.
        destruct (decide (i' = h)) as [-> | Hne'].
        -- right. simplify_eq. apply elem_of_app. right. by left.
        -- left. rewrite list_lookup_insert_ne in Hj' by done.
           destruct (decide (i' = i)) as [-> | Hne'']; [by exists (Running p)|].
           rewrite list_lookup_insert_ne in Hj' by done. eauto.
      * rewrite Hjobs, countEffects_app, Hc0. unfold countEffects. clear Hi.
        destruct p; simpl in *; lia.
Qed.

Lemma step_Ledger s0 s ev s' : Inv s0 s → Ledger s → step s ev = Some s' → Ledger s'.
Proof.
  intros Hinv Hled Hstep.
  apply step_inv in Hstep as (t & p & v & Hti & Hji & Hres & Happ).
  set (i := ev_task ev) in *.
  pose proof (inv_pool _ _ Hinv) as Hwf. pose proof (inv_len _ _ Hinv) as Hlen.
  destruct v as [p' eff | data | o e |]; simpl in Happ.
  - injection Happ as <-.
    pose proof (resume_spent _ _ _ _ _ Hres) as Hsp.
    apply resume_Suspend in Hres as [_ Heff].
    pose proof (sum_list_with_insert requestsSpent _ i (Running p') _ Hji) as Hsi.
    apply (ledger_transition s _ [eff]); simpl; try done.
    + exists []. by rewrite app_nil_r.
    + apply Forall_singleton. destruct Heff as [-> | [d ->]]; [|done].
      exists t. split; [by eapply list_elem_of_lookup_2 | done].
    + intros i' t0 job' Ht0 Hj' Hnw. left.
      destruct (decide (i' = i)) as [-> | Hne]; [by exists (Running p)|].
      rewrite list_lookup_insert_ne in Hj' by done. eauto.
    + unfold countEffects. simpl. lia.
  - injection Happ as <-.
    pose proof (sum_list_with_insert requestsSpent _ i (Running Storing) _ Hji) as Hsi.
    pose proof (requestsSpent_le (Running p)) as Hp4. simpl in Hsi.
    eapply (ledger_transition s _ [_; _]); simpl; try done.
    + exists []. by rewrite app_nil_r.
    + by rewrite <- app_assoc.
    + by repeat apply Forall_cons_2.
    + intros i' t0 job' Ht0 Hj' Hnw. left.
      destruct (decide (i' = i)) as [-> | Hne]; [by exists (Running p)|].
      rewrite list_lookup_insert_ne in Hj' by done. eauto.
    + unfold countEffects. clear Hji Hres. destruct p; simpl in *; lia.
  - unfold taskFailed in Happ.
    match type of Happ with finish _ ?s2 = _ =>
      apply (finish_Ledger s s2 i s' [DetailDone (task_channelId t) o]) end; try done.
    by apply Forall_singleton.
  - match type of Happ with finish _ ?s2 = _ =>
      apply (finish_Ledger s s2 i s' []) end; try done.
    simpl. by rewrite app_nil_r.
Qed.

Lemma scan_Ledger now net cache ids st bypass evs s :
  exec (fetchLastUploadDates now net cache ids st bypass) evs = Some s → Ledger s.
Proof.
  assert (∀ evs s1 s2, Inv (fetchLastUploadDates now net cache ids st bypass) s1 → Ledger s1 →
            exec s1 evs = Some s2 → Ledger s2) as H.
  { clear evs s. induction evs as [|ev evs IH]; intros s1 s2 Hinv Hl; simpl.
    - by intros [= <-].
    - destruct (step s1 ev) as [s'|] eqn:Hstep; [|done].
      apply IH; [by eapply step_Inv | by eapply step_Ledger]. }
  apply H; [apply startScan_Inv | apply startScan_Ledger].
Qed.
End Ledger.

(** ** How many requests a scan makes *)

Lemma callLog_count batch sleeps :
  countEffects isBatchRequest (callLog (Channels batch) sleeps) = length sleeps.
Proof.
  unfold countEffects. induction sleeps as [|d sleeps IH]; simpl; [done|]. by rewrite IH.
Qed.

Lemma resolveBatch_f_log net thr batch f :
  f_log (resolveBatch net thr batch f) =
  f_log f ++ Fetch (Channels batch) ::
             callLog (Channels batch) (Retry.sleeps (Retry.fetchJsonWithRetry net (f_sent f))).
Proof.
  unfold resolveBatch. rewrite RetryFacts.requests_sleeps.
  by destruct (Retry.outcome _) as [[data|]|e].
Qed.

Lemma resolveBatch_requests net thr batch f :
  countEffects isBatchRequest (f_log (resolveBatch net thr batch f)) =
  (countEffects isBatchRequest (f_log f) +
   Retry.requests (Retry.fetchJsonWithRetry net (f_sent f)))%nat.
Proof.
  rewrite resolveBatch_f_log, RetryFacts.requests_sleeps.
  rewrite (countEffects_app _ _ (_ :: _)).
  change (countEffects isBatchRequest (Fetch (Channels batch) :: ?l))
    with (S (countEffects isBatchRequest l)).
  by rewrite callLog_count.
Qed.

Lemma batches_requests net thr bs : ∀ f,
  let f' := foldl (λ f b, resolveBatch net thr b f) f bs in
  (countEffects isBatchRequest (f_log f) + length bs
     ≤ countEffects isBatchRequest (f_log f'))%nat ∧
  (countEffects isBatchRequest (f_log f')
     ≤ countEffects isBatchRequest (f_log f) + 4 * length bs)%nat.
Proof.
  induction bs as [|b bs IH]; intros f; simpl; [lia|].
  destruct (IH (resolveBatch net thr b f)) as [Hlo Hhi].
  rewrite resolveBatch_requests in Hlo, Hhi.
  destruct (RetryFacts.fetchJsonWithRetry_cases net (f_sent f)) as (k & Hk & _ & Hreq & _).
  rewrite Hreq in Hlo, Hhi. lia.
Qed.

Lemma batches_logged net thr bs : ∀ f eff,
  let f' := foldl (λ f b, resolveBatch net thr b f) f bs in
  (eff ∈ f_log f ∨ ∃ b, b ∈ bs ∧ eff = Fetch (Channels b)) → eff ∈ f_log f'.
Proof.
  induction bs as [|b bs IH]; intros f eff; simpl.
  - intros [? | (b & Hb & _)]; [done | by apply elem_of_nil in Hb].
  - intros H. apply IH. rewrite resolveBatch_f_log.
    destruct H as [? | (b' & Hb & ->)].
    + left. apply elem_of_app. by left.
    + apply elem_of_cons in Hb as [-> | Hb].
      * left. apply elem_of_app. right. by left.
      * right. by exists b'.
Qed.

(** The log of a scan: the batch calls, then the first request of each
    task started at once, then what the tasks did. *)
Lemma scan_log now net cache ids st bypass evs s :
  exec (fetchLastUploadDates now net cache ids st bypass) evs = Some s →
  let s0 := fetchLastUploadDates now net cache ids st bypass in
  ∃ l extra,
    log s = f_log (resolvePlaylistIds net (thresholdDays st)
                     (loadCache now cache st bypass ids).2
                     (loadCache now cache st bypass ids).1) ++ l ++ extra ∧
    Forall (λ eff, ∃ t, t ∈ tasks s0 ∧ eff = Fetch (taskRequest t)) l ∧
    Forall (taskEffect s0) extra.
Proof.
  intros Hex s0.
  destruct (inv_log _ _ (reach_Inv _ _ _ _ _ _ _ _ Hex)) as (extra & Hlog & Heff & _).
  destruct (sp_log _ _ _ (startScan_Spawned now net cache ids st bypass)) as (l & Hl & Hfor).
  exists l, extra. split; [|done]. fold s0 in Hlog, Hl. rewrite Hlog, Hl. simpl.
  by rewrite <- app_assoc.
Qed.

Lemma needPlaylistId_length now cache st bypass ids :
  (length (needPlaylistId (loadCache now cache st bypass ids).2) ≤ length ids)%nat.
Proof.
  unfold needPlaylistId. rewrite length_fmap. etrans; [apply length_filter|].
  rewrite loadCache_toFetch, length_fmap. apply length_filter.
Qed.

(** X3: a scan makes at least one and at most four [channels.list]
    requests per slice of 50 identifiers that lack a cached playlist id,
    and at most four [playlistItems.list] requests per task; there are no
    more such identifiers, and no more tasks, than identifiers submitted. *)
Theorem request_budget (now : Z) (net : nat → Response) (cache : gmap string CacheEntry)
    (ids : list string) (st : Settings) (bypass : bool) (evs : list Event) (s : Scan) :
  exec (fetchLastUploadDates now net cache ids st bypass) evs = Some s →
  let need := needPlaylistId (loadCache now cache st bypass ids).2 in
  (batchCount need ≤ countEffects isBatchRequest (log s))%nat ∧
  (countEffects isBatchRequest (log s) ≤ 4 * batchCount need)%nat ∧
  (countEffects isDetailRequest (log s) ≤ 4 * length (tasks s))%nat ∧
  (length need ≤ length ids)%nat ∧
  (length (tasks s) ≤ length ids)%nat.
Proof.
  intros Hex need.
  pose proof (reach_Inv _ _ _ _ _ _ _ _ Hex) as Hinv.
  destruct (scan_log _ _ _ _ _ _ _ _ Hex) as (l & extra & Hlog & Hl & Hextra).
  assert (countEffects isBatchRequest (log s) =
          countEffects isBatchRequest
            (f_log (resolvePlaylistIds net (thresholdDays st)
                      (loadCache now cache st bypass ids).2
                      (loadCache now cache st bypass ids).1))) as Hcount.
  { rewrite Hlog, !countEffects_app.
    rewrite (countEffects_none _ l), (countEffects_none _ extra); [lia | |].
    - eapply Forall_impl; [apply Hextra|]. by intros [[b|c p]| | |].
    - eapply Forall_impl; [apply Hl|]. by intros eff (t & _ & ->). }
  rewrite Hcount, resolvePlaylistIds_batches.
  match goal with |- context [foldl ?g ?f0 ?bs] =>
    pose proof (batches_requests net (thresholdDays st) bs f0) as [Hlo Hhi] end.
  simpl in Hlo, Hhi.
  assert (length (batches need) = batchCount need) as Hlen.
  { unfold batches. by rewrite length_fmap, length_seq. }
  fold need in Hlo, Hhi. rewrite Hlen in Hlo, Hhi.
  split; [done|]. split; [done|]. split; [|split].
  - pose proof (led_budget _ (scan_Ledger _ _ _ _ _ _ _ _ Hex)) as Hb.
    unfold withinBudget in Hb. etrans; [apply Hb|].
    rewrite <- (inv_len _ _ Hinv). apply requestsSpent_bound.
  - apply needPlaylistId_length.
  - rewrite (inv_tasks _ _ Hinv). apply startScan_tasks_length.
Qed.

Lemma request_budget_witness :
  let need := needPlaylistId (loadCache 1700000000000 demoCache (DEFAULTS "key") true
                                ["a"; "b"]).2 in
  (batchCount need ≤ countEffects isBatchRequest (log (endOf bypassScan bypassEvents)))%nat ∧
  (countEffects isBatchRequest (log (endOf bypassScan bypassEvents)) ≤ 4 * batchCount need)%nat ∧
  (countEffects isDetailRequest (log (endOf bypassScan bypassEvents))
     ≤ 4 * length (tasks (endOf bypassScan bypassEvents)))%nat ∧
  (length need ≤ length ["a"; "b"])%nat ∧
  (length (tasks (endOf bypassScan bypassEvents)) ≤ length ["a"; "b"])%nat.
Proof.
  apply (request_budget 1700000000000 demoNet demoCache ["a"; "b"] (DEFAULTS "key") true
           bypassEvents (endOf bypassScan bypassEvents)).
  vm_compute. reflexivity.
Defined.

(** ** Where tasks come from *)

Lemma spawn_origin M toFetch : ∀ s,
  (∀ t, t ∈ tasks (foldl (spawn M) s toFetch) → t ∈ tasks s ∨ taskOrigin M toFetch t) ∧
  (∀ c, results (foldl (spawn M) s toFetch) !! c = results s !! c ∨
        ∃ x, x ∈ toFetch ∧ channelId x = c ∧
             JsString.truthy (pickPlaylistId M x) = false).
Proof.
  induction toFetch as [|x toFetch IH]; intros s; simpl.
  - split; [by left | by left].
  - destruct (IH (spawn M s x)) as [Ht Hr]. split.
    + intros t Hin. destruct (Ht t Hin) as [Hold | (y & Hy & Horigin)].
      * unfold spawn in Hold. case_decide; [by left|].
        destruct (JsString.truthy (pickPlaylistId M x)) eqn:Htr; [|by left].
        unfold submit in Hold. destruct (Limiter.limit _ _) as [p j].
        rewrite launch_tasks in Hold. simpl in Hold.
        apply elem_of_app in Hold as [? | Hnew]; [by left|].
        apply list_elem_of_singleton in Hnew as ->. right.
        exists x. split; [by left|]. simpl. split; [done|].
        destruct (pickPlaylistId M x) as [pl|]; [|done]. simpl. split; [done|].
        by apply JsStringFacts.truthy_Some.
      * right. exists y. split; [by right | done].
    + intros c. destruct (Hr c) as [-> | (y & Hy & Hfalsy)].
      * unfold spawn. case_decide; [by left|].
        destruct (JsString.truthy (pickPlaylistId M x)) eqn:Htr.
        -- left. unfold submit. destruct (Limiter.limit _ _) as [p j].
           by rewrite launch_results.
        -- simpl. destruct (decide (c = channelId x)) as [-> | Hne].
           ++ right. exists x. split; [by left | done].
           ++ left. by rewrite lookup_insert_ne.
      * right. exists y. split; [by right | done].
Qed.

Lemma toFetch_missOf now cache st bypass ids x :
  x ∈ (loadCache now cache st bypass ids).2 →
  x = missOf cache (channelId x) ∧ channelId x ∈ ids ∧
  cacheHit now cache st bypass (channelId x) = false.
Proof.
  rewrite loadCache_toFetch. intros Hx.
  apply list_elem_of_fmap in Hx as (c & -> & Hc).
  apply list_elem_of_filter in Hc as [Hmiss Hin]. done.
Qed.

Lemma need_falsy now cache st bypass ids c :
  c ∈ needPlaylistId (loadCache now cache st bypass ids).2 ↔
  c ∈ ids ∧ cacheHit now cache st bypass c = false ∧
  JsString.truthy (cache !! cacheKey c ≫= uploadsPlaylistId) = false.
Proof.
  unfold needPlaylistId. rewrite list_elem_of_fmap. split.
  - intros (x & -> & Hx). apply list_elem_of_filter in Hx as [Hfalsy Hx].
    apply toFetch_missOf in Hx as (Heq & Hin & Hmiss).
    rewrite Heq in Hfalsy. done.
  - intros (Hin & Hmiss & Hfalsy). exists (missOf cache c). split; [done|].
    apply list_elem_of_filter. split; [done|].
    rewrite loadCache_toFetch. apply list_elem_of_fmap. exists c. split; [done|].
    by apply list_elem_of_filter.
Qed.

(** A miss with a usable cached playlist id goes straight to step 3. *)
Lemma miss_with_playlist now net cache ids st bypass c pl :
  c ∈ ids → cacheHit now cache st bypass c = false →
  cache !! cacheKey c ≫= uploadsPlaylistId = Some pl → pl ≠ "" →
  let s0 := fetchLastUploadDates now net cache ids st bypass in
  (c ∉ needPlaylistId (loadCache now cache st bypass ids).2) ∧
  results s0 !! c = None ∧
  (Forall ordinary ids → c ∈ channels s0) ∧
  ∀ t, t ∈ tasks s0 → task_channelId t = c → task_uploadsPlaylistId t = pl.
Proof.
  intros Hin Hmiss Hpl Hne s0.
  assert (JsString.truthy (cache !! cacheKey c ≫= uploadsPlaylistId) = true) as Htruthy.
  { rewrite Hpl. by apply JsStringFacts.truthy_Some. }
  assert (c ∉ needPlaylistId (loadCache now cache st bypass ids).2) as Hneed.
  { intros Hc. apply need_falsy in Hc as (_ & _ & Hfalsy). congruence. }
  assert (∀ M x, x ∈ (loadCache now cache st bypass ids).2 → channelId x = c →
            pickPlaylistId M x = Some pl) as Hpick.
  { intros M x Hx Hc. apply toFetch_missOf in Hx as (-> & _ & _). simpl in Hc. subst c.
    unfold pickPlaylistId, missOf. simpl. by rewrite Hpl. }
  pose proof (startScan_unfold now net cache ids st bypass) as Hs0. simpl in Hs0.
  fold s0 in Hs0.
  match type of Hs0 with _ = foldl (spawn ?M) ?s ?l =>
    destruct (spawn_origin M l s) as [Htasks Hres] end.
  rewrite <- Hs0 in Htasks, Hres.
  assert (results s0 !! c = None) as Hnone.
  { destruct (Hres c) as [-> | (x & Hx & Hc & Hfalsy)].
    - simpl.
      destruct (resolvePlaylistIds_marked net (thresholdDays st)
                  (loadCache now cache st bypass ids).2
                  (loadCache now cache st bypass ids).1) as [Hmarked _].
      destruct (Hmarked c) as [-> | [? _]]; [|done].
      rewrite loadCache_results. rewrite decide_False; [done|]. intros [_ ?]. congruence.
    - rewrite (Hpick _ x Hx Hc) in Hfalsy.
      apply JsStringFacts.truthy_Some in Hne. congruence. }
  split; [done|]. split; [done|]. split.
  - intros Hord.
    destruct (ordinary_covered now net cache ids st bypass c Hord Hin) as [Hdom | ?]; [|done].
    fold s0 in Hdom. by apply not_elem_of_dom in Hnone.
  - intros t Ht Hc. destruct (Htasks t Ht) as [Hnil | (x & Hx & Hcx & Hp & _)].
    + by apply elem_of_nil in Hnil.
    + rewrite (Hpick _ x Hx) in Hp by congruence. congruence.
Qed.

(** X4: when no submitted identifier is the name of a property of
    [Object.prototype], an identifier that is not answered from the cache
    but has a cached playlist id skips step 2: no [channels.list] request
    ever names it, it gets a task, every [playlistItems.list] request made
    for it uses the cached playlist id, and whatever result it gets comes
    from a detail fetch. *)
Theorem cached_playlist_skips_step2 (now : Z) (net : nat → Response)
    (cache : gmap string CacheEntry) (ids : list string) (st : Settings) (bypass : bool)
    (evs : list Event) (s : Scan) (c : string) (e : CacheEntry) (pl : string) :
  Forall ordinary ids →
  c ∈ ids →
  cacheHit now cache st bypass c = false →
  cache !! cacheKey c = Some e →
  uploadsPlaylistId e = Some pl →
  pl ≠ "" →
  exec (fetchLastUploadDates now net cache ids st bypass) evs = Some s →
  Forall (λ eff, ∀ batch, eff = Fetch (Channels batch) → c ∉ batch) (log s) ∧
  c ∈ channels s ∧
  (∀ t, t ∈ tasks s → task_channelId t = c → task_uploadsPlaylistId t = pl) ∧
  Forall (λ eff, ∀ p, eff = Fetch (PlaylistItems c p) → p = pl) (log s) ∧
  (∀ r, results s !! c = Some r → ∃ o, DetailDone c o ∈ log s).
Proof.
  intros Hord Hin Hmiss He Hpl Hne Hex.
  assert (cache !! cacheKey c ≫= uploadsPlaylistId = Some pl) as Hcached.
  { by rewrite He. }
  destruct (miss_with_playlist now net cache ids st bypass c pl Hin Hmiss Hcached Hne)
    as (Hneed & Hnone & Hchan & Htasks).
  specialize (Hchan Hord).
  pose proof (reach_Inv _ _ _ _ _ _ _ _ Hex) as Hinv.
  destruct (scan_log _ _ _ _ _ _ _ _ Hex) as (l & extra & Hlog & Hl & Hextra).
  split; [|split; [|split; [|split]]].
  - rewrite Hlog. repeat apply Forall_app_2.
    + destruct (resolvePlaylistIds_marked net (thresholdDays st)
                  (loadCache now cache st bypass ids).2
                  (loadCache now cache st bypass ids).1) as [_ Hbatch].
      eapply Forall_impl; [apply Hbatch|].
      intros eff Heff batch ->. simpl in Heff. intros Hc. by apply Hneed, Heff.
    + eapply Forall_impl; [apply Hl|]. by intros eff (t & _ & ->) batch.
    + eapply Forall_impl; [apply Hextra|]. by intros eff Heff batch ->.
  - unfold channels. by rewrite (inv_tasks _ _ Hinv).
  - rewrite (inv_tasks _ _ Hinv). apply Htasks.
  - pose proof (led_requests _ (scan_Ledger _ _ _ _ _ _ _ _ Hex)) as Hreq.
    eapply Forall_impl; [apply Hreq|]. intros eff Heff p ->.
    destruct Heff as (t & Ht & [= Hc Hp]). rewrite Hp.
    apply Htasks; [by rewrite <- (inv_tasks _ _ Hinv) | done].
  - intros r Hr. destruct (inv_log _ _ Hinv) as (extra' & Hlog' & _ & _ & _ & Hlast).
    specialize (Hlast c). destruct (lastDetail c extra') as [o|] eqn:Ho.
    + exists o. rewrite Hlog'. apply elem_of_app. right. by apply lastDetail_In.
    + simpl in Hlast. congruence.
Qed.

Lemma cached_playlist_skips_step2_witness :
  Forall (λ eff, ∀ batch, eff = Fetch (Channels batch) → "a" ∉ batch)
    (log (endOf bypassScan bypassEvents)) ∧
  "a" ∈ channels (endOf bypassScan bypassEvents) ∧
  (∀ t, t ∈ tasks (endOf bypassScan bypassEvents) → task_channelId t = "a" →
        task_uploadsPlaylistId t = "UUa") ∧
  Forall (λ eff, ∀ p, eff = Fetch (PlaylistItems "a" p) → p = "UUa")
    (log (endOf bypassScan bypassEvents)) ∧
  (∀ r, results (endOf bypassScan bypassEvents) !! "a" = Some r →
        ∃ o, DetailDone "a" o ∈ log (endOf bypassScan bypassEvents)).
Proof.
  apply (cached_playlist_skips_step2 1700000000000 demoNet demoCache ["a"; "b"]
           (DEFAULTS "key") true bypassEvents (endOf bypassScan bypassEvents) "a"
           {| uploadsPlaylistId := Some "UUa";
              lastUploadAt := Some 1699000000000;
              lastCheckedAt := 1699990000000 |} "UUa").
  - apply (bool_decide_unpack _). vm_compute. exact I.
  - left.
  - reflexivity.
  - reflexivity.
  - reflexivity.
  - discriminate.
  - vm_compute. reflexivity.
Defined.

(** ** Every miss costs a request *)

Lemma elem_of_concat {A} (x : A) (ls : list (list A)) :
  x ∈ concat ls ↔ ∃ l, l ∈ ls ∧ x ∈ l.
Proof.
  induction ls as [|l ls IH]; simpl.
  - split; [intros H; by apply elem_of_nil in H | intros (l & Hl & _); by apply elem_of_nil in Hl].
  - rewrite elem_of_app, IH. split.
    + intros [Hx | (l' & Hl' & Hx)]; [exists l; split; [by left | done]|].
      exists l'. split; [by right | done].
    + intros (l' & Hl' & Hx). apply elem_of_cons in Hl' as [-> | Hl']; [by left|].
      right. by exists l'.
Qed.

(** X5: when no submitted identifier is the name of a property of
    [Object.prototype], by the time a scan returns at least one request
    has been made for every identifier that was not answered from the
    cache, a [channels.list] request naming it or a [playlistItems.list]
    request for it; with bypassCache = true that is every identifier
    submitted. *)
Theorem miss_is_requested (now : Z) (net : nat → Response) (cache : gmap string CacheEntry)
    (ids : list string) (st : Settings) (bypass : bool) (evs : list Event) (s : Scan)
    (c : string) :
  Forall ordinary ids →
  exec (fetchLastUploadDates now net cache ids st bypass) evs = Some s →
  returned s = true →
  c ∈ ids →
  bypass = true ∨ cacheHit now cache st bypass c = false →
  Exists (requestFor c) (log s).
Proof.
  intros Hord Hex Hret Hin Hmiss.
  assert (cacheHit now cache st bypass c = false) as Hm.
  { destruct Hmiss as [-> | ?]; done. }
  clear Hmiss. apply Exists_exists.
  pose proof (reach_Inv _ _ _ _ _ _ _ _ Hex) as Hinv.
  destruct (JsString.truthy (cache !! cacheKey c ≫= uploadsPlaylistId)) eqn:Htruthy.
  - destruct (cache !! cacheKey c ≫= uploadsPlaylistId) as [pl|] eqn:Hpl; [|done].
    apply JsStringFacts.truthy_Some in Htruthy.
    destruct (miss_with_playlist now net cache ids st bypass c pl Hin Hm Hpl Htruthy)
      as (_ & _ & Hchan & _).
    specialize (Hchan Hord). unfold channels in Hchan. rewrite <- (inv_tasks _ _ Hinv) in Hchan.
    apply list_elem_of_fmap in Hchan as (t & -> & Ht).
    apply list_elem_of_lookup in Ht as [i Hi].
    destruct (lookup_lt_is_Some_2 (Limiter.jobs (pool s)) i) as [job Hjob].
    { rewrite (inv_len _ _ Hinv). by eapply lookup_lt_Some. }
    exists (Fetch (taskRequest t)). split; [|done].
    apply (led_started _ (scan_Ledger _ _ _ _ _ _ _ _ Hex) i t job Hi Hjob).
    intros ->. unfold returned in Hret.
    assert (Limiter.isSettled (Limiter.Waiting : Limiter.Job Progress unit string) = true)
      as Hset; [|done].
    eapply (proj1 (forallb_forall _ _) Hret). apply list_elem_of_In.
    by eapply list_elem_of_lookup_2.
  - assert (c ∈ needPlaylistId (loadCache now cache st bypass ids).2) as Hneed.
    { by apply need_falsy. }
    rewrite <- batches_concat in Hneed. apply elem_of_concat in Hneed as (b & Hb & Hc).
    exists (Fetch (Channels b)). split; [|done].
    destruct (scan_log _ _ _ _ _ _ _ _ Hex) as (l & extra & -> & _).
    apply elem_of_app. left. rewrite resolvePlaylistIds_batches.
    apply batches_logged. right. by exists b.
Qed.

Lemma miss_is_requested_witness :
  Exists (requestFor "b") (log (endOf bypassScan bypassEvents)).
Proof.
  apply (miss_is_requested 1700000000000 demoNet demoCache ["a"; "b"] (DEFAULTS "key") true
           bypassEvents (endOf bypassScan bypassEvents) "b").
  - apply (bool_decide_unpack _). vm_compute. exact I.
  - vm_compute. reflexivity.
  - vm_compute. reflexivity.
  - right. left.
  - by left.
Defined.

(** ** The limiter at its limits *)

Section Capacity.
Import Limiter.
Context {P V E : Type} (start : P).
Implicit Types s : State P V E.

Lemma running_inFlight s i p : jobs s !! i = Some (Running p) → (1 ≤ inFlight s)%nat.
Proof.
  intros Hi.
  pose proof (LimiterFacts.inFlight_insert s i (Running p) Waiting 0 0 [] Hi) as H.
  simpl in H. lia.
Qed.

(** A job waits only while the limiter is full. *)
Lemma waiting_full s i :
  wf s → 1 ≤ concurrency s → jobs s !! i = Some Waiting →
  Z.of_nat (inFlight s) = concurrency s.
Proof.
  intros [(Hact & Hcap & k & [Hk Hpre] & Hq) Hfull] Hc Hi.
  pose proof (proj1 (Hpre i _ Hi) eq_refl) as Hki.
  pose proof (lookup_lt_Some _ _ _ Hi) as Hlt.
  assert (queue s ≠ []) as Hne.
  { rewrite Hq. destruct (length (jobs s) - k)%nat eqn:Hn; [lia | done]. }
  specialize (Hfull Hne). lia.
Qed.

(** The queue holds the waiting jobs, and only them. *)
Lemma queue_waiting s i : wf s → i ∈ queue s ↔ jobs s !! i = Some Waiting.
Proof.
  intros [(_ & _ & k & [Hk Hpre] & Hq) _]. rewrite Hq, elem_of_seq. split.
  - intros [Hki Hlt].
    destruct (lookup_lt_is_Some_2 (jobs s) i) as [job Hjob]; [lia|].
    pose proof (proj2 (Hpre i job Hjob) Hki). rewrite Hjob. by destruct job.
  - intros Hi. pose proof (proj1 (Hpre i _ Hi) eq_refl).
    pose proof (lookup_lt_Some _ _ _ Hi). lia.
Qed.

(** Without capacity nothing ever starts. *)
Lemma run_starved ops : ∀ s s',
  concurrency s ≤ 0 → active s = 0 → Forall (λ j, j = Waiting) (jobs s) →
  run start s ops = Some s' →
  Forall (λ op, op = Submit) ops ∧ active s' = 0 ∧ Forall (λ j, j = Waiting) (jobs s').
Proof.
  induction ops as [|op ops IH]; intros s s' Hc Ha Hw; simpl.
  - by intros [= <-].
  - assert (∀ i p, jobs s !! i ≠ Some (Running p)) as Hnone.
    { intros i p Hi. apply list_elem_of_lookup_2 in Hi.
      by apply (proj1 (Forall_forall _ _) Hw) in Hi. }
    destruct op as [| i o | i p]; simpl.
    + unfold limit, next. simpl.
      destruct (queue s ++ [length (jobs s)]) as [|h rest] eqn:Hq.
      { by destruct (queue s). }
      destruct (Z.leb_spec (concurrency s) (active s)) as [_ | Hlt]; [|lia].
      simpl. intros Hrun. apply IH in Hrun as (Hops & Ha' & Hw'); simpl; try done.
      * split; [by apply Forall_cons_2 | done].
      * apply Forall_app. split; [done|]. by apply Forall_singleton.
    + unfold settle. destruct (jobs s !! i) as [[| p | |]|] eqn:Hi; try done.
      by apply Hnone in Hi.
    + destruct (jobs s !! i) as [[| p0 | |]|] eqn:Hi; try done.
      by apply Hnone in Hi.
Qed.
End Capacity.

Lemma waiting_spent (js : list (Limiter.Job Progress unit string)) :
  Forall (λ j, j = Limiter.Waiting) js → sum_list_with requestsSpent js = 0%nat.
Proof. induction 1 as [|j js -> _ IH]; simpl; done. Qed.

(** X6: a limiter is work-conserving: its queue holds exactly the jobs
    that wait, and while a job waits the number of jobs in flight is
    exactly the capacity (at least 1).  In a scan, while a task waits
    exactly [concurrency] detail fetches are in flight. *)
Theorem limiter_work_conserving (now : Z) (net : nat → Response)
    (cache : gmap string CacheEntry) (ids : list string) (st : Settings) (bypass : bool)
    (evs : list Event) (sc : Scan)
    (P V E : Type) (start : P) (N : Z) (ops : list (Limiter.Op P V E))
    (s : Limiter.State P V E) :
  1 ≤ N → 1 ≤ concurrency st →
  Limiter.run start (Limiter.createLimiter N) ops = Some s →
  exec (fetchLastUploadDates now net cache ids st bypass) evs = Some sc →
  (∀ i, i ∈ Limiter.queue s ↔ Limiter.jobs s !! i = Some Limiter.Waiting) ∧
  (∀ i, Limiter.jobs s !! i = Some Limiter.Waiting → Z.of_nat (Limiter.inFlight s) = N) ∧
  (∀ i, Limiter.jobs (pool sc) !! i = Some Limiter.Waiting →
        Z.of_nat (detailsInFlight sc) = concurrency st).
Proof.
  intros HN Hconc Hrun Hex.
  pose proof (LimiterFacts.run_wf start ops _ _ (LimiterFacts.createLimiter_wf N) Hrun) as Hwf.
  pose proof (LimiterFacts.run_concurrency start ops _ _ Hrun) as HcN. simpl in HcN.
  split; [|split].
  - intros i. by apply queue_waiting.
  - intros i Hi. rewrite <- HcN. apply (waiting_full s i); [done | by rewrite HcN | done].
  - intros i Hi. pose proof (reach_Inv _ _ _ _ _ _ _ _ Hex) as Hinv.
    rewrite <- (startScan_concurrency now net cache ids st bypass), <- (inv_conc _ _ Hinv).
    apply (waiting_full (pool sc) i); [apply (inv_pool _ _ Hinv) | | done].
    by rewrite (inv_conc _ _ Hinv), startScan_concurrency.
Qed.

Lemma limiter_work_conserving_witness :
  (∀ i, i ∈ Limiter.queue narrowLimiter ↔
        Limiter.jobs narrowLimiter !! i = Some Limiter.Waiting) ∧
  (∀ i, Limiter.jobs narrowLimiter !! i = Some Limiter.Waiting →
        Z.of_nat (Limiter.inFlight narrowLimiter) = 1) ∧
  (∀ i, Limiter.jobs (pool (endOf narrowScan [])) !! i = Some Limiter.Waiting →
        Z.of_nat (detailsInFlight (endOf narrowScan [])) = concurrency (withConcurrency 1)).
Proof.
  apply (limiter_work_conserving 1700000000000 demoNet handleCache ["a"; "b"; "c"]
           (withConcurrency 1) false [] (endOf narrowScan [])
           nat unit string 0%nat 1 submitThree narrowLimiter).
  - lia.
  - simpl. lia.
  - reflexivity.
  - reflexivity.
Defined.

(** X7: with a capacity of 0 or less a limiter never starts a job: every
    job it is given waits, and none can be stepped or finished.  A scan
    with such a concurrency setting makes no [playlistItems.list] request
    and takes no turn of the event loop, so if it has a task it never
    returns. *)
Theorem starved_without_capacity (now : Z) (net : nat → Response)
    (cache : gmap string CacheEntry) (ids : list string) (st : Settings) (bypass : bool)
    (evs : list Event) (sc : Scan)
    (P V E : Type) (start : P) (N : Z) (ops : list (Limiter.Op P V E))
    (s : Limiter.State P V E) :
  N ≤ 0 → concurrency st ≤ 0 →
  Limiter.run start (Limiter.createLimiter N) ops = Some s →
  exec (fetchLastUploadDates now net cache ids st bypass) evs = Some sc →
  (Forall (λ op, op = Limiter.Submit) ops ∧
   Limiter.inFlight s = 0%nat ∧
   Forall (λ j, j = Limiter.Waiting) (Limiter.jobs s) ∧
   length (Limiter.jobs s) = length ops) ∧
  (evs = [] ∧
   countEffects isDetailRequest (log sc) = 0%nat ∧
   (tasks sc ≠ [] → returned sc = false) ∧
   ∀ ev, step sc ev = None).
Proof.
  intros HN Hconc Hrun Hex. split.
  - destruct (run_starved start ops (Limiter.createLimiter N) s HN eq_refl (Forall_nil_2 _) Hrun)
      as (Hops & Ha & Hw).
    split; [done|]. split; [|split; [done|]].
    + unfold Limiter.inFlight. induction Hw as [|j js -> _ IH]; simpl; [done|]. done.
    + clear Ha Hw.
      assert (∀ ops (q q' : Limiter.State P V E),
                Forall (λ op, op = Limiter.Submit) ops →
                Limiter.run start q ops = Some q' →
                length (Limiter.jobs q') = (length (Limiter.jobs q) + length ops)%nat) as Hlen.
      { clear. induction ops as [|op ops IH]; intros q q' Hops; simpl.
        - intros [= <-]. lia.
        - apply Forall_cons in Hops as [-> Hops]. simpl. intros Hrun.
          rewrite (IH _ _ Hops Hrun). unfold Limiter.limit, Limiter.next. simpl.
          destruct (Limiter.queue q ++ _) as [|h rest]; simpl.
          + rewrite length_app. simpl. lia.
          + destruct (_ <=? _); simpl; rewrite ?length_insert, length_app; simpl; lia. }
      by rewrite (Hlen _ _ _ Hops Hrun).
  - set (s0 := fetchLastUploadDates now net cache ids st bypass) in *.
    destruct (startScan_Sync now net cache ids st bypass) as [Hwf Hlen Hjobs].
    fold s0 in Hwf, Hlen, Hjobs.
    assert (∀ i job, Limiter.jobs (pool s0) !! i = Some job → job = Limiter.Waiting) as Hwait.
    { intros i job Hi. destruct (Hjobs i job Hi) as [-> | ->]; [done|].
      apply running_inFlight in Hi.
      destruct Hwf as [(Hact & Hcap & _) _].
      pose proof (startScan_concurrency now net cache ids st bypass) as Hc. fold s0 in Hc.
      lia. }
    assert (∀ ev, step s0 ev = None) as Hstuck.
    { intros ev. unfold step. destruct (tasks s0 !! ev_task ev) as [t|]; [|done].
      destruct (Limiter.jobs (pool s0) !! ev_task ev) as [job|] eqn:Hi; [|done].
      by rewrite (Hwait _ _ Hi). }
    assert (evs = [] ∧ sc = s0) as [-> ->].
    { destruct evs as [|ev evs]; simpl in Hex; [by injection Hex as <-|].
      by rewrite Hstuck in Hex. }
    split; [done|]. split; [|split; [|done]].
    + pose proof (led_budget _ (startScan_Ledger now net cache ids st bypass)) as Hb.
      fold s0 in Hb. unfold withinBudget in Hb.
      rewrite waiting_spent in Hb; [lia|].
      apply Forall_lookup. intros i job Hi. by eapply Hwait.
    + intros Hne. unfold returned.
      destruct (Limiter.jobs (pool s0)) as [|j js] eqn:Hj.
      * simpl in Hlen. by destruct (tasks s0).
      * by rewrite (Hwait 0%nat j eq_refl).
Qed.

Lemma starved_without_capacity_witness :
  (Forall (λ op, op = Limiter.Submit) submitThree ∧
   Limiter.inFlight starvedLimiter = 0%nat ∧
   Forall (λ j, j = Limiter.Waiting) (Limiter.jobs starvedLimiter) ∧
   length (Limiter.jobs starvedLimiter) = length submitThree) ∧
  (([] : list Event) = [] ∧
   countEffects isDetailRequest (log (endOf starvedScan [])) = 0%nat ∧
   (tasks (endOf starvedScan []) ≠ [] → returned (endOf starvedScan []) = false) ∧
   ∀ ev, step (endOf starvedScan []) ev = None).
Proof.
  apply (starved_without_capacity 1700000000000 demoNet handleCache ["a"; "b"; "c"]
           (withConcurrency 0) false [] (endOf starvedScan [])
           nat unit string 0%nat 0 submitThree starvedLimiter).
  - lia.
  - simpl. lia.
  - reflexivity.
  - reflexivity.
Defined.

(** ** Distinct identifiers *)

Lemma setAdd_fold l : ∀ acc,
  NoDup acc →
  NoDup (foldl setAdd acc l) ∧ ∀ x, x ∈ foldl setAdd acc l ↔ x ∈ acc ∨ x ∈ l.
Proof.
  induction l as [|a l IH]; intros acc Hnd; simpl.
  - split; [done|]. intros x. split; [by left|]. intros [? | Hx]; [done|].
    by apply elem_of_nil in Hx.
  - destruct (IH (setAdd acc a)) as [Hnd' Hel].
    { unfold setAdd. case_decide as Hin; [done|]. apply NoDup_app. split; [done|].
      split; [|apply NoDup_singleton].
      intros x Hx Hx'. apply list_elem_of_singleton in Hx' as ->. done. }
    split; [done|]. intros x. rewrite Hel, elem_of_cons. unfold setAdd.
    case_decide as Hin.
    + split; [tauto|]. intros [? | [-> | ?]]; tauto.
    + rewrite elem_of_app, list_elem_of_singleton. tauto.
Qed.

Lemma uniqueIds_NoDup l : NoDup (uniqueIds l).
Proof. apply (setAdd_fold l []). apply NoDup_nil_2. Qed.

Lemma uniqueIds_elem l x : x ∈ uniqueIds l ↔ x ∈ l.
Proof.
  unfold uniqueIds. rewrite (proj2 (setAdd_fold l [] (NoDup_nil_2))).
  split; [|by right]. intros [Hx | ?]; [|done]. by apply elem_of_nil in Hx.
Qed.

Lemma uniqueIds_fixed l : ∀ acc, NoDup (acc ++ l) → foldl setAdd acc l = acc ++ l.
Proof.
  induction l as [|a l IH]; intros acc Hnd; simpl; [by rewrite app_nil_r|].
  unfold setAdd at 2. apply NoDup_app in Hnd as Hnd'. destruct Hnd' as (_ & Hdisj & _).
  rewrite decide_False by (intros Hin; apply (Hdisj a Hin); by left).
  rewrite IH; rewrite <- app_assoc; done.
Qed.

Section Distinct.
Import Limiter.

Lemma spawn_channels M s x :
  channels (spawn M s x) = channels s ∨ channels (spawn M s x) = channels s ++ [channelId x].
Proof.
  unfold spawn. case_decide; [by left|].
  destruct (JsString.truthy _); [|by left]. right.
  unfold submit. destruct (limit _ _) as [p j]. unfold channels.
  rewrite launch_tasks. simpl. by rewrite fmap_app.
Qed.

Lemma spawn_NoDup M toFetch : ∀ s,
  NoDup (channels s ++ (channelId <$> toFetch)) →
  NoDup (channels (foldl (spawn M) s toFetch)).
Proof.
  induction toFetch as [|x toFetch IH]; intros s Hnd; simpl.
  - by rewrite app_nil_r in Hnd.
  - apply IH. rewrite fmap_cons in Hnd.
    destruct (spawn_channels M s x) as [-> | ->].
    + rewrite <- Permutation_middle in Hnd. by apply NoDup_cons in Hnd as [_ ?].
    + by rewrite <- app_assoc.
Qed.

Lemma startScan_NoDup now net cache ids st bypass :
  NoDup ids → NoDup (channels (fetchLastUploadDates now net cache ids st bypass)).
Proof.
  intros Hnd. rewrite startScan_unfold. simpl. apply spawn_NoDup. simpl.
  rewrite loadCache_toFetch, <- list_fmap_compose.
  change (channelId ∘ missOf cache) with (@id string).
  rewrite list_fmap_id. by apply NoDup_filter.
Qed.

Lemma countEffects_cons f eff l :
  countEffects f (eff :: l) = ((if f eff then 1 else 0) + countEffects f l)%nat.
Proof. done. Qed.

Lemma isDetailOf_launch (c : string) j s2 :
  countEffects (isDetailOf c) (log (launch j s2)) = countEffects (isDetailOf c) (log s2).
Proof.
  destruct (launch_cases j s2) as [[-> _] | (h & t & _ & _ & ->)]; [done|].
  simpl. rewrite countEffects_app. unfold countEffects at 2. simpl. lia.
Qed.

Lemma startScan_Once now net cache ids st bypass :
  Once (fetchLastUploadDates now net cache ids st bypass).
Proof.
  intros i t job Hi Hjob.
  destruct (sync_jobs _ (startScan_Sync now net cache ids st bypass) i job Hjob) as [-> | ->];
    simpl; apply countEffects_none;
    (eapply Forall_impl; [apply (startScan_log now net cache ids st bypass)|]);
    by intros [[b|c p]| | |].
Qed.

Lemma resume_outcome t p c v :
  resume t p c = Some v →
  match v with
  | Suspend p' _ => hasOutcome (Running p) = false ∧ hasOutcome (Running p') = false
  | Fetched _ | Caught _ _ => hasOutcome (Running p) = false
  | Finished => hasOutcome (Running p) = true
  end.
Proof.
  unfold resume. destruct p as [a d | a d |], c as [r | |]; try done.
  - destruct (Retry.afterFetch _ _ _) as [[[data|]|e]|]; by intros [= <-].
  - destruct (S a <=? Retry.maxRetries)%nat; by intros [= <-].
  - by intros [= <-].
Qed.

(** The job of another task after a settlement: as before, or started. *)
Lemma settle_other (q q' : Pool) i o j i' job' :
  wf q → settle started i o q = Some (q', j) → i' ≠ i → jobs q' !! i' = Some job' →
  ∃ job, jobs q !! i' = Some job ∧ hasOutcome job' = hasOutcome job.
Proof.
  intros Hwf Hset Hne Hj'.
  destruct (LimiterFacts.settle_effect started q i o q' j Hwf Hset) as (Hj & _ & Hother).
  rewrite (Hother i' Hne) in Hj'. case_decide as Hd.
  - injection Hj' as <-. rewrite Hj in Hd.
    exists Waiting. split; [by apply wf_head_waiting | done].
  - by exists job'.
Qed.

Lemma step_Once s0 s ev s' :
  Inv s0 s → NoDup (channels s) → Once s → step s ev = Some s' → Once s'.
Proof.
  intros Hinv Hnd Honce Hstep.
  apply step_inv in Hstep as (t & p & v & Hti & Hji & Hres & Happ).
  set (i := ev_task ev) in *.
  pose proof (inv_pool _ _ Hinv) as Hwf.
  pose proof (resume_outcome _ _ _ _ Hres) as Hout.
  pose proof (Honce i t _ Hti Hji) as Hmine.
  assert (∀ i' t', i' ≠ i → tasks s !! i' = Some t' →
            isDetailOf (task_channelId t') (DetailDone (task_channelId t) (Returned None))
            = false) as Hother.
  { intros i' t' Hne Hi'. simpl. apply bool_decide_eq_false. intros Heq.
    apply Hne. eapply (NoDup_lookup (channels s)); [done | |].
    - unfold channels. by rewrite list_lookup_fmap, Hi'.
    - unfold channels. rewrite list_lookup_fmap, Hti. simpl. by rewrite Heq. }
  destruct v as [p' eff | data | o e |]; simpl in Happ.
  - injection Happ as <-. destruct Hout as [Hp Hp'].
    apply resume_Suspend in Hres as [_ Heff].
    intros i' t' job' Hi' Hj'. simpl in Hi', Hj' |- *.
    rewrite countEffects_app.
    replace (countEffects (isDetailOf (task_channelId t')) [eff]) with 0%nat
      by (by destruct Heff as [-> | [d ->]]).
    rewrite Nat.add_0_r.
    destruct (decide (i' = i)) as [-> | Hne].
    + rewrite list_lookup_insert_eq in Hj' by (by eapply lookup_lt_Some).
      injection Hj' as <-. simplify_eq. rewrite Hmine, Hp, Hp'. done.
    + rewrite list_lookup_insert_ne in Hj' by done. by apply (Honce i' t' job').
  - injection Happ as <-.
    intros i' t' job' Hi' Hj'. simpl in Hi', Hj' |- *.
    rewrite <- app_assoc. simpl. rewrite countEffects_app, !countEffects_cons. simpl.
    destruct (decide (i' = i)) as [-> | Hne].
    + rewrite list_lookup_insert_eq in Hj' by (by eapply lookup_lt_Some).
      injection Hj' as <-. simplify_eq. rewrite Hmine, Hout.
      rewrite bool_decide_eq_true_2 by done. done.
    + rewrite list_lookup_insert_ne in Hj' by done.
      pose proof (Hother i' t' Hne Hi') as Hno. simpl in Hno. rewrite Hno.
      rewrite (Honce i' t' job' Hi' Hj'). unfold countEffects. simpl. lia.
  - unfold taskFailed in Happ. apply finish_inv in Happ as (q & j & Hset & ->).
    simpl in Hset.
    intros i' t' job' Hi' Hj'. rewrite launch_tasks in Hi'. rewrite launch_pool in Hj'.
    simpl in Hi', Hj'. rewrite isDetailOf_launch. simpl.
    rewrite countEffects_app, !countEffects_cons. simpl.
    destruct (decide (i' = i)) as [-> | Hne].
    + destruct (LimiterFacts.settle_effect started (pool s) i _ q j Hwf Hset) as (_ & Hi & _).
      rewrite Hi in Hj'. injection Hj' as <-. simplify_eq. rewrite Hmine, Hout.
      rewrite bool_decide_eq_true_2 by done. done.
    + destruct (settle_other _ _ _ _ _ _ _ Hwf Hset Hne Hj') as (job & Hjob & ->).
      pose proof (Hother i' t' Hne Hi') as Hno. simpl in Hno. rewrite Hno.
      rewrite (Honce i' t' job Hi' Hjob). unfold countEffects. simpl. lia.
  - apply finish_inv in Happ as (q & j & Hset & ->). simpl in Hset.
    intros i' t' job' Hi' Hj'. rewrite launch_tasks in Hi'. rewrite launch_pool in Hj'.
    simpl in Hi', Hj'. rewrite isDetailOf_launch. simpl.
    destruct (decide (i' = i)) as [-> | Hne].
    + destruct (LimiterFacts.settle_effect started (pool s) i _ q j Hwf Hset) as (_ & Hi & _).
      rewrite Hi in Hj'. injection Hj' as <-. simplify_eq. by rewrite Hmine, Hout.
    + destruct (settle_other _ _ _ _ _ _ _ Hwf Hset Hne Hj') as (job & Hjob & ->).
      by apply (Honce i' t' job).
Qed.

Lemma scan_Once now net cache ids st bypass evs s :
  NoDup ids →
  exec (fetchLastUploadDates now net cache ids st bypass) evs = Some s → Once s.
Proof.
  intros Hnd.
  assert (∀ evs s1 s2, Inv (fetchLastUploadDates now net cache ids st bypass) s1 → Once s1 →
            exec s1 evs = Some s2 → Once s2) as H.
  { clear evs s. induction evs as [|ev evs IH]; intros s1 s2 Hinv Ho; simpl.
    - by intros [= <-].
    - destruct (step s1 ev) as [s'|] eqn:Hstep; [|done].
      apply IH; [by eapply step_Inv|]. eapply step_Once; try done.
      unfold channels. rewrite (inv_tasks _ _ Hinv). by apply startScan_NoDup. }
  apply H; [apply startScan_Inv | apply startScan_Once].
Qed.

(** If a log holds at most one outcome for [c], that one is the last. *)
Lemma single_lastDetail c l o :
  (countEffects (isDetailOf c) l ≤ 1)%nat → DetailDone c o ∈ l → lastDetail c l = Some o.
Proof.
  induction l as [|eff l IH]; intros Hcount Hin; [by apply elem_of_nil in Hin|].
  rewrite countEffects_cons in Hcount.
  change (eff :: l) with ([eff] ++ l). rewrite lastDetail_app.
  apply elem_of_cons in Hin as [<- | Hin].
  - simpl in Hcount. rewrite bool_decide_eq_true_2 in Hcount by done.
    rewrite lastDetail_None.
    + unfold lastDetail. simpl. by rewrite decide_True.
    + intros o' Hin. apply list_elem_of_split in Hin as (l1 & l2 & ->).
      rewrite countEffects_app, countEffects_cons in Hcount. simpl in Hcount.
      rewrite bool_decide_eq_true_2 in Hcount by done. lia.
  - rewrite IH; [done | | done]. destruct (isDetailOf c eff); lia.
Qed.
End Distinct.

(** X8: when the identifiers submitted are distinct, as the content script
    submits them, each has at most one task and so at most one detail
    fetch: if that fetch fails, the identifier's result is the failure,
    no cache entry is written for it, and its cache entry is the one from
    before the scan. *)
Theorem failed_detail_distinct_ids (now : Z) (net : nat → Response)
    (cache : gmap string CacheEntry) (ids : list string) (st : Settings) (bypass : bool)
    (evs : list Event) (s : Scan) (c : string) (e : JsError) :
  NoDup ids →
  exec (fetchLastUploadDates now net cache ids st bypass) evs = Some s →
  DetailDone c (Thrown e) ∈ log s →
  NoDup (channels s) ∧
  (∀ o, DetailDone c o ∈ log s → o = Thrown e) ∧
  results s !! c = Some (Failed (classify e) (message e) (thresholdDays st)) ∧
  (∀ entry, CacheSet c entry ∉ log s) ∧
  storage s !! cacheKey c = cache !! cacheKey c.
Proof.
  intros Hnd Hex Hin.
  pose proof (reach_Inv _ _ _ _ _ _ _ _ Hex) as Hinv.
  destruct (inv_log _ _ Hinv) as (extra & Hlog & Heff & Hset & Hsto & Hsettled).
  assert (NoDup (channels s)) as Hnds.
  { unfold channels. rewrite (inv_tasks _ _ Hinv). by apply startScan_NoDup. }
  assert (DetailDone c (Thrown e) ∈ extra) as Hin'.
  { rewrite Hlog in Hin. apply elem_of_app in Hin as [Hin | ?]; [|done].
    by apply startScan_silent in Hin. }
  assert (countEffects (isDetailOf c) (log s) ≤ 1)%nat as Hcount.
  { apply (proj1 (Forall_forall _ _) Heff) in Hin'. simpl in Hin'.
    unfold channels in Hin'. rewrite <- (inv_tasks _ _ Hinv) in Hin'.
    apply list_elem_of_fmap in Hin' as (t & -> & Ht).
    apply list_elem_of_lookup in Ht as [i Hi].
    destruct (lookup_lt_is_Some_2 (Limiter.jobs (pool s)) i) as [job Hjob].
    { rewrite (inv_len _ _ Hinv). by eapply lookup_lt_Some. }
    rewrite (scan_Once _ _ _ _ _ _ _ _ Hnd Hex i t job Hi Hjob).
    destruct (hasOutcome job); lia. }
  assert (∀ o, DetailDone c o ∈ log s → lastDetail c extra = Some o) as Hlast.
  { intros o Ho. rewrite <- (reach_lastDetail _ _ _ _ _ _ _ _ _ _ Hex Hlog).
    by apply single_lastDetail. }
  pose proof (Hlast _ Hin) as He.
  assert (∀ o, DetailDone c o ∈ log s → o = Thrown e) as Honly.
  { intros o Ho. apply Hlast in Ho. congruence. }
  assert (∀ data, DetailDone c (Returned (Some data)) ∉ extra) as Hnone.
  { intros data Hd. assert (DetailDone c (Returned (Some data)) ∈ log s) as Hd'.
    { rewrite Hlog. apply elem_of_app. by right. }
    by apply Honly in Hd'. }
  split; [done|]. split; [done|]. split; [|split].
  - specialize (Hsettled c). rewrite He in Hsettled. simpl in Hsettled.
    by rewrite Hsettled, startScan_threshold.
  - intros entry Hc. rewrite Hlog in Hc. apply elem_of_app in Hc as [Hc | Hc].
    + by apply (proj1 (Forall_forall _ _) (startScan_log now net cache ids st bypass)) in Hc.
    + destruct (Hset c entry Hc) as [data Hd]. by apply Hnone in Hd.
  - destruct (Hsto (cacheKey c)) as [H | (c' & data & Hkey & Hd)].
    + by rewrite H, startScan_storage.
    + apply cacheKey_inj in Hkey as <-. by apply Hnone in Hd.
Qed.

Lemma failed_detail_distinct_ids_witness :
  NoDup (channels (endOf distinctScan demoFailure)) ∧
  (∀ o, DetailDone "a" o ∈ log (endOf distinctScan demoFailure) →
        o = Thrown (Retry.httpError 500 (Unreadable ""))) ∧
  results (endOf distinctScan demoFailure) !! "a" = Some (Failed api_error "HTTP_500" 365) ∧
  (∀ entry, CacheSet "a" entry ∉ log (endOf distinctScan demoFailure)) ∧
  storage (endOf distinctScan demoFailure) !! cacheKey "a" =
    (∅ : gmap string CacheEntry) !! cacheKey "a".
Proof.
  apply (failed_detail_distinct_ids 1000 demoNet ∅ (uniqueIds ["a"; "b"; "a"])
           (DEFAULTS "key") false demoFailure (endOf distinctScan demoFailure) "a"
           (Retry.httpError 500 (Unreadable ""))).
  - apply uniqueIds_NoDup.
  - vm_compute. reflexivity.
  - apply list_elem_of_In. vm_compute. do 2 right. left. reflexivity.
Defined.

(** ** The pauses of a scan *)

(** X9: every pause a scan makes, in its batch calls and in its tasks,
    lasts 1000, 2000 or 4000 ms, and a task that is fetching or pausing
    is at attempt number at most 3 with the delay 1000 * 2^attempt. *)
Theorem scan_sleeps_on_schedule (now : Z) (net : nat → Response)
    (cache : gmap string CacheEntry) (ids : list string) (st : Settings) (bypass : bool)
    (evs : list Event) (s : Scan) :
  exec (fetchLastUploadDates now net cache ids st bypass) evs = Some s →
  Forall (λ eff, ∀ d, eff = Sleep d → d = 1000 ∨ d = 2000 ∨ d = 4000) (log s) ∧
  (∀ i attempt delay,
     Limiter.jobs (pool s) !! i = Some (Limiter.Running (Fetching attempt delay)) →
     (attempt ≤ 3)%nat ∧ delay = 1000 * 2 ^ Z.of_nat attempt) ∧
  (∀ i attempt delay,
     Limiter.jobs (pool s) !! i = Some (Limiter.Running (Sleeping attempt delay)) →
     (attempt < 3)%nat ∧ delay = 1000 * 2 ^ Z.of_nat attempt).
Proof.
  intros Hex. destruct (scan_Paced _ _ _ _ _ _ _ _ Hex) as [Hjobs Hlog].
  split; [|split].
  - eapply Forall_impl; [apply Hlog|]. by intros eff Heff d ->.
  - intros i a d Hi. apply (Hjobs i _ Hi).
  - intros i a d Hi. apply (Hjobs i _ Hi).
Qed.

Lemma scan_sleeps_on_schedule_witness :
  Forall (λ eff, ∀ d, eff = Sleep d → d = 1000 ∨ d = 2000 ∨ d = 4000)
    (log (endOf bypassScan bypassEvents)) ∧
  (∀ i attempt delay,
     Limiter.jobs (pool (endOf bypassScan bypassEvents)) !! i =
       Some (Limiter.Running (Fetching attempt delay)) →
     (attempt ≤ 3)%nat ∧ delay = 1000 * 2 ^ Z.of_nat attempt) ∧
  (∀ i attempt delay,
     Limiter.jobs (pool (endOf bypassScan bypassEvents)) !! i =
       Some (Limiter.Running (Sleeping attempt delay)) →
     (attempt < 3)%nat ∧ delay = 1000 * 2 ^ Z.of_nat attempt).
Proof.
  apply (scan_sleeps_on_schedule 1700000000000 demoNet demoCache ["a"; "b"] (DEFAULTS "key")
           true bypassEvents (endOf bypassScan bypassEvents)).
  vm_compute. reflexivity.
Defined.

(** ** Playlist ids are resolved once *)

Lemma startScan_playlists now net cache ids st bypass t :
  t ∈ tasks (fetchLastUploadDates now net cache ids st bypass) →
  task_uploadsPlaylistId t ≠ "".
Proof.
  rewrite startScan_unfold. simpl. intros Ht.
  match type of Ht with _ ∈ tasks (foldl (spawn ?M) ?s ?l) =>
    destruct (spawn_origin M l s) as [Htasks _] end.
  destruct (Htasks t Ht) as [Hnil | (x & _ & _ & _ & Hne)]; [|done].
  by apply elem_of_nil in Hnil.
Qed.

Lemma launch_Resolved j s : Resolved s → Resolved (launch j s).
Proof.
  intros Hres c data Hin. rewrite launch_storage.
  destruct (launch_cases j s) as [[Heq _] | (h & t & _ & _ & Heq)]; rewrite Heq in Hin.
  - apply (Hres c data Hin).
  - simpl in Hin. apply elem_of_app in Hin as [Hin | Hin]; [apply (Hres c data Hin)|].
    by apply list_elem_of_singleton in Hin.
Qed.

Lemma step_Resolved s ev s' :
  (∀ t, t ∈ tasks s → task_uploadsPlaylistId t ≠ "") →
  Resolved s → step s ev = Some s' → Resolved s'.
Proof.
  intros Hpl Hres Hstep.
  apply step_inv in Hstep as (t & p & v & Hti & Hji & Hres' & Happ).
  destruct v as [p' eff | data | o e |]; simpl in Happ.
  - injection Happ as <-. apply resume_Suspend in Hres' as [_ Heff].
    intros c data Hin. simpl in Hin |- *.
    apply elem_of_app in Hin as [Hin | Hin]; [apply (Hres c data Hin)|].
    apply list_elem_of_singleton in Hin. by destruct Heff as [-> | [d ->]].
  - injection Happ as <-. intros c data' Hin. simpl in Hin |- *.
    destruct (decide (c = task_channelId t)) as [-> | Hne].
    + rewrite lookup_insert_eq. eexists _, _. split; [done|]. split; [done|].
      apply Hpl. by eapply list_elem_of_lookup_2.
    + rewrite lookup_insert_ne by (intros Heq; by apply cacheKey_inj in Heq).
      apply (Hres c data'). rewrite <- app_assoc in Hin.
      apply elem_of_app in Hin as [Hin | Hin]; [done|].
      apply elem_of_cons in Hin as [[= ? _] | Hin]; [done|].
      by apply list_elem_of_singleton in Hin.
  - unfold taskFailed in Happ. apply finish_inv in Happ as (q & j & Hset & ->).
    apply launch_Resolved. intros c data Hin. simpl in Hin |- *.
    apply (Hres c data). apply elem_of_app in Hin as [Hin | Hin]; [done|].
    apply list_elem_of_singleton in Hin. injection Hin as _ Ho.
    apply resume_Caught in Hres' as [-> | [-> _]]; discriminate.
  - apply finish_inv in Happ as (q & j & Hset & ->).
    apply launch_Resolved. intros c data Hin. simpl in Hin |- *. apply (Hres c data Hin).
Qed.

Lemma scan_Resolved now net cache ids st bypass evs s :
  exec (fetchLastUploadDates now net cache ids st bypass) evs = Some s → Resolved s.
Proof.
  assert (∀ evs s1 s2, Inv (fetchLastUploadDates now net cache ids st bypass) s1 →
            Resolved s1 → exec s1 evs = Some s2 → Resolved s2) as H.
  { clear evs s. induction evs as [|ev evs IH]; intros s1 s2 Hinv Hr; simpl.
    - by intros [= <-].
    - destruct (step s1 ev) as [s'|] eqn:Hstep; [|done].
      apply IH; [by eapply step_Inv|]. eapply step_Resolved; try done.
      intros t Ht. rewrite (inv_tasks _ _ Hinv) in Ht. by eapply startScan_playlists. }
  apply H; [apply startScan_Inv|].
  intros c data Hin. by apply startScan_silent in Hin.
Qed.

(** X10: a playlist id is resolved once: after a detail fetch for an
    identifier has succeeded, its cache entry holds a playlist id that is
    not empty, and no later scan on that storage, whatever its settings,
    its clock and its bypassCache flag, names the identifier in a
    [channels.list] request. *)
Theorem playlist_resolved_once (now1 : Z) (net1 : nat → Response)
    (cache : gmap string CacheEntry) (ids1 : list string) (st1 : Settings) (bypass1 : bool)
    (evs1 : list Event) (s1 : Scan) (c : string) (data : Body)
    (now2 : Z) (net2 : nat → Response) (ids2 : list string) (st2 : Settings)
    (bypass2 : bool) (evs2 : list Event) (s2 : Scan) :
  exec (fetchLastUploadDates now1 net1 cache ids1 st1 bypass1) evs1 = Some s1 →
  DetailDone c (Returned (Some data)) ∈ log s1 →
  exec (fetchLastUploadDates now2 net2 (storage s1) ids2 st2 bypass2) evs2 = Some s2 →
  (∃ e pl, storage s1 !! cacheKey c = Some e ∧ uploadsPlaylistId e = Some pl ∧ pl ≠ "") ∧
  Forall (λ eff, ∀ batch, eff = Fetch (Channels batch) → c ∉ batch) (log s2).
Proof.
  intros Hex1 Hdone Hex2.
  destruct (scan_Resolved _ _ _ _ _ _ _ _ Hex1 c data Hdone) as (e & pl & He & Hpl & Hne).
  split; [by exists e, pl|].
  assert (c ∉ needPlaylistId (loadCache now2 (storage s1) st2 bypass2 ids2).2) as Hneed.
  { intros Hc. apply need_falsy in Hc as (_ & _ & Hfalsy).
    rewrite He in Hfalsy. simpl in Hfalsy. rewrite Hpl in Hfalsy.
    apply JsStringFacts.truthy_Some in Hne. congruence. }
  destruct (scan_log _ _ _ _ _ _ _ _ Hex2) as (l & extra & -> & Hl & Hextra).
  repeat apply Forall_app_2.
  - destruct (resolvePlaylistIds_marked net2 (thresholdDays st2)
                (loadCache now2 (storage s1) st2 bypass2 ids2).2
                (loadCache now2 (storage s1) st2 bypass2 ids2).1) as [_ Hbatch].
    eapply Forall_impl; [apply Hbatch|].
    intros eff Heff batch ->. simpl in Heff. intros Hc. by apply Hneed, Heff.
  - eapply Forall_impl; [apply Hl|]. by intros eff (t & _ & ->) batch.
  - eapply Forall_impl; [apply Hextra|]. by intros eff Heff batch ->.
Qed.

Lemma playlist_resolved_once_witness :
  (∃ e pl, storage (endOf demoScan demoEvents) !! cacheKey "a" = Some e ∧
           uploadsPlaylistId e = Some pl ∧ pl ≠ "") ∧
  Forall (λ eff, ∀ batch, eff = Fetch (Channels batch) → "a" ∉ batch)
    (log (endOf laterScan [])).
Proof.
  apply (playlist_resolved_once 1000 demoNet ∅ ["a"; "b"] (DEFAULTS "key") false demoEvents
           (endOf demoScan demoEvents) "a"
           {| items := Some [videoItem (Some 400)]; error_message := None |}
           172800000 demoNet ["a"; "b"] (DEFAULTS "key") true [] (endOf laterScan [])).
  - vm_compute. reflexivity.
  - apply list_elem_of_In. vm_compute. do 2 right. left. reflexivity.
  - reflexivity.
Defined.


(* ===================================================================== *)
(** * The scripts around the pipeline *)
(* ===================================================================== *)

(** ** Channel ids of cards *)

Lemma stripPrefix_spec p : ∀ s rest, stripPrefix p s = Some rest ↔ s = p +:+ rest.
Proof.
  induction p as [|a p IH]; intros s rest; simpl.
  - split; [by intros [= ->] | by intros ->].
  - destruct s as [|b s]; [split; [done | discriminate]|].
    case_decide as Hab.
    + subst b. rewrite IH. split; [by intros -> | by intros [= ->]].
    + split; [done | intros [= ? _]; done].
Qed.

Lemma wordPrefix_allWord s : allWord (wordPrefix s) = true.
Proof.
  induction s as [|c s IH]; simpl; [done|].
  destruct (isWordChar c) eqn:Hc; simpl; [by rewrite Hc | done].
Qed.

Lemma wordPrefix_prefix s : ∃ post, s = wordPrefix s +:+ post.
Proof.
  induction s as [|c s [post IH]]; simpl; [by exists ""|].
  destruct (isWordChar c); simpl; [|by eexists].
  exists post. rewrite IH at 1. reflexivity.
Qed.

Lemma channelAt_spec s id :
  channelAt s = Some id →
  ∃ w post, id = "UC" +:+ w ∧ w ≠ "" ∧ allWord w = true ∧ s = "/channel/" +:+ id +:+ post.
Proof.
  unfold channelAt. destruct (stripPrefix "/channel/UC" s) as [rest|] eqn:Hs; [|done].
  apply stripPrefix_spec in Hs. destruct (String.eqb_spec (wordPrefix rest) ""); [done|].
  intros [= <-]. destruct (wordPrefix_prefix rest) as [post Hpost].
  exists (wordPrefix rest), post. split; [done|]. split; [done|].
  split; [apply wordPrefix_allWord|]. rewrite Hs. rewrite Hpost at 1. reflexivity.
Qed.

Lemma channelInHref_spec href id :
  channelInHref href = Some id →
  ∃ w, id = "UC" +:+ w ∧ w ≠ "" ∧ allWord w = true ∧
       JsString.occursIn ("/channel/" +:+ id) href.
Proof.
  induction href as [|c href IH]; simpl.
  - done.
  - destruct (channelAt (String c href)) as [id'|] eqn:Hat.
    + intros [= ->]. apply channelAt_spec in Hat as (w & post & Hid & Hw & Hall & Hs).
      exists w. split; [done|]. split; [done|]. split; [done|].
      exists "", post. by rewrite Hs.
    + intros H. destruct (IH H) as (w & Hid & Hw & Hall & pre & post & Hocc).
      exists w. split; [done|]. split; [done|]. split; [done|].
      exists (String c pre), post. simpl. by rewrite Hocc.
Qed.

Lemma firstChannelLink_spec hrefs id :
  firstChannelLink hrefs = Some id →
  ∃ href, href ∈ hrefs ∧ channelInHref href = Some id.
Proof.
  induction hrefs as [|href hrefs IH]; simpl; [done|].
  destruct (channelInHref href) as [id'|] eqn:Hh.
  - intros [= ->]. exists href. split; [by left | done].
  - intros H. destruct (IH H) as (href' & Hin & Hm). exists href'. split; [by right | done].
Qed.

Lemma extract_cases (card : Card) (id : string) :
  ytscExtractChannelId card = Some id →
  JsString.startsWith "UC" id = true ∧
  (card_stamp card = Some id ∨
   ∃ href w, href ∈ card_hrefs card ∧ id = "UC" +:+ w ∧ w ≠ "" ∧ allWord w = true ∧
             JsString.occursIn ("/channel/" +:+ id) href).
Proof.
  intros Hid.
  assert (firstChannelLink (card_hrefs card) = Some id →
          JsString.startsWith "UC" id = true ∧
          ∃ href w, href ∈ card_hrefs card ∧ id = "UC" +:+ w ∧ w ≠ "" ∧ allWord w = true ∧
                    JsString.occursIn ("/channel/" +:+ id) href) as Hlinks.
  { intros H. apply firstChannelLink_spec in H as (href & Hin & Hm).
    apply channelInHref_spec in Hm as (w & -> & Hw & Hall & Hocc).
    split; [done|]. by exists href, w. }
  unfold ytscExtractChannelId in Hid. destruct (card_stamp card) as [stamp|].
  - destruct (JsString.startsWith "UC" stamp) eqn:Hs.
    + injection Hid as <-. split; [done | by left].
    + destruct (Hlinks Hid) as [? ?]. split; [done | by right].
  - destruct (Hlinks Hid) as [? ?]. split; [done | by right].
Qed.

Lemma extract_truthy (card : Card) :
  JsString.truthy (ytscExtractChannelId card) = true ↔ is_Some (ytscExtractChannelId card).
Proof.
  destruct (ytscExtractChannelId card) as [id|] eqn:Hid.
  - apply extract_cases in Hid as [Huc _]. split; [eauto|]. intros _.
    apply JsStringFacts.truthy_Some. by intros ->.
  - split; [done | by intros [? ?]].
Qed.

(** X11: the identifier [ytscExtractChannelId] returns for a card always
    starts with "UC" (so it is never empty): it is the stamped attribute,
    or else "UC" followed by one or more characters of [A-Za-z0-9_-],
    found right after "/channel/" in one of the card's links. *)
Theorem extracted_id_shape (card : Card) (id : string) :
  ytscExtractChannelId card = Some id →
  JsString.startsWith "UC" id = true ∧
  JsString.truthy (Some id) = true ∧
  (card_stamp card = Some id ∨
   ∃ href w, href ∈ card_hrefs card ∧ id = "UC" +:+ w ∧ w ≠ "" ∧ allWord w = true ∧
             JsString.occursIn ("/channel/" +:+ id) href).
Proof.
  intros Hid. destruct (extract_cases card id Hid) as [Huc Hfrom].
  split; [done|]. split; [|done].
  apply JsStringFacts.truthy_Some. by intros ->.
Qed.

Lemma extracted_id_shape_witness :
  JsString.startsWith "UC" "UCbbb" = true ∧
  JsString.truthy (Some "UCbbb") = true ∧
  (card_stamp {| card_stamp := None; card_hrefs := ["/@second"; "/channel/UCbbb/videos"];
                 card_data := None |} = Some "UCbbb" ∨
   ∃ href w, href ∈ ["/@second"; "/channel/UCbbb/videos"] ∧ "UCbbb" = "UC" +:+ w ∧ w ≠ "" ∧
             allWord w = true ∧ JsString.occursIn ("/channel/" +:+ "UCbbb") href).
Proof.
  apply (extracted_id_shape
           {| card_stamp := None; card_hrefs := ["/@second"; "/channel/UCbbb/videos"];
              card_data := None |} "UCbbb").
  reflexivity.
Defined.

(** X12: a card the injector stamps is stamped with [data.channelId], or
    with the [browseId] when there is no [channelId], and that is the
    identifier [ytscExtractChannelId] then returns for it, whatever its
    links are; a card the injector does not stamp is left as it was. *)
Theorem stamp_then_extract (card card' : Card) (stamped : bool) :
  stampCard card = (card', stamped) →
  if stamped then
    ∃ data id, card_data card = Some data ∧
      (data_channelId data = Some id ∨
       (JsString.truthy (data_channelId data) = false ∧ data_browseId data = Some id)) ∧
      JsString.startsWith "UC" id = true ∧
      card_stamp card' = Some id ∧
      ytscExtractChannelId card' = Some id
  else card' = card.
Proof.
  unfold stampCard. destruct (card_data card) as [data|] eqn:Hdata; [|by intros [= <- <-]].
  destruct (JsString.truthy (data_channelId data)) eqn:Htruthy.
  - destruct (data_channelId data) as [id|] eqn:Hid; [|done]. rewrite Htruthy, andb_true_l.
    destruct (JsString.startsWith "UC" id) eqn:Huc; intros [= <- <-]; [|done].
    exists data, id. split; [done|]. split; [by left|]. split; [done|]. split; [done|].
    unfold ytscExtractChannelId. cbn [card_stamp]. by rewrite Huc.
  - destruct (data_browseId data) as [id|] eqn:Hid; [|by intros [= <- <-]].
    destruct (JsString.truthy (Some id) && JsString.startsWith "UC" id) eqn:Hok;
      intros [= <- <-]; [|done].
    apply andb_true_iff in Hok as [_ Huc].
    exists data, id. split; [done|]. split; [by right|]. split; [done|]. split; [done|].
    unfold ytscExtractChannelId. cbn [card_stamp]. by rewrite Huc.
Qed.

Lemma stamp_then_extract_witness :
  ∃ data id, card_data pageCard = Some data ∧
    (data_channelId data = Some id ∨
     (JsString.truthy (data_channelId data) = false ∧ data_browseId data = Some id)) ∧
    JsString.startsWith "UC" id = true ∧
    card_stamp (stampCard pageCard).1 = Some id ∧
    ytscExtractChannelId (stampCard pageCard).1 = Some id.
Proof.
  apply (stamp_then_extract pageCard (stampCard pageCard).1 true). reflexivity.
Defined.

(** ** Badges *)

Lemma format_prefix (days : Z) : ∃ rest, ytscFormatDaysAgo days = "Last upload: " +:+ rest.
Proof.
  unfold ytscFormatDaysAgo.
  repeat match goal with |- context [if ?b then _ else _] => destruct b end;
    eexists; reflexivity.
Qed.

Lemma format_not_unknown (days : Z) : ytscFormatDaysAgo days ≠ "Unknown".
Proof. destruct (format_prefix days) as [rest ->]. intros H. cbv in H. discriminate. Qed.

Local Ltac badge_goal :=
  first [ done
        | apply format_not_unknown
        | split; [done | by intros [? | ?]]
        | split; [done | by intros [? ?]]
        | by split; [|intros [? ?]]
        | by intros ? [= <-]
        | split; eauto; done ].

(** X13: for every entry of the map a scan builds, the badge is never the
    fallback "Unknown": it is the inactive badge exactly when the entry
    counts as inactive (daysAgo above thresholdDays), the active badge for
    the other ok entries, with the text of [ytscFormatDaysAgo], the error
    badge exactly for api_error and quota_exceeded, of which only
    api_error can be clicked to retry, and the warning badge exactly for
    no_uploads. *)
Theorem badge_of_result (now : Z) (net : nat → Response) (cache : gmap string CacheEntry)
    (ids : list string) (st : Settings) (bypass : bool) (evs : list Event) (s : Scan)
    (c : string) (r : ResultEntry) :
  exec (fetchLastUploadDates now net cache ids st bypass) evs = Some s →
  results s !! c = Some r →
  let b := ytscAttachBadge (infoOf r) in
  badge_text b ≠ "Unknown" ∧
  (badge_class b = "ytsc-badge--inactive" ↔ isInactive r = true) ∧
  (badge_class b = "ytsc-badge--active" ↔ statusOf r = ok ∧ isInactive r = false) ∧
  (badge_class b = "ytsc-badge--error" ↔ isError (statusOf r)) ∧
  (badge_class b = "ytsc-badge--warning" ↔ statusOf r = no_uploads) ∧
  (badge_retry b = true ↔ statusOf r = api_error) ∧
  (∀ d, daysAgoOf r = Some d → badge_text b = ytscFormatDaysAgo d).
Proof.
  intros Hex Hr b. pose proof (reach_shaped _ _ _ _ _ _ _ _ _ _ Hex Hr) as Hs.
  subst b. unfold isError.
  destruct r as [last days thr status | thr | status msg thr]; simpl in Hs.
  - destruct Hs as (-> & -> & t & Ht & ->). destruct last as [l|].
    + unfold ytscAttachBadge, infoOf, isInactive. cbn -[ytscFormatDaysAgo Z.div Z.mul].
      destruct (_ <? _); cbn -[ytscFormatDaysAgo Z.div Z.mul]; split_and!; badge_goal.
    + cbn. split_and!; badge_goal.
  - cbn. split_and!; badge_goal.
  - destruct Hs as [-> [-> | ->]]; cbn; split_and!; badge_goal.
Qed.

Lemma badge_of_result_witness :
  let b := ytscAttachBadge (infoOf (Dated (Some 400) (Some 0) 365 ok)) in
  badge_text b ≠ "Unknown" ∧
  (badge_class b = "ytsc-badge--inactive" ↔
   isInactive (Dated (Some 400) (Some 0) 365 ok) = true) ∧
  (badge_class b = "ytsc-badge--active" ↔
   statusOf (Dated (Some 400) (Some 0) 365 ok) = ok ∧
   isInactive (Dated (Some 400) (Some 0) 365 ok) = false) ∧
  (badge_class b = "ytsc-badge--error" ↔ isError (statusOf (Dated (Some 400) (Some 0) 365 ok))) ∧
  (badge_class b = "ytsc-badge--warning" ↔
   statusOf (Dated (Some 400) (Some 0) 365 ok) = no_uploads) ∧
  (badge_retry b = true ↔ statusOf (Dated (Some 400) (Some 0) 365 ok) = api_error) ∧
  (∀ d, daysAgoOf (Dated (Some 400) (Some 0) 365 ok) = Some d →
        badge_text b = ytscFormatDaysAgo d).
Proof.
  apply (badge_of_result 1000 demoNet ∅ ["a"; "b"] (DEFAULTS "key") false demoEvents
           (endOf demoScan demoEvents) "a").
  - vm_compute. reflexivity.
  - vm_compute. reflexivity.
Defined.

(** ** The two summaries *)

Lemma returned_results_dom now net cache ids st bypass evs s :
  Forall ordinary ids →
  exec (fetchLastUploadDates now net cache ids st bypass) evs = Some s →
  returned s = true →
  ∀ c, c ∈ ids ↔ is_Some (results s !! c).
Proof.
  intros Hord Hex Hret c. pose proof (reach_Inv _ _ _ _ _ _ _ _ Hex) as Hinv.
  rewrite <- elem_of_dom. split.
  - intros Hin.
    destruct (ordinary_covered now net cache ids st bypass c Hord Hin) as [Hc | Hc].
    + by eapply reach_dom.
    + unfold channels in Hc. rewrite <- (inv_tasks _ _ Hinv) in Hc.
      apply list_elem_of_fmap in Hc as (t & -> & Ht).
      apply list_elem_of_lookup in Ht as [i Hi].
      destruct (inv_cover _ _ Hinv i t Hi) as [Hpend | Hdom]; [|done].
      exfalso. unfold returned in Hret.
      destruct (Limiter.jobs (pool s) !! i) as [job|] eqn:Hjob; [|done].
      assert (Limiter.isSettled job = true) as Hset.
      { eapply (proj1 (forallb_forall _ _) Hret). apply list_elem_of_In.
        by eapply list_elem_of_lookup_2. }
      by destruct job as [|[]| |].
  - intros Hc. eapply startScan_covered_ids. by eapply reach_dom_inv.
Qed.

Lemma objSet_keys {A} (o : list (string * A)) k v : (objSet o k v).*1 = setAdd o.*1 k.
Proof.
  unfold objSet, setAdd. case_decide as Hin; [|by rewrite fmap_app].
  clear Hin. induction o as [|[k' v'] o IH]; [done|].
  rewrite !fmap_cons, IH. f_equal. simpl. by case_decide.
Qed.

Lemma collect_fold l : ∀ acc,
  let c := foldl collectCard acc l in
  ((col_cardById acc).*1 = uniqueIds (col_channelIds acc) →
   (col_cardById c).*1 = uniqueIds (col_channelIds c)) ∧
  col_channelIds c = col_channelIds acc ++ omap (λ ic, ytscExtractChannelId ic.2) l.
Proof.
  induction l as [|ic l IH]; intros acc; simpl.
  - by rewrite app_nil_r.
  - destruct (IH (collectCard acc ic)) as [Hkeys Hids]. split.
    + intros H. apply Hkeys. unfold collectCard.
      destruct (JsString.truthy _); simpl; [|done].
      rewrite objSet_keys, H. unfold uniqueIds. by rewrite foldl_app.
    + rewrite Hids. unfold collectCard.
      destruct (JsString.truthy (ytscExtractChannelId ic.2)) eqn:Htr; simpl.
      * apply extract_truthy in Htr as [id Hid]. rewrite Hid. simpl.
        by rewrite <- app_assoc.
      * destruct (ytscExtractChannelId ic.2) as [id|] eqn:Hid; [|done].
        assert (JsString.truthy (Some id) = true); [|congruence].
        rewrite <- Hid. apply extract_truthy. rewrite Hid. eauto.
Qed.

Lemma collect_keys cards :
  (col_cardById (collect cards)).*1 = uniqueIds (col_channelIds (collect cards)).
Proof. by apply collect_fold. Qed.

Lemma collect_ids cards c :
  c ∈ col_channelIds (collect cards) ↔
  ∃ card, card ∈ cards ∧ ytscExtractChannelId card = Some c.
Proof.
  unfold collect. rewrite (proj2 (collect_fold _ _)). simpl.
  rewrite list_elem_of_omap. split.
  - intros ([i card] & Hin & Hc). exists card. split; [|done].
    apply list_elem_of_lookup in Hin as [j Hj].
    rewrite list_lookup_imap in Hj. apply fmap_Some in Hj as (card' & Hc' & [= _ ->]).
    by eapply list_elem_of_lookup_2.
  - intros (card & Hin & Hc). apply list_elem_of_lookup in Hin as [i Hi].
    exists (i, card). split; [|done]. apply list_elem_of_lookup. exists i.
    by rewrite list_lookup_imap, Hi.
Qed.

Lemma renderOne_counts result acc k card :
  let acc' := renderOne result acc (k, card) in
  r_inactive acc' = (r_inactive acc + if inactiveAt result k then 1 else 0)%nat ∧
  length (r_buttons acc') =
    (length (r_buttons acc) + if inactiveAt result k then 1 else 0)%nat ∧
  length (r_badges acc') =
    (length (r_badges acc) + match result !! k with Some _ => 1 | None => 0 end)%nat.
Proof.
  unfold renderOne, inactiveAt. simpl.
  destruct (result !! k) as [info|]; [destruct (isInactive info)|]; simpl;
    rewrite ?length_app; simpl; split_and!; lia.
Qed.

Lemma length_filter_cons {A} (P : A → Prop) `{∀ x, Decision (P x)} (x : A) (l : list A) :
  length (filter P (x :: l)) = ((if decide (P x) then 1 else 0) + length (filter P l))%nat.
Proof. rewrite filter_cons. by case_decide. Qed.

Lemma render_fold result o : ∀ acc,
  let rd := foldl (renderOne result) acc o in
  r_inactive rd =
    (r_inactive acc + length (filter (λ k, inactiveAt result k = true) o.*1))%nat ∧
  length (r_buttons rd) =
    (length (r_buttons acc) + length (filter (λ k, inactiveAt result k = true) o.*1))%nat ∧
  length (r_badges rd) =
    (length (r_badges acc) + length (filter (λ k, is_Some (result !! k)) o.*1))%nat.
Proof.
  induction o as [|[k card] o IH]; intros acc; [simpl; lia|].
  rewrite fmap_cons. cbn [foldl fst].
  destruct (IH (renderOne result acc (k, card))) as (H1 & H2 & H3).
  destruct (renderOne_counts result acc k card) as (E1 & E2 & E3).
  rewrite H1, H2, H3, E1, E2, E3, !length_filter_cons.
  assert ((if decide (inactiveAt result k = true) then 1 else 0) =
          (if inactiveAt result k then 1 else 0))%nat as ->.
  { destruct (inactiveAt result k); by case_decide. }
  assert ((if decide (is_Some (result !! k)) then 1 else 0) =
          match result !! k with Some _ => 1 | None => 0 end)%nat as ->.
  { destruct (result !! k) as [info|]; case_decide as Hd; try done.
    exfalso. apply Hd. eauto. }
  lia.
Qed.

Lemma inactive_values (result : gmap string ResultEntry) (l : list (string * ResultEntry)) :
  (∀ kv, kv ∈ l → result !! kv.1 = Some kv.2) →
  length (filter (λ r, isInactive r = true) l.*2) =
  length (filter (λ k, inactiveAt result k = true) l.*1).
Proof.
  induction l as [|[k r] l IH]; intros H; [done|].
  rewrite !fmap_cons, !length_filter_cons. simpl.
  rewrite IH by (intros kv Hkv; apply H; by right).
  assert (inactiveAt result k = isInactive r) as ->.
  { unfold inactiveAt. pose proof (H (k, r) ltac:(by left)) as Hk. simpl in Hk.
    by rewrite Hk. }
  done.
Qed.

Lemma summary_counts (result : gmap string ResultEntry) (keys : list string) :
  NoDup keys → (∀ c, c ∈ keys ↔ is_Some (result !! c)) →
  length (map_to_list result).*1 = length keys ∧
  length (filter (λ r, isInactive r = true) (map_to_list result).*2) =
  length (filter (λ k, inactiveAt result k = true) keys) ∧
  length (filter (λ k, is_Some (result !! k)) keys) = length keys.
Proof.
  intros Hnd Hdom.
  assert ((map_to_list result).*1 ≡ₚ keys) as Hperm.
  { apply NoDup_Permutation; [apply NoDup_fst_map_to_list | done |].
    intros x. rewrite Hdom. split.
    - intros Hx. apply list_elem_of_fmap in Hx as ([k v] & -> & Hkv).
      apply elem_of_map_to_list in Hkv. eauto.
    - intros [v Hv]. apply list_elem_of_fmap. exists (x, v). split; [done|].
      by apply elem_of_map_to_list. }
  split; [by rewrite Hperm|]. split.
  - rewrite (inactive_values result); [by rewrite Hperm|].
    intros [k v] Hkv. by apply elem_of_map_to_list.
  - rewrite filter_all; [done|]. intros c Hc. by apply Hdom.
Qed.

(** X14: the content script submits each identifier found on a card once;
    when the scan of them has returned, the summary the service worker
    stores and the one the content script keeps agree: total is the number
    of distinct identifiers, inactive counts the entries whose daysAgo
    exceeds thresholdDays and is at most total; every distinct identifier
    gets one badge, and as many cards get the button as are counted
    inactive. *)
Theorem summaries_agree (now : Z) (net : nat → Response) (cache : gmap string CacheEntry)
    (st : Settings) (bypass : bool) (cards : list Card) (evs : list Event) (s : Scan)
    (t : Z) :
  let ids := uniqueIds (col_channelIds (collect cards)) in
  exec (fetchLastUploadDates now net cache ids st bypass) evs = Some s →
  returned s = true →
  let stored := scanSummary t (results s) in
  let rd := render (col_cardById (collect cards)) (results s) in
  NoDup ids ∧
  (∀ c, c ∈ ids ↔ ∃ card, card ∈ cards ∧ ytscExtractChannelId card = Some c) ∧
  contentSummary cards (results s) = (sum_total stored, sum_inactive stored) ∧
  sum_total stored = length ids ∧
  (sum_inactive stored ≤ sum_total stored)%nat ∧
  length (r_badges rd) = sum_total stored ∧
  length (r_buttons rd) = sum_inactive stored.
Proof.
  intros ids Hex Hret stored rd.
  pose proof (uniqueIds_NoDup (col_channelIds (collect cards))) as Hnd. fold ids in Hnd.
  assert (∀ c, c ∈ ids ↔ ∃ card, card ∈ cards ∧ ytscExtractChannelId card = Some c) as Hids.
  { intros c. unfold ids. rewrite uniqueIds_elem. apply collect_ids. }
  assert (Forall ordinary ids) as Hord.
  { apply Forall_forall. intros c Hc. apply Hids in Hc as (card & _ & Hcard).
    apply channel_id_ordinary. by apply extract_cases in Hcard as [? _]. }
  pose proof (returned_results_dom _ _ _ _ _ _ _ _ Hord Hex Hret) as Hdom.
  assert (ownProperties (results s) = results s) as Hown.
  { apply delete_id. destruct (results s !! "__proto__") eqn:Hslot; [|done].
    exfalso. apply (ordinary_ids ids Hord). apply Hdom. by rewrite Hslot. }
  destruct (summary_counts (results s) ids Hnd Hdom) as (Htotal & Hinactive & Hall).
  destruct (render_fold (results s) (col_cardById (collect cards))
              {| r_badges := []; r_buttons := []; r_inactive := 0 |}) as (Hri & Hrb & Hrg).
  fold (render (col_cardById (collect cards)) (results s)) in Hri, Hrb, Hrg.
  fold rd in Hri, Hrb, Hrg. rewrite collect_keys in Hri, Hrb, Hrg. fold ids in Hri, Hrb, Hrg.
  simpl in Hri, Hrb, Hrg.
  split; [done|]. split; [done|].
  unfold contentSummary. fold ids rd. subst stored. unfold scanSummary. rewrite Hown. simpl.
  rewrite Htotal, Hinactive, Hri, Hrb, Hrg, Hall.
  split; [done|]. split; [done|]. split; [apply length_filter|]. done.
Qed.

Lemma summaries_agree_witness :
  let ids := uniqueIds (col_channelIds (collect demoCards)) in
  let stored := scanSummary 1700000000010 (results (endOf cardsScan cardsEvents)) in
  let rd := render (col_cardById (collect demoCards)) (results (endOf cardsScan cardsEvents)) in
  NoDup ids ∧
  (∀ c, c ∈ ids ↔ ∃ card, card ∈ demoCards ∧ ytscExtractChannelId card = Some c) ∧
  contentSummary demoCards (results (endOf cardsScan cardsEvents)) =
    (sum_total stored, sum_inactive stored) ∧
  sum_total stored = length ids ∧
  (sum_inactive stored ≤ sum_total stored)%nat ∧
  length (r_badges rd) = sum_total stored ∧
  length (r_buttons rd) = sum_inactive stored.
Proof.
  apply (summaries_agree 1700000000000 cardsNet ∅ (DEFAULTS "key") false demoCards
           cardsEvents (endOf cardsScan cardsEvents) 1700000000010).
  - vm_compute. reflexivity.
  - vm_compute. reflexivity.
Defined.

(** ** The age shown on a badge *)

(** X15: for an age of 30 days or more, up to [MAX_SAFE_INTEGER],
    [ytscFormatDaysAgo] never shows a zero: below 365 days it shows the number m of whole 30-day months,
    between 1 and 12 ("month" for 1, "months" otherwise); from 365 days on
    it shows the number y of whole 365-day years, at least 1, and, unless
    it is 0, the number m of whole 30-day months of the rest, at most 12. *)
Theorem format_days_ranges (days : Z) :
  30 ≤ days →
  days ≤ MAX_SAFE_INTEGER →
  if days <? 365 then
    ∃ m, 1 ≤ m ≤ 12 ∧ 30 * m ≤ days < 30 * (m + 1) ∧
      ytscFormatDaysAgo days =
        "Last upload: " +:+ pretty m +:+ (if decide (m = 1) then " month ago" else " months ago")
  else
    ∃ y m, 1 ≤ y ∧ 0 ≤ m ≤ 12 ∧
      365 * y + 30 * m ≤ days ∧ days < 365 * y + 30 * (m + 1) ∧ days < 365 * (y + 1) ∧
      ytscFormatDaysAgo days =
        if decide (m = 0) then
          "Last upload: " +:+ pretty y +:+ (if decide (y = 1) then " year ago" else " years ago")
        else "Last upload: " +:+ pretty y +:+ "y " +:+ pretty m +:+ "mo ago".
Proof.
  intros Hdays _. unfold ytscFormatDaysAgo.
  destruct (Z.eqb_spec days 0) as [|_]; [lia|].
  destruct (Z.eqb_spec days 1) as [|_]; [lia|].
  destruct (Z.ltb_spec days 30) as [|_]; [lia|].
  destruct (Z.ltb_spec days 365) as [Hlt | Hge].
  - exists (days `div` 30).
    pose proof (Z.div_mod days 30 ltac:(lia)) as Hdm.
    pose proof (Z.mod_pos_bound days 30 ltac:(lia)) as Hmod.
    split; [lia|]. split; [lia|].
    destruct (Z.eqb_spec (days `div` 30) 1) as [Hm | Hm].
    + by rewrite decide_True.
    + by rewrite decide_False.
  - exists (days `div` 365), ((days `mod` 365) `div` 30).
    pose proof (Z.div_mod days 365 ltac:(lia)) as Hdm.
    pose proof (Z.mod_pos_bound days 365 ltac:(lia)) as Hmod.
    pose proof (Z.div_mod (days `mod` 365) 30 ltac:(lia)) as Hdm'.
    pose proof (Z.mod_pos_bound (days `mod` 365) 30 ltac:(lia)) as Hmod'.
    split; [lia|]. split; [lia|]. split; [lia|]. split; [lia|]. split; [lia|].
    destruct (Z.ltb_spec 0 ((days `mod` 365) `div` 30)) as [Hpos | Hzero].
    + by rewrite decide_False by lia.
    + rewrite decide_True by lia.
      destruct (Z.eqb_spec (days `div` 365) 1) as [Hy | Hy].
      * by rewrite decide_True.
      * by rewrite decide_False.
Qed.

Lemma format_days_ranges_witness :
  ∃ y m, 1 ≤ y ∧ 0 ≤ m ≤ 12 ∧
    365 * y + 30 * m ≤ 729 ∧ 729 < 365 * y + 30 * (m + 1) ∧ 729 < 365 * (y + 1) ∧
    ytscFormatDaysAgo 729 =
      if decide (m = 0) then
        "Last upload: " +:+ pretty y +:+ (if decide (y = 1) then " year ago" else " years ago")
      else "Last upload: " +:+ pretty y +:+ "y " +:+ pretty m +:+ "mo ago".
Proof. apply (format_days_ranges 729); [lia | by vm_compute]. Defined.

(** ** Settings and storage *)

Lemma saved_atLeast n d : 1 ≤ d → atLeast 1 (mathMax 1 (orDefault n (Whole d))).
Proof.
  intros Hd. unfold orDefault. destruct n as [| z | lo | |]; simpl; try done; try lia.
  - destruct (z =? 0); simpl; lia.
  - destruct (Z.leb_spec 1 lo); simpl; lia.
Qed.

Lemma saved_concurrency n :
  atLeast 1 (mathMax 1 (mathMin 20 (orDefault n (Whole 6)))) ∧
  atMost 20 (mathMax 1 (mathMin 20 (orDefault n (Whole 6)))).
Proof.
  unfold orDefault. destruct n as [| z | lo | |]; simpl; try lia.
  - destruct (z =? 0); simpl; lia.
  - destruct (Z.leb_spec 20 lo); simpl; [lia|].
    destruct (Z.leb_spec 1 lo); simpl; lia.
Qed.

Lemma saved_whole n d :
  wholeOrNaN n → ∃ z, orDefault n (Whole d) = Whole z ∧ (z = d ∨ n = Whole z).
Proof.
  unfold orDefault. destruct n as [| z | lo | |]; simpl; try done.
  - intros _. by exists d; split; [|left].
  - intros _. destruct (z =? 0); simpl; [by exists d; split; [|left]|].
    by exists z; split; [|right].
Qed.

Lemma cacheKey_prefix c : JsString.startsWith "cache." (cacheKey c) = true.
Proof. apply JsStringFacts.startsWith_spec. by exists c. Qed.

Lemma getSettings_save form local :
  getSettings (saveSettings form local) =
  {| st_apiKey := Some (SString (form_apiKey form));
     st_thresholdDays :=
       SNumber (mathMax 1 (orDefault (form_thresholdDays form) (Whole 365)));
     st_cacheTtlHours :=
       SNumber (mathMax 1 (orDefault (form_cacheTtlHours form) (Whole 24)));
     st_concurrency :=
       SNumber (mathMax 1 (mathMin 20 (orDefault (form_concurrency form) (Whole 6)))) |}.
Proof.
  unfold getSettings, saveSettings. f_equal.
  - by rewrite lookup_insert_eq.
  - rewrite lookup_insert_ne by done. by rewrite lookup_insert_eq.
  - do 2 rewrite lookup_insert_ne by done. by rewrite lookup_insert_eq.
  - do 3 rewrite lookup_insert_ne by done. by rewrite lookup_insert_eq.
Qed.

(** X16: whatever is typed into the options page, the settings that "Save"
    stores and [getSettings] then returns hold the trimmed key, a
    thresholdDays and a cacheTtlHours of at least 1 and a concurrency
    between 1 and 20; saving leaves every cache entry as it was. *)
Theorem saved_settings_in_range (form : OptionsForm) (local : Local) :
  let saved := getSettings (saveSettings form local) in
  st_apiKey saved = Some (SString (form_apiKey form)) ∧
  (∃ thr ttl conc,
     st_thresholdDays saved = SNumber thr ∧ st_cacheTtlHours saved = SNumber ttl ∧
     st_concurrency saved = SNumber conc ∧
     atLeast 1 thr ∧ atLeast 1 ttl ∧ atLeast 1 conc ∧ atMost 20 conc) ∧
  (∀ c, saveSettings form local !! cacheKey c = local !! cacheKey c).
Proof.
  intros saved. subst saved. rewrite getSettings_save. simpl.
  split; [done|]. split.
  - eexists _, _, _. split; [done|]. split; [done|]. split; [done|].
    split; [by apply saved_atLeast|]. split; [by apply saved_atLeast|].
    apply saved_concurrency.
  - intros c. unfold saveSettings.
    rewrite !lookup_insert_ne; [done | | | |]; intros H;
      pose proof (cacheKey_prefix c) as Hp; rewrite <- H in Hp; done.
Qed.

(** X17: after "Save" with fields that hold whole numbers, or nothing
    that parses, SCAN_CHANNELS answers MISSING_API_KEY exactly when the
    key saved is empty; otherwise it runs the scan with the saved key, a
    threshold and a TTL of at least 1 and a concurrency between 1 and 20,
    so that the scan has at most 20 detail fetches in flight and can
    always take a turn until it returns. *)
Theorem scan_with_saved_settings (form : OptionsForm) (local : Local) (now : Z)
    (net : nat → Response) (ids : list string) (bypass : bool) :
  wholeOrNaN (form_thresholdDays form) →
  wholeOrNaN (form_cacheTtlHours form) →
  wholeOrNaN (form_concurrency form) →
  match scanChannels now net (saveSettings form local) ids bypass with
  | MissingApiKey => form_apiKey form = ""
  | Started s0 =>
      form_apiKey form ≠ "" ∧
      ∃ st, s0 = fetchLastUploadDates now net (cacheView (saveSettings form local)) ids st
                   bypass ∧
        apiKey st = form_apiKey form ∧
        1 ≤ thresholdDays st ∧ 1 ≤ cacheTtlHours st ∧ 1 ≤ concurrency st ≤ 20 ∧
        ∀ evs s, exec s0 evs = Some s →
          Z.of_nat (detailsInFlight s) ≤ 20 ∧
          (returned s = false → ∃ ev s', step s ev = Some s')
  | OtherSettings => False
  end.
Proof.
  intros Hthr Httl Hconc. unfold scanChannels. rewrite getSettings_save. simpl.
  destruct (String.eqb_spec (form_apiKey form) "") as [Hkey | Hkey]; simpl; [done|].
  destruct (saved_whole _ 365 Hthr) as (thr & -> & Hthr').
  destruct (saved_whole _ 24 Httl) as (ttl & -> & Httl').
  destruct (saved_whole _ 6 Hconc) as (conc & -> & Hconc').
  unfold asSettings. simpl. split; [done|].
  eexists. split; [done|]. simpl. split; [done|].
  split; [lia|]. split; [lia|]. split; [lia|].
  intros evs s Hex. pose proof (reach_Inv _ _ _ _ _ _ _ _ Hex) as Hinv.
  pose proof (inv_conc _ _ Hinv) as Hc. rewrite startScan_concurrency in Hc. simpl in Hc.
  split.
  - pose proof (LimiterFacts.wf_bound _ (inv_pool _ _ Hinv)) as Hb.
    unfold detailsInFlight. rewrite Hc in Hb. lia.
  - intros Hret. apply (progress _ _ Hinv); [|done]. rewrite Hc. lia.
Qed.

Lemma scan_with_saved_settings_witness :
  match scanChannels 1700000000000 demoNet (saveSettings demoForm demoLocal) ["a"; "b"] false
  with
  | MissingApiKey => form_apiKey demoForm = ""
  | Started s0 =>
      form_apiKey demoForm ≠ "" ∧
      ∃ st, s0 = fetchLastUploadDates 1700000000000 demoNet
                   (cacheView (saveSettings demoForm demoLocal)) ["a"; "b"] st false ∧
        apiKey st = form_apiKey demoForm ∧
        1 ≤ thresholdDays st ∧ 1 ≤ cacheTtlHours st ∧ 1 ≤ concurrency st ≤ 20 ∧
        ∀ evs s, exec s0 evs = Some s →
          Z.of_nat (detailsInFlight s) ≤ 20 ∧
          (returned s = false → ∃ ev s', step s ev = Some s')
  | OtherSettings => False
  end.
Proof.
  apply (scan_with_saved_settings demoForm demoLocal 1700000000000 demoNet ["a"; "b"] false);
    exact I.
Defined.

Lemma size_foldr_delete {A} (m : gmap string A) (js : list string) :
  NoDup js → Forall (λ k, is_Some (m !! k)) js →
  (size (foldr delete m js) + length js = size m)%nat.
Proof.
  induction 1 as [|j js Hj Hnd IH]; intros Hall; simpl; [lia|].
  apply Forall_cons in Hall as [Hjm Hall]. specialize (IH Hall).
  rewrite map_size_delete, lookup_foldr_delete_not_elem_of by done.
  destruct Hjm as [x Hx]. rewrite Hx.
  assert (size (foldr delete m js) ≠ 0)%nat.
  { apply map_size_ne_0_lookup. exists j.
    rewrite lookup_foldr_delete_not_elem_of by done. eauto. }
  lia.
Qed.

(** X18: CLEAR_CACHE removes exactly the keys that start with "cache." and
    the key lastScanSummary: every other key, the settings among them,
    keeps its value, [cleared] is the number of cache keys removed, and a
    scan that follows, even without bypassCache, answers nothing from the
    cache and asks [channels.list] about every identifier. *)
Theorem clear_cache_effect (local : Local) :
  let after := (clearCache local).1 in
  let cleared := (clearCache local).2 in
  (∀ k, after !! k =
        if decide (JsString.startsWith "cache." k = true ∨ k = "lastScanSummary")
        then None else local !! k) ∧
  getSettings after = getSettings local ∧
  (size after + cleared + match local !! "lastScanSummary" with Some _ => 1 | None => 0 end
   = size local)%nat ∧
  (∀ now st ids,
     (loadCache now (cacheView after) st false ids).1 = ∅ ∧
     needPlaylistId (loadCache now (cacheView after) st false ids).2 = ids).
Proof.
  intros after cleared. subst after cleared. unfold clearCache. cbn [fst snd].
  set (cacheKeys := filter (λ k, JsString.startsWith "cache." k = true)
                           (map_to_list local).*1).
  set (after := delete "lastScanSummary" (foldr delete local cacheKeys)).
  assert (∀ k, k ∈ cacheKeys ↔ JsString.startsWith "cache." k = true ∧ is_Some (local !! k))
    as Hkeys.
  { intros k. unfold cacheKeys. rewrite list_elem_of_filter, list_elem_of_fmap.
    split; intros [Hp Hk]; (split; [done|]).
    - destruct Hk as ([k' v] & -> & Hkv). apply elem_of_map_to_list in Hkv. eauto.
    - destruct Hk as [v Hv]. exists (k, v). split; [done|]. by apply elem_of_map_to_list. }
  assert (∀ k, after !! k =
               if decide (JsString.startsWith "cache." k = true ∨ k = "lastScanSummary")
               then None else local !! k) as Hafter.
  { intros k. unfold after. case_decide as Hd.
    - destruct (decide (k = "lastScanSummary")) as [-> | Hne]; [by rewrite lookup_delete_eq|].
      rewrite lookup_delete_ne by done. destruct Hd as [Hp | ?]; [|done].
      destruct (local !! k) as [v|] eqn:Hk.
      + apply lookup_foldr_delete. apply Hkeys. eauto.
      + rewrite lookup_foldr_delete_not_elem_of; [done|].
        intros Hin. apply Hkeys in Hin as [_ [? ?]]. congruence.
    - rewrite lookup_delete_ne by (intros <-; apply Hd; by right).
      apply lookup_foldr_delete_not_elem_of. intros Hin. apply Hkeys in Hin as [? _].
      apply Hd. by left. }
  split; [done|]. split; [|split].
  - unfold getSettings. by rewrite !Hafter.
  - unfold after.
    assert (foldr delete local cacheKeys !! "lastScanSummary" = local !! "lastScanSummary")
      as Hsum.
    { apply lookup_foldr_delete_not_elem_of. intros Hin. by apply Hkeys in Hin as [? _]. }
    rewrite map_size_delete, Hsum.
    pose proof (size_foldr_delete local cacheKeys) as Hsize.
    assert (NoDup cacheKeys) as Hnd.
    { apply NoDup_filter, NoDup_fst_map_to_list. }
    specialize (Hsize Hnd).
    assert (Forall (λ k, is_Some (local !! k)) cacheKeys) as Hall.
    { apply Forall_forall. intros k Hk. by apply Hkeys in Hk as [_ ?]. }
    specialize (Hsize Hall).
    destruct (local !! "lastScanSummary") as [v|] eqn:Hv; simpl; [|lia].
    assert (size (foldr delete local cacheKeys) ≠ 0)%nat; [|lia].
    apply map_size_ne_0_lookup. exists "lastScanSummary". rewrite Hsum. eauto.
  - intros now st ids.
    assert (∀ c, c ∈ ids →
              cacheHit now (cacheView after) st false c = false ∧
              JsString.truthy (cacheView after !! cacheKey c ≫= uploadsPlaylistId) = false)
      as Hmiss.
    { intros c _. unfold cacheHit, cacheView. rewrite lookup_omap, Hafter.
      rewrite decide_True by (left; apply cacheKey_prefix). done. }
    split.
    + by apply misses_results.
    + rewrite misses_toFetch by done. apply needPlaylistId_all. intros c Hc.
      by apply Hmiss.
Qed.
